(** * Forward-mode automatic differentiation: the reduction engine of
      [autodiff/forward/forward.hpp]

    The header builds expression trees from overloaded operators and folds
    them into a [Dual] accumulator with the mutually recursive family
    [assign] / [assignAdd] / [assignSub] / [assignMul] / [assignDiv] /
    [assignPow], each in two call shapes (with and without a scratch dual).

    The development is organised as follows.
    - [Number]: the arithmetic type [T] the templates are instantiated with,
      together with the [<cmath>] functions the header imports with [using];
      [Scalars]: the arithmetic types of scalar operands, which keep their
      own type inside a tree.
    - Section [Engine]: duals, a store of duals addressed by location (the
      header works on references, so aliasing is visible, and so is the
      moment at which a dual is copied), expression trees, the operator
      overloads with their rewrite rules, and the reduction engine, for an
      arbitrary [Number] and arbitrary [Scalars].
    - [Real]: the instance at the real numbers, with a reference dual-number
      evaluator, used for the statements about mathematical values.
    - [Binary64]: the instance at IEEE binary64, used where rounding or
      NaN propagation decides a statement.
    - [HigherOrder]: nested duals, [derivative<order>], [seed] / [unseed].
    - [EngineFacts], [Values], [Comparisons]: what a reduction writes and
      reads, the independence of the values from the gradients, and the
      comparison operators, for an arbitrary [Number].
    - [RealFacts], [Calculus], [Derivative]: compound assignment and the
      operators over the reals, and the gradient as a derivative in the
      sense of real analysis.
    - [Mixed]: scalar operands of type [unsigned] beside [double].
    - [Binary64Facts], [HigherOrderFacts]: NaN arithmetic and the types
      [HigherOrderDual<N>].
    - The last part states the properties of the engine, each with the
      closed examples that instantiate or delimit it.

    A call that has no instance (the compiler rejects it) is [None] where
    the header itself decides this: [derivative<order>], [seed], [unseed],
    [negative] and [self -= expr].  Elsewhere the model covers every
    instantiation of the templates that exists: operand combinations the
    overload sets reject have no run to speak of, and the statements,
    quantified over all trees of the model, hold in particular for the
    trees the operators can build. *)

From Stdlib Require Import Reals Lra Floats ZArith List Bool Lia.
Import ListNotations.

(* ================================================================== *)
(** ** The arithmetic interface *)

(** [Number T] collects what the templates use of an arithmetic type [T]:
    the built-in operators, the literals [0.0], [1], [0.5] and the literal
    [ln10] of [apply(.., Log10Op)], and the functions of [<cmath>] the
    header names with [using std::...]. *)
Class Number (T : Type) : Type := {
  zero : T;
  one : T;
  half : T;
  ln10 : T;
  add : T -> T -> T;
  sub : T -> T -> T;
  mul : T -> T -> T;
  div : T -> T -> T;
  opp : T -> T;
  std_sin : T -> T;
  std_cos : T -> T;
  std_tan : T -> T;
  std_asin : T -> T;
  std_acos : T -> T;
  std_atan : T -> T;
  std_exp : T -> T;
  std_log : T -> T;
  std_log10 : T -> T;
  std_sqrt : T -> T;
  std_abs : T -> T;
  std_pow : T -> T -> T
}.

(** [Scalars T] collects what the templates use of the arithmetic types of
    their scalar operands ([isNumber<U>]: [int], [unsigned], [double], ...),
    which need not be the value type [T] of the duals.  [scalar] stands for
    these types together.  The operators [s_opp], [s_add], ... are the
    built-in ones, computed in the operands' own type, as [-expr.l], [-l]
    and [l * r.l] are in the rewrite rules of the operators.  [to_value] is
    the arithmetic conversion of a scalar in a statement that combines it
    with a [T], such as [self.val += other], and [of_value] is a [T] used
    as a scalar operand, as [static_cast<T>(1) / r] is in [inverse<T>]. *)
Class Scalars (T : Type) : Type := {
  scalar : Type;
  to_value : scalar -> T;
  of_value : T -> scalar;
  s_opp : scalar -> scalar;
  s_add : scalar -> scalar -> scalar;
  s_sub : scalar -> scalar -> scalar;
  s_mul : scalar -> scalar -> scalar;
  s_div : scalar -> scalar -> scalar
}.

(** Scalar operands of the value type itself, as in [2.0 * x] for a
    [Dual<double, double>]. *)
Definition OwnScalars (T : Type) {NT : Number T} : Scalars T := {|
  scalar := T;
  to_value := fun c => c;
  of_value := fun c => c;
  s_opp := opp;
  s_add := add;
  s_sub := sub;
  s_mul := mul;
  s_div := div
|}.

(** Operator tags of the unary nodes ([UnaryExpr<Op, R>]). *)
Inductive UnOp : Type :=
| NegOp | InvOp | SinOp | CosOp | TanOp | ArcSinOp | ArcCosOp | ArcTanOp
| ExpOp | LogOp | Log10Op | SqrtOp | AbsOp.

(** Locations of duals.  [Var n] is a dual owned by the caller; [Tmp k] is
    the local [Dual<T, G> tmp] (or the temporary built by [eval]) of the
    engine's frame number [k]. *)
Inductive loc : Type :=
| Var (n : nat)
| Tmp (k : nat).

Definition loc_eqb (a b : loc) : bool :=
  match a, b with
  | Var n, Var m => Nat.eqb n m
  | Tmp n, Tmp m => Nat.eqb n m
  | _, _ => false
  end.

Lemma loc_eqb_spec (a b : loc) : reflect (a = b) (loc_eqb a b).
Proof.
  destruct a as [n|n], b as [m|m]; simpl;
    try (constructor; discriminate);
    destruct (Nat.eqb_spec n m); constructor; congruence.
Qed.

Lemma loc_eqb_refl (a : loc) : loc_eqb a a = true.
Proof. destruct a; simpl; apply Nat.eqb_refl. Qed.

Lemma loc_eqb_neq (a b : loc) : a <> b -> loc_eqb a b = false.
Proof. intros H; destruct (loc_eqb_spec a b); congruence. Qed.

(** [below sp a]: location [a] is live for a frame whose first free
    temporary is [Tmp sp]. *)
Definition below (sp : nat) (a : loc) : Prop :=
  match a with
  | Var _ => True
  | Tmp k => k < sp
  end.

(** Proof support: [prim] lists the field-wise primitives of the engine;
    [prim_unfold] exposes the store updates they perform. *)
Create HintDb prim.

Ltac prim_unfold := autounfold with prim; cbv beta iota zeta.

Section Engine.

Context {T : Type} {NT : Number T} {ST : Scalars T}.

(* ------------------------------------------------------------------ *)
(** *** Duals and the store *)

(** [struct Dual { T val; G grad; }], at [G = T]. *)
Record Dual : Type := mkDual { val : T; grad : T }.

(** [Dual() : Dual(0.0)] and [Dual(const U& val) : val(val), grad(0)]. *)
Definition Dual_of_number (c : T) : Dual := mkDual c zero.
Definition Dual_default : Dual := Dual_of_number zero.

Definition store : Type := loc -> Dual.

Definition upd (st : store) (a : loc) (d : Dual) : store :=
  fun b => if loc_eqb a b then d else st b.

Definition set_val (st : store) (a : loc) (v : T) : store :=
  upd st a (mkDual v (grad (st a))).

Definition set_grad (st : store) (a : loc) (g : T) : store :=
  upd st a (mkDual (val (st a)) g).

(* ------------------------------------------------------------------ *)
(** *** Expression trees *)

(** A dual operand of a node: held by reference ([Dual&]) or by value. *)
Inductive Operand : Type :=
| ByRef (a : loc)
| ByVal (d : Dual).

Definition rd (st : store) (o : Operand) : Dual :=
  match o with
  | ByRef a => st a
  | ByVal d => d
  end.

(** [Num] is an operand of arithmetic type, [Leaf] a dual,
    [Unary] is [UnaryExpr<Op, R>], and the binary nodes are the
    instances of [BinaryExpr] the engine has rules for.  A scalar is kept
    in its own type, as the members [l] of [BinaryExpr<Op, L, R>] are. *)
Inductive Expr : Type :=
| Num (c : scalar)
| Leaf (o : Operand)
| Unary (op : UnOp) (r : Expr)
| AddExpr (l r : Expr)
| MulExpr (l r : Expr)
| PowExpr (l r : Expr)
| NumberDualMulExpr (l : scalar) (r : Operand).

(* ------------------------------------------------------------------ *)
(** *** Operator overloads (tree construction with rewrite rules) *)

(** The functions that undo a node ([negative] and [inverse] of a
    [NegExpr] or [InvExpr], and [-(-expr)]) return the operand of the node
    from a function whose return type is deduced ([auto]): the operand
    leaves by value.  A dual held by reference is thereby copied as it is
    in the store [st] at the call; a node is copied with the references it
    holds.  This is why the functions below take the store. *)
Definition copy (st : store) (e : Expr) : Expr :=
  match e with
  | Leaf o => Leaf (ByVal (rd st o))
  | _ => e
  end.

(** [negative]: the overload for a [NegExpr] returns [expr.r].  The other
    overload, which would wrap, is declared with
    [disableif<isNegExpr<R>>] without the ellipsis of the other
    constraints: this is one more template parameter, of type [void] where
    the constraint holds, which no call can supply.  The overload is never
    selected, and [negative] of anything but a [NegExpr] has no instance
    ([None]). *)
Definition negative (st : store) (e : Expr) : option Expr :=
  match e with
  | Unary NegOp r => Some (copy st r)
  | _ => None
  end.

(** [inverse] on expressions; on a number it is [static_cast<T>(1) / r]. *)
Definition inverse (st : store) (e : Expr) : Expr :=
  match e with
  | Unary InvOp r => copy st r
  | Num c => Num (of_value (div one (to_value c)))
  | _ => Unary InvOp e
  end.

(** Unary [operator-]. *)
Definition op_neg (st : store) (e : Expr) : Expr :=
  match e with
  | Num c => Num (s_opp c)
  | Unary NegOp r => copy st r
  | NumberDualMulExpr l r => NumberDualMulExpr (s_opp l) r
  | _ => Unary NegOp e
  end.

(** Binary [operator+]. *)
Fixpoint op_add (st : store) (l r : Expr) {struct r} : Expr :=
  match l, r with
  | Num a, Num b => Num (s_add a b)
  | Num _, _ => AddExpr l r
  | _, Num _ => AddExpr r l
  | Unary NegOp a, Unary NegOp b => op_neg st (op_add st a b)
  | _, _ => AddExpr l r
  end.

(** Binary [operator*]. *)
Fixpoint op_mul (st : store) (l r : Expr) {struct r} : Expr :=
  match l, r with
  | Num a, Num b => Num (s_mul a b)
  | Num a, Leaf o => NumberDualMulExpr a o
  | Num a, NumberDualMulExpr u o => NumberDualMulExpr (s_mul a u) o
  | Num a, Unary NegOp r' => op_mul st (Num (s_opp a)) r'
  | Num _, _ => MulExpr l r
  | _, Num _ => MulExpr r l
  | Unary NegOp a, Unary NegOp b => op_mul st a b
  | Unary InvOp a, Unary InvOp b => inverse st (op_mul st a b)
  | _, _ => MulExpr l r
  end.

(** Binary [operator-] and [operator/]: lowered to [+] and [*]. *)
Definition op_sub (st : store) (l r : Expr) : Expr :=
  match l, r with
  | Num a, Num b => Num (s_sub a b)
  | _, _ => op_add st l (op_neg st r)
  end.

Definition op_div (st : store) (l r : Expr) : Expr :=
  match l, r with
  | Num a, Num b => Num (s_div a b)
  | _, _ => op_mul st l (inverse st r)
  end.

(* ------------------------------------------------------------------ *)
(** *** Field-wise primitives

    Every statement of the header of the form [self.val op= ...] or
    [self.grad op= ...] reads its operands in the store as it is at that
    statement, so an operand that aliases [self] sees the fields already
    written. *)

(** [negate(self)] *)
Definition negate (st : store) (self : loc) : store :=
  let st := set_val st self (opp (val (st self))) in
  set_grad st self (opp (grad (st self))).

(** [scale(self, scalar)] *)
Definition scale (st : store) (self : loc) (scalar : T) : store :=
  let st := set_val st self (mul (val (st self)) scalar) in
  set_grad st self (mul (grad (st self)) scalar).

(** [apply(self, Op)], one clause per operator tag. *)
Definition apply (op : UnOp) (st : store) (self : loc) : store :=
  match op with
  | NegOp =>
      let st := set_val st self (opp (val (st self))) in
      set_grad st self (opp (grad (st self)))
  | InvOp =>
      let st := set_val st self (div one (val (st self))) in
      set_grad st self
        (mul (grad (st self)) (mul (opp (val (st self))) (val (st self))))
  | SinOp =>
      let st := set_grad st self (mul (grad (st self)) (std_cos (val (st self)))) in
      set_val st self (std_sin (val (st self)))
  | CosOp =>
      let st := set_grad st self
                  (mul (grad (st self)) (opp (std_sin (val (st self))))) in
      set_val st self (std_cos (val (st self)))
  | TanOp =>
      let aux := div one (std_cos (val (st self))) in
      let st := set_val st self (std_tan (val (st self))) in
      set_grad st self (mul (grad (st self)) (mul aux aux))
  | ArcSinOp =>
      let aux := div one (std_sqrt (sub one (mul (val (st self)) (val (st self))))) in
      let st := set_val st self (std_asin (val (st self))) in
      set_grad st self (mul (grad (st self)) aux)
  | ArcCosOp =>
      let aux := div (opp one)
                     (std_sqrt (sub one (mul (val (st self)) (val (st self))))) in
      let st := set_val st self (std_acos (val (st self))) in
      set_grad st self (mul (grad (st self)) aux)
  | ArcTanOp =>
      let aux := div one (add one (mul (val (st self)) (val (st self)))) in
      let st := set_val st self (std_atan (val (st self))) in
      set_grad st self (mul (grad (st self)) aux)
  | ExpOp =>
      let st := set_val st self (std_exp (val (st self))) in
      set_grad st self (mul (grad (st self)) (val (st self)))
  | LogOp =>
      let aux := div one (val (st self)) in
      let st := set_val st self (std_log (val (st self))) in
      set_grad st self (mul (grad (st self)) aux)
  | Log10Op =>
      let aux := div one (mul ln10 (val (st self))) in
      let st := set_val st self (std_log10 (val (st self))) in
      set_grad st self (mul (grad (st self)) aux)
  | SqrtOp =>
      let st := set_val st self (std_sqrt (val (st self))) in
      set_grad st self (mul (grad (st self)) (div half (val (st self))))
  | AbsOp =>
      let aux := val (st self) in
      let st := set_val st self (std_abs (val (st self))) in
      set_grad st self (mul (grad (st self)) (div aux (val (st self))))
  end.

(** [assign(self, scalar)] *)
Definition assign_number (st : store) (self : loc) (other : T) : store :=
  let st := set_val st self other in
  set_grad st self zero.

(** [assign(self, dual)] *)
Definition assign_dual (st : store) (self : loc) (other : Operand) : store :=
  let st := set_val st self (val (rd st other)) in
  set_grad st self (grad (rd st other)).

(** [assignAdd(self, scalar)] *)
Definition assignAdd_number (st : store) (self : loc) (other : T) : store :=
  set_val st self (add (val (st self)) other).

(** [assignAdd(self, dual)] *)
Definition assignAdd_dual (st : store) (self : loc) (other : Operand) : store :=
  let st := set_val st self (add (val (st self)) (val (rd st other))) in
  set_grad st self (add (grad (st self)) (grad (rd st other))).

(** [assignAdd(self, scalar * dual)] *)
Definition assignAdd_numberdualmul
    (st : store) (self : loc) (l : T) (r : Operand) : store :=
  let st := set_val st self (add (val (st self)) (mul l (val (rd st r)))) in
  set_grad st self (add (grad (st self)) (mul l (grad (rd st r)))).

(** [assignAddNegativeDual(self, tmp)] *)
Definition assignAddNegativeDual (st : store) (self : loc) (tmp : Operand) : store :=
  let st := set_val st self (sub (val (st self)) (val (rd st tmp))) in
  set_grad st self (sub (grad (st self)) (grad (rd st tmp))).

(** [assignAddInverseDual(self, tmp)] *)
Definition assignAddInverseDual (st : store) (self : loc) (tmp : Operand) : store :=
  let aux := div one (val (rd st tmp)) in
  let st := set_val st self (add (val (st self)) aux) in
  set_grad st self (sub (grad (st self)) (mul (mul aux aux) (grad (rd st tmp)))).

(** [assignSub(self, scalar)] and [assignSub(self, dual)] *)
Definition assignSub_number (st : store) (self : loc) (other : T) : store :=
  set_val st self (sub (val (st self)) other).

Definition assignSub_dual (st : store) (self : loc) (other : Operand) : store :=
  let st := set_val st self (sub (val (st self)) (val (rd st other))) in
  set_grad st self (sub (grad (st self)) (grad (rd st other))).

(** [assignMul(self, scalar)] *)
Definition assignMul_number (st : store) (self : loc) (other : T) : store :=
  let st := set_val st self (mul (val (st self)) other) in
  set_grad st self (mul (grad (st self)) other).

(** [assignMul(self, dual)] *)
Definition assignMul_dual (st : store) (self : loc) (other : Operand) : store :=
  let st := set_grad st self (mul (grad (st self)) (val (rd st other))) in
  let st := set_grad st self
              (add (grad (st self)) (mul (val (st self)) (grad (rd st other)))) in
  set_val st self (mul (val (st self)) (val (rd st other))).

(** [assignMul(self, scalar * dual)] *)
Definition assignMul_numberdualmul
    (st : store) (self : loc) (l : T) (r : Operand) : store :=
  let st := set_val st self (mul (val (st self)) l) in
  let st := set_grad st self (mul (grad (st self)) l) in
  let st := set_grad st self (mul (grad (st self)) (val (rd st r))) in
  let st := set_grad st self
              (add (grad (st self)) (mul (val (st self)) (grad (rd st r)))) in
  set_val st self (mul (val (st self)) (val (rd st r))).

(** [assignDiv(self, scalar)] and [assignDiv(self, dual)] *)
Definition assignDiv_number (st : store) (self : loc) (other : T) : store :=
  let aux := div one other in
  assignMul_number st self aux.

Definition assignDiv_dual (st : store) (self : loc) (other : Operand) : store :=
  let aux := div one (val (rd st other)) in
  let st := set_val st self (mul (val (st self)) aux) in
  let st := set_grad st self
              (sub (grad (st self)) (mul (val (st self)) (grad (rd st other)))) in
  set_grad st self (mul (grad (st self)) aux).

(** [assignPow(self, scalar)] *)
Definition assignPow_number (st : store) (self : loc) (other : T) : store :=
  let aux := std_pow (val (st self)) other in
  let st := set_grad st self
              (mul (grad (st self)) (mul (div other (val (st self))) aux)) in
  set_val st self aux.

(** [assignPow(self, dual)] *)
Definition assignPow_dual (st : store) (self : loc) (other : Operand) : store :=
  let aux1 := std_pow (val (st self)) (val (rd st other)) in
  let aux2 := std_log (val (st self)) in
  let st := set_grad st self
              (mul (grad (st self)) (div (val (rd st other)) (val (st self)))) in
  let st := set_grad st self (add (grad (st self)) (mul aux2 (grad (rd st other)))) in
  let st := set_grad st self (mul (grad (st self)) aux1) in
  set_val st self aux1.

(* ------------------------------------------------------------------ *)
(** *** The reduction engine

    The overloads of [assign], [assignAdd] and [assignMul] call each other
    on the operands of a node and, in the catch-all overloads, [assign] on
    the node itself.  [rules e] therefore builds, by recursion on the tree,
    the six reductions of the node [e] at once; the functions named after
    the source are its projections, and the lemmas of the next block restate
    every overload as an equation.

    A reduction takes the index [sp] of the first free temporary, the store
    and the target [self]; the scratch shape also takes [tmp]. *)

Definition reducer : Type := nat -> store -> loc -> store.
Definition reducer_tmp : Type := nat -> store -> loc -> loc -> store.

Record Rules : Type := mkRules {
  r_assign : reducer;
  r_assign_tmp : reducer_tmp;
  r_assignAdd : reducer;
  r_assignAdd_tmp : reducer_tmp;
  r_assignMul : reducer;
  r_assignMul_tmp : reducer_tmp
}.

(** [eval]: a dual is passed through (copied); any other expression is
    reduced into a new [Dual<ValueType, GradType>] by its converting
    constructor, which leaves the members uninitialised before [assign]
    runs: the temporary is whatever the store holds at [Tmp sp]. *)
Definition eval_with (asg : reducer) (e : Expr) (sp : nat) (st : store)
  : Dual * store :=
  match e with
  | Leaf o => (rd st o, st)
  | _ => let st := asg (S sp) st (Tmp sp) in (st (Tmp sp), st)
  end.

(** [assignAdd(self, -expr)] and [assignAdd(self, 1 / expr)]: the operand
    is evaluated first, into a temporary of its own (simple shape) or
    copied into [tmp] (scratch shape: [tmp = eval(other.r)]), and then
    accumulated by [acc]. *)
Definition via_eval (asg : reducer) (r : Expr)
    (acc : store -> loc -> Operand -> store) : reducer :=
  fun sp st self =>
    let '(d, st) := eval_with asg r sp st in
    acc st self (ByVal d).

Definition via_eval_tmp (asg : reducer) (r : Expr)
    (acc : store -> loc -> Operand -> store) : reducer_tmp :=
  fun sp st self tmp =>
    let '(d, st) := eval_with asg r sp st in
    let st := upd st tmp d in
    acc st self (ByRef tmp).

(** [assignPow], both shapes, given [assign] for the exponent. *)
Definition assignPow_with (asg : reducer) (e : Expr)
    (sp : nat) (st : store) (self : loc) : store :=
  match e with
  | Num c => assignPow_number st self (to_value c)
  | Leaf o => assignPow_dual st self o
  | _ => let '(d, st) := eval_with asg e sp st in
         assignPow_dual st self (ByVal d)
  end.

Definition assignPow_tmp_with (asg : reducer) (e : Expr)
    (sp : nat) (st : store) (self tmp : loc) : store :=
  match e with
  | Num c => assignPow_number st self (to_value c)
  | Leaf o => assignPow_dual st self o
  | _ => let st := asg sp st tmp in
         assignPow_dual st self (ByRef tmp)
  end.

(** The catch-all overloads [assignAdd(self, expr)] and
    [assignMul(self, expr)]: the scratch shape reduces the node into
    [tmp] and accumulates it; the simple shape declares
    [Dual<T, G> tmp;] and calls the scratch shape. *)
Definition generic_tmp (asg : reducer) (acc : store -> loc -> Operand -> store)
  : reducer_tmp :=
  fun sp st self tmp =>
    let st := asg sp st tmp in
    acc st self (ByRef tmp).

Definition generic (asg : reducer) (acc : store -> loc -> Operand -> store)
  : reducer :=
  fun sp st self =>
    generic_tmp asg acc (S sp) (upd st (Tmp sp) Dual_default) self (Tmp sp).

(** The components of each [mkRules] are, in this order, the overloads of
    [assign], [assign] with [tmp], [assignAdd], [assignAdd] with [tmp],
    [assignMul] and [assignMul] with [tmp] for the node matched. *)
Fixpoint rules (e : Expr) : Rules :=
  match e with
  | Num c =>
      let c := to_value c in
      mkRules
        (fun _ st self => assign_number st self c)
        (fun _ st self _ => assign_number st self c)
        (fun _ st self => assignAdd_number st self c)
        (fun _ st self _ => assignAdd_number st self c)
        (fun _ st self => assignMul_number st self c)
        (fun _ st self _ => assignMul_number st self c)
  | Leaf o =>
      mkRules
        (fun _ st self => assign_dual st self o)
        (fun _ st self _ => assign_dual st self o)
        (fun _ st self => assignAdd_dual st self o)
        (fun _ st self _ => assignAdd_dual st self o)
        (fun _ st self => assignMul_dual st self o)
        (fun _ st self _ => assignMul_dual st self o)
  | NumberDualMulExpr l o =>
      let l := to_value l in
      let asg : reducer := fun _ st self => scale (assign_dual st self o) self l in
      mkRules
        asg
        (fun sp st self _ => asg sp st self)
        (fun _ st self => assignAdd_numberdualmul st self l o)
        (fun _ st self _ => assignAdd_numberdualmul st self l o)
        (fun _ st self => assignMul_numberdualmul st self l o)
        (fun _ st self _ => assignMul_numberdualmul st self l o)
  | Unary op r =>
      let R := rules r in
      let asg : reducer :=
        fun sp st self => apply op (r_assign R sp st self) self in
      let asg_tmp : reducer_tmp :=
        fun sp st self tmp => apply op (r_assign_tmp R sp st self tmp) self in
      match op with
      | NegOp =>
          mkRules asg asg_tmp
            (via_eval (r_assign R) r assignAddNegativeDual)
            (via_eval_tmp (r_assign R) r assignAddNegativeDual)
            (fun sp st self => negate (r_assignMul R sp st self) self)
            (fun sp st self tmp => negate (r_assignMul_tmp R sp st self tmp) self)
      | InvOp =>
          mkRules asg asg_tmp
            (via_eval (r_assign R) r assignAddInverseDual)
            (via_eval_tmp (r_assign R) r assignAddInverseDual)
            (generic asg assignMul_dual)
            (generic_tmp asg assignMul_dual)
      | _ =>
          mkRules asg asg_tmp
            (generic asg assignAdd_dual)
            (generic_tmp asg assignAdd_dual)
            (generic asg assignMul_dual)
            (generic_tmp asg assignMul_dual)
      end
  | AddExpr l r =>
      let L := rules l in
      let R := rules r in
      let asg : reducer :=
        fun sp st self => r_assignAdd L sp (r_assign R sp st self) self in
      mkRules
        asg
        (fun sp st self tmp =>
           r_assignAdd_tmp L sp (r_assign_tmp R sp st self tmp) self tmp)
        (fun sp st self => r_assignAdd R sp (r_assignAdd L sp st self) self)
        (fun sp st self tmp =>
           r_assignAdd_tmp R sp (r_assignAdd_tmp L sp st self tmp) self tmp)
        (generic asg assignMul_dual)
        (generic_tmp asg assignMul_dual)
  | MulExpr l r =>
      let L := rules l in
      let R := rules r in
      let asg : reducer :=
        fun sp st self => r_assignMul L sp (r_assign R sp st self) self in
      mkRules
        asg
        (fun sp st self tmp =>
           r_assignMul_tmp L sp (r_assign_tmp R sp st self tmp) self tmp)
        (generic asg assignAdd_dual)
        (generic_tmp asg assignAdd_dual)
        (fun sp st self => r_assignMul R sp (r_assignMul L sp st self) self)
        (fun sp st self tmp =>
           r_assignMul_tmp R sp (r_assignMul_tmp L sp st self tmp) self tmp)
  | PowExpr l r =>
      let L := rules l in
      let R := rules r in
      let asg : reducer :=
        fun sp st self =>
          assignPow_with (r_assign R) r sp (r_assign L sp st self) self in
      mkRules
        asg
        (fun sp st self tmp =>
           assignPow_tmp_with (r_assign R) r sp
             (r_assign_tmp L sp st self tmp) self tmp)
        (generic asg assignAdd_dual)
        (generic_tmp asg assignAdd_dual)
        (generic asg assignMul_dual)
        (generic_tmp asg assignMul_dual)
  end.

(** The functions of the header.  The scratch shapes carry the suffix
    [_tmp]. *)
Definition assign (sp : nat) (st : store) (self : loc) (other : Expr) : store :=
  r_assign (rules other) sp st self.

Definition assign_tmp (sp : nat) (st : store) (self : loc) (other : Expr)
    (tmp : loc) : store :=
  r_assign_tmp (rules other) sp st self tmp.

Definition assignAdd (sp : nat) (st : store) (self : loc) (other : Expr) : store :=
  r_assignAdd (rules other) sp st self.

Definition assignAdd_tmp (sp : nat) (st : store) (self : loc) (other : Expr)
    (tmp : loc) : store :=
  r_assignAdd_tmp (rules other) sp st self tmp.

Definition assignMul (sp : nat) (st : store) (self : loc) (other : Expr) : store :=
  r_assignMul (rules other) sp st self.

Definition assignMul_tmp (sp : nat) (st : store) (self : loc) (other : Expr)
    (tmp : loc) : store :=
  r_assignMul_tmp (rules other) sp st self tmp.

Definition eval (sp : nat) (st : store) (e : Expr) : Dual * store :=
  eval_with (fun sp st self => assign sp st self e) e sp st.

(** [assignSub]: for an expression that is neither a number nor a dual
    the overload is [assignAdd(self, negative(other))], which has an
    instance only where [negative] has one; [None] is a call the compiler
    rejects. *)
Definition assignSub (sp : nat) (st : store) (self : loc) (other : Expr)
  : option store :=
  match other with
  | Num c => Some (assignSub_number st self (to_value c))
  | Leaf o => Some (assignSub_dual st self o)
  | _ => option_map (assignAdd sp st self) (negative st other)
  end.

Definition assignSub_tmp (sp : nat) (st : store) (self : loc) (other : Expr)
    (tmp : loc) : option store :=
  match other with
  | Num c => Some (assignSub_number st self (to_value c))
  | Leaf o => Some (assignSub_dual st self o)
  | _ => option_map (fun e => assignAdd_tmp sp st self e tmp)
                    (negative st other)
  end.

Definition assignDiv (sp : nat) (st : store) (self : loc) (other : Expr) : store :=
  match other with
  | Num c => assignDiv_number st self (to_value c)
  | Leaf o => assignDiv_dual st self o
  | _ => assignMul sp st self (inverse st other)
  end.

Definition assignDiv_tmp (sp : nat) (st : store) (self : loc) (other : Expr)
    (tmp : loc) : store :=
  match other with
  | Num c => assignDiv_number st self (to_value c)
  | Leaf o => assignDiv_dual st self o
  | _ => assignMul_tmp sp st self (inverse st other) tmp
  end.

Definition assignPow (sp : nat) (st : store) (self : loc) (other : Expr) : store :=
  assignPow_with (fun sp st self => assign sp st self other) other sp st self.

Definition assignPow_tmp (sp : nat) (st : store) (self : loc) (other : Expr)
    (tmp : loc) : store :=
  assignPow_tmp_with (fun sp st self => assign sp st self other) other sp st self tmp.

(* ------------------------------------------------------------------ *)
(** *** Derivative extraction, for one variable of a first-order dual *)

(** [internal::seed<num>(dual)]: [dual.grad = num]. *)
Definition seed_with (num : T) (st : store) (x : loc) : store :=
  set_grad st x num.

(** [seed(wrt(x))] and [unseed(wrt(x))]. *)
Definition seed (st : store) (x : loc) : store := seed_with one st x.
Definition unseed (st : store) (x : loc) : store := seed_with zero st x.

(** [derivative(f, wrt(x), args...)]: [f] reads and may write the
    caller's duals and returns a dual by value; the result is
    [derivative<1>(res) = res.grad]. *)
Definition derivative (f : store -> Dual * store) (x : loc) (st : store)
  : T * store :=
  let st := seed st x in
  let '(res, st) := f st in
  let st := unseed st x in
  (grad res, st).

(* ------------------------------------------------------------------ *)
(** *** The overloads, restated

    Each lemma is one overload of the header, read off [rules]. *)

Lemma assign_Unary sp st self op r :
  assign sp st self (Unary op r) = apply op (assign sp st self r) self.
Proof. destruct op; reflexivity. Qed.

Lemma assign_tmp_Unary sp st self op r tmp :
  assign_tmp sp st self (Unary op r) tmp
  = apply op (assign_tmp sp st self r tmp) self.
Proof. destruct op; reflexivity. Qed.

Lemma assign_AddExpr sp st self l r :
  assign sp st self (AddExpr l r)
  = assignAdd sp (assign sp st self r) self l.
Proof. reflexivity. Qed.

Lemma assign_tmp_AddExpr sp st self l r tmp :
  assign_tmp sp st self (AddExpr l r) tmp
  = assignAdd_tmp sp (assign_tmp sp st self r tmp) self l tmp.
Proof. reflexivity. Qed.

Lemma assign_MulExpr sp st self l r :
  assign sp st self (MulExpr l r)
  = assignMul sp (assign sp st self r) self l.
Proof. reflexivity. Qed.

Lemma assign_tmp_MulExpr sp st self l r tmp :
  assign_tmp sp st self (MulExpr l r) tmp
  = assignMul_tmp sp (assign_tmp sp st self r tmp) self l tmp.
Proof. reflexivity. Qed.

Lemma assign_PowExpr sp st self l r :
  assign sp st self (PowExpr l r)
  = assignPow sp (assign sp st self l) self r.
Proof. reflexivity. Qed.

Lemma assign_tmp_PowExpr sp st self l r tmp :
  assign_tmp sp st self (PowExpr l r) tmp
  = assignPow_tmp sp (assign_tmp sp st self l tmp) self r tmp.
Proof. reflexivity. Qed.

Lemma assign_NumberDualMulExpr sp st self l o :
  assign sp st self (NumberDualMulExpr l o)
  = scale (assign sp st self (Leaf o)) self (to_value l).
Proof. reflexivity. Qed.

Lemma assignAdd_NegExpr sp st self r :
  assignAdd sp st self (Unary NegOp r)
  = let '(d, st) := eval sp st r in assignAddNegativeDual st self (ByVal d).
Proof. reflexivity. Qed.

Lemma assignAdd_tmp_NegExpr sp st self r tmp :
  assignAdd_tmp sp st self (Unary NegOp r) tmp
  = let '(d, st) := eval sp st r in
    assignAddNegativeDual (upd st tmp d) self (ByRef tmp).
Proof. reflexivity. Qed.

Lemma assignAdd_InvExpr sp st self r :
  assignAdd sp st self (Unary InvOp r)
  = let '(d, st) := eval sp st r in assignAddInverseDual st self (ByVal d).
Proof. reflexivity. Qed.

Lemma assignAdd_tmp_InvExpr sp st self r tmp :
  assignAdd_tmp sp st self (Unary InvOp r) tmp
  = let '(d, st) := eval sp st r in
    assignAddInverseDual (upd st tmp d) self (ByRef tmp).
Proof. reflexivity. Qed.

Lemma assignAdd_AddExpr sp st self l r :
  assignAdd sp st self (AddExpr l r)
  = assignAdd sp (assignAdd sp st self l) self r.
Proof. reflexivity. Qed.

Lemma assignAdd_tmp_AddExpr sp st self l r tmp :
  assignAdd_tmp sp st self (AddExpr l r) tmp
  = assignAdd_tmp sp (assignAdd_tmp sp st self l tmp) self r tmp.
Proof. reflexivity. Qed.

Lemma assignMul_NegExpr sp st self r :
  assignMul sp st self (Unary NegOp r) = negate (assignMul sp st self r) self.
Proof. reflexivity. Qed.

Lemma assignMul_MulExpr sp st self l r :
  assignMul sp st self (MulExpr l r)
  = assignMul sp (assignMul sp st self l) self r.
Proof. reflexivity. Qed.

Lemma assignMul_tmp_MulExpr sp st self l r tmp :
  assignMul_tmp sp st self (MulExpr l r) tmp
  = assignMul_tmp sp (assignMul_tmp sp st self l tmp) self r tmp.
Proof. reflexivity. Qed.

Lemma assignPow_Num sp st self c :
  assignPow sp st self (Num c) = assignPow_number st self (to_value c).
Proof. reflexivity. Qed.

Lemma assignPow_Leaf sp st self o :
  assignPow sp st self (Leaf o) = assignPow_dual st self o.
Proof. reflexivity. Qed.

(** [self -= other] has an instance for a number, a dual and a negation,
    and for nothing else. *)
Definition subtractable (e : Expr) : bool :=
  match e with
  | Num _ | Leaf _ | Unary NegOp _ => true
  | _ => false
  end.

Lemma assignSub_Some sp st self e s' :
  assignSub sp st self e = Some s' ->
  match e with
  | Num c => s' = assignSub_number st self (to_value c)
  | Leaf o => s' = assignSub_dual st self o
  | Unary NegOp r => s' = assignAdd sp st self (copy st r)
  | _ => False
  end.
Proof.
  destruct e as [| |[] r| | | |]; simpl; intros E; inversion E; reflexivity.
Qed.

Lemma assignSub_tmp_Some sp st self e tmp s' :
  assignSub_tmp sp st self e tmp = Some s' ->
  match e with
  | Num c => s' = assignSub_number st self (to_value c)
  | Leaf o => s' = assignSub_dual st self o
  | Unary NegOp r => s' = assignAdd_tmp sp st self (copy st r) tmp
  | _ => False
  end.
Proof.
  destruct e as [| |[] r| | | |]; simpl; intros E; inversion E; reflexivity.
Qed.

Lemma assignSub_defined sp st self e :
  (exists s', assignSub sp st self e = Some s') <-> subtractable e = true.
Proof.
  destruct e as [| |[] r| | | |]; simpl; split;
    try reflexivity; try discriminate; eauto;
    intros [s' E]; discriminate.
Qed.

Lemma assignSub_tmp_defined sp st self e tmp :
  (exists s', assignSub_tmp sp st self e tmp = Some s')
  <-> subtractable e = true.
Proof.
  destruct e as [| |[] r| | | |]; simpl; split;
    try reflexivity; try discriminate; eauto;
    intros [s' E]; discriminate.
Qed.

Definition proper_expr (e : Expr) : Prop :=
  match e with
  | Num _ | Leaf _ => False
  | _ => True
  end.

Lemma assignPow_expr sp st self e :
  proper_expr e ->
  assignPow sp st self e
  = let '(d, st) := eval sp st e in assignPow_dual st self (ByVal d).
Proof. destruct e; simpl; intros []; reflexivity. Qed.

Lemma assignPow_tmp_expr sp st self e tmp :
  proper_expr e ->
  assignPow_tmp sp st self e tmp
  = assignPow sp (assign sp st tmp e) self (Leaf (ByRef tmp)).
Proof. destruct e; simpl; intros []; reflexivity. Qed.

(** The catch-all overloads, at the nodes they are enabled for. *)
Definition generic_add_node (e : Expr) : Prop :=
  match e with
  | Unary NegOp _ | Unary InvOp _ => False
  | Unary _ _ | MulExpr _ _ | PowExpr _ _ => True
  | _ => False
  end.

Definition generic_mul_node (e : Expr) : Prop :=
  match e with
  | Unary NegOp _ => False
  | Unary _ _ | AddExpr _ _ | PowExpr _ _ => True
  | _ => False
  end.

Lemma assignAdd_tmp_generic sp st self e tmp :
  generic_add_node e ->
  assignAdd_tmp sp st self e tmp
  = assignAdd sp (assign sp st tmp e) self (Leaf (ByRef tmp)).
Proof. destruct e as [| |[]| | | |]; simpl; intros []; reflexivity. Qed.

Lemma assignAdd_generic sp st self e :
  generic_add_node e ->
  assignAdd sp st self e
  = assignAdd_tmp (S sp) (upd st (Tmp sp) Dual_default) self e (Tmp sp).
Proof. destruct e as [| |[]| | | |]; simpl; intros []; reflexivity. Qed.

Lemma assignMul_tmp_generic sp st self e tmp :
  generic_mul_node e ->
  assignMul_tmp sp st self e tmp
  = assignMul sp (assign sp st tmp e) self (Leaf (ByRef tmp)).
Proof. destruct e as [| |[]| | | |]; simpl; intros []; reflexivity. Qed.

Lemma assignMul_generic sp st self e :
  generic_mul_node e ->
  assignMul sp st self e
  = assignMul_tmp (S sp) (upd st (Tmp sp) Dual_default) self e (Tmp sp).
Proof. destruct e as [| |[]| | | |]; simpl; intros []; reflexivity. Qed.

(* ------------------------------------------------------------------ *)
(** *** Store lemmas *)

Lemma upd_same st a d : upd st a d a = d.
Proof. unfold upd. now rewrite loc_eqb_refl. Qed.

Lemma upd_other st a d b : a <> b -> upd st a d b = st b.
Proof. intros H. unfold upd. now rewrite loc_eqb_neq. Qed.

Lemma Dual_eta (d : Dual) : mkDual (val d) (grad d) = d.
Proof. now destruct d. Qed.

Lemma rd_upd_other st t d o : o <> ByRef t -> rd (upd st t d) o = rd st o.
Proof.
  destruct o as [a|d']; simpl; intros H; [|reflexivity].
  apply upd_other. congruence.
Qed.

Lemma rd_upd_same st t d : rd (upd st t d) (ByRef t) = d.
Proof. apply upd_same. Qed.

(* ------------------------------------------------------------------ *)
(** *** Locality of the field-wise primitives

    A primitive writes [self] only ([frame1], [frame2]), and what it
    writes is determined by the contents of [self] and of its operand
    ([at_self1], [at_self2]). *)

Definition frame1 (P : store -> loc -> store) : Prop :=
  forall st self a, a <> self -> P st self a = st a.

Definition at_self1 (P : store -> loc -> store) : Prop :=
  forall st1 st2 t1 t2, st1 t1 = st2 t2 -> P st1 t1 t1 = P st2 t2 t2.

(** Two operands are related for the targets [t1], [t2] when both alias
    their target or neither does and they read the same dual. *)
Definition orel (t1 t2 : loc) (st1 st2 : store) (o1 o2 : Operand) : Prop :=
  (o1 = ByRef t1 /\ o2 = ByRef t2)
  \/ (o1 <> ByRef t1 /\ o2 <> ByRef t2 /\ rd st1 o1 = rd st2 o2).

Definition frame2 (P : store -> loc -> Operand -> store) : Prop :=
  forall st self o a, a <> self -> P st self o a = st a.

Definition at_self2 (P : store -> loc -> Operand -> store) : Prop :=
  forall st1 st2 t1 t2 o1 o2,
    st1 t1 = st2 t2 -> orel t1 t2 st1 st2 o1 o2 ->
    P st1 t1 o1 t1 = P st2 t2 o2 t2.

#[local] Hint Unfold
  negate scale apply assign_number assign_dual assignAdd_number
  assignAdd_dual assignAdd_numberdualmul assignAddNegativeDual
  assignAddInverseDual assignSub_number assignSub_dual assignMul_number
  assignMul_dual assignMul_numberdualmul assignDiv_number assignDiv_dual
  assignPow_number assignPow_dual set_val set_grad : prim.

Ltac frame_tac :=
  unfold frame1, frame2; intros; prim_unfold;
  repeat (rewrite upd_other by congruence); reflexivity.

Ltac at_self1_tac :=
  intros st1 st2 t1 t2 H; prim_unfold;
  repeat rewrite upd_same; cbn [val grad]; rewrite H; reflexivity.

Ltac at_self2_tac :=
  intros st1 st2 t1 t2 o1 o2 H [[-> ->]|(N1 & N2 & E)]; prim_unfold;
  [ repeat (rewrite ?rd_upd_same, ?upd_same; cbn [val grad rd]);
    rewrite ?H; reflexivity
  | repeat (rewrite ?upd_same, ?(rd_upd_other _ _ _ _ N1), ?(rd_upd_other _ _ _ _ N2);
            cbn [val grad]);
    rewrite ?H, ?E; reflexivity ].

Lemma frame1_negate : frame1 negate.
Proof. frame_tac. Qed.
Lemma at_self1_negate : at_self1 negate.
Proof. at_self1_tac. Qed.

Lemma frame1_scale c : frame1 (fun st self => scale st self c).
Proof. frame_tac. Qed.
Lemma at_self1_scale c : at_self1 (fun st self => scale st self c).
Proof. at_self1_tac. Qed.

Lemma frame1_apply op : frame1 (apply op).
Proof. destruct op; frame_tac. Qed.
Lemma at_self1_apply op : at_self1 (apply op).
Proof. destruct op; at_self1_tac. Qed.

Lemma frame1_assign_number c : frame1 (fun st self => assign_number st self c).
Proof. frame_tac. Qed.
Lemma assign_number_self st self c :
  assign_number st self c self = Dual_of_number c.
Proof. prim_unfold. now rewrite !upd_same. Qed.

Lemma frame1_assignAdd_number c : frame1 (fun st self => assignAdd_number st self c).
Proof. frame_tac. Qed.
Lemma at_self1_assignAdd_number c :
  at_self1 (fun st self => assignAdd_number st self c).
Proof. at_self1_tac. Qed.

Lemma frame1_assignSub_number c : frame1 (fun st self => assignSub_number st self c).
Proof. frame_tac. Qed.
Lemma at_self1_assignSub_number c :
  at_self1 (fun st self => assignSub_number st self c).
Proof. at_self1_tac. Qed.

Lemma frame1_assignMul_number c : frame1 (fun st self => assignMul_number st self c).
Proof. frame_tac. Qed.
Lemma at_self1_assignMul_number c :
  at_self1 (fun st self => assignMul_number st self c).
Proof. at_self1_tac. Qed.

Lemma frame1_assignDiv_number c : frame1 (fun st self => assignDiv_number st self c).
Proof. frame_tac. Qed.
Lemma at_self1_assignDiv_number c :
  at_self1 (fun st self => assignDiv_number st self c).
Proof. at_self1_tac. Qed.

Lemma frame1_assignPow_number c : frame1 (fun st self => assignPow_number st self c).
Proof. frame_tac. Qed.
Lemma at_self1_assignPow_number c :
  at_self1 (fun st self => assignPow_number st self c).
Proof. at_self1_tac. Qed.

Lemma frame2_assign_dual : frame2 assign_dual.
Proof. frame_tac. Qed.
Lemma at_self2_assign_dual : at_self2 assign_dual.
Proof. at_self2_tac. Qed.
Lemma assign_dual_self st self o :
  o <> ByRef self -> assign_dual st self o self = rd st o.
Proof.
  intros N. prim_unfold.
  rewrite !upd_same, (rd_upd_other _ _ _ _ N). cbn [val grad]. apply Dual_eta.
Qed.

Lemma frame2_assignAdd_dual : frame2 assignAdd_dual.
Proof. frame_tac. Qed.
Lemma at_self2_assignAdd_dual : at_self2 assignAdd_dual.
Proof. at_self2_tac. Qed.

Lemma frame2_assignAdd_numberdualmul l :
  frame2 (fun st self o => assignAdd_numberdualmul st self l o).
Proof. frame_tac. Qed.
Lemma at_self2_assignAdd_numberdualmul l :
  at_self2 (fun st self o => assignAdd_numberdualmul st self l o).
Proof. at_self2_tac. Qed.

Lemma frame2_assignAddNegativeDual : frame2 assignAddNegativeDual.
Proof. frame_tac. Qed.
Lemma at_self2_assignAddNegativeDual : at_self2 assignAddNegativeDual.
Proof. at_self2_tac. Qed.

Lemma frame2_assignAddInverseDual : frame2 assignAddInverseDual.
Proof. frame_tac. Qed.
Lemma at_self2_assignAddInverseDual : at_self2 assignAddInverseDual.
Proof. at_self2_tac. Qed.

Lemma frame2_assignSub_dual : frame2 assignSub_dual.
Proof. frame_tac. Qed.
Lemma at_self2_assignSub_dual : at_self2 assignSub_dual.
Proof. at_self2_tac. Qed.

Lemma frame2_assignMul_dual : frame2 assignMul_dual.
Proof. frame_tac. Qed.
Lemma at_self2_assignMul_dual : at_self2 assignMul_dual.
Proof. at_self2_tac. Qed.

Lemma frame2_assignMul_numberdualmul l :
  frame2 (fun st self o => assignMul_numberdualmul st self l o).
Proof. frame_tac. Qed.
Lemma at_self2_assignMul_numberdualmul l :
  at_self2 (fun st self o => assignMul_numberdualmul st self l o).
Proof. at_self2_tac. Qed.

Lemma frame2_assignDiv_dual : frame2 assignDiv_dual.
Proof. frame_tac. Qed.
Lemma at_self2_assignDiv_dual : at_self2 assignDiv_dual.
Proof. at_self2_tac. Qed.

Lemma frame2_assignPow_dual : frame2 assignPow_dual.
Proof. frame_tac. Qed.
Lemma at_self2_assignPow_dual : at_self2 assignPow_dual.
Proof. at_self2_tac. Qed.

(* ------------------------------------------------------------------ *)
(** *** Frame property of the engine

    A reduction writes its target, its scratch dual and temporaries of
    its own frame, and nothing else. *)

Lemma below_S sp a : below sp a -> below (S sp) a.
Proof. destruct a; simpl; auto. Qed.

Lemma below_neq_Tmp sp a : below sp a -> a <> Tmp sp.
Proof. destruct a; simpl; intros H E; inversion E; lia. Qed.

Definition frame_red (F : reducer) : Prop :=
  forall sp st self a, below sp a -> a <> self -> F sp st self a = st a.

Definition frame_red_tmp (F : reducer_tmp) : Prop :=
  forall sp st self tmp a,
    below sp a -> a <> self -> a <> tmp -> F sp st self tmp a = st a.

Record frame_rules (R : Rules) : Prop := mkFrameRules {
  fr_assign : frame_red (r_assign R);
  fr_assign_tmp : frame_red_tmp (r_assign_tmp R);
  fr_assignAdd : frame_red (r_assignAdd R);
  fr_assignAdd_tmp : frame_red_tmp (r_assignAdd_tmp R);
  fr_assignMul : frame_red (r_assignMul R);
  fr_assignMul_tmp : frame_red_tmp (r_assignMul_tmp R)
}.

Lemma frame_generic_tmp asg acc :
  frame_red asg -> frame2 acc -> frame_red_tmp (generic_tmp asg acc).
Proof.
  intros Ha Hc sp st self tmp a Hb Ns Nt. unfold generic_tmp.
  rewrite Hc by assumption. now apply Ha.
Qed.

Lemma frame_generic asg acc :
  frame_red asg -> frame2 acc -> frame_red (generic asg acc).
Proof.
  intros Ha Hc sp st self a Hb Ns. unfold generic.
  rewrite (frame_generic_tmp asg acc Ha Hc);
    auto using below_S, below_neq_Tmp.
  apply upd_other. apply not_eq_sym. now apply below_neq_Tmp.
Qed.

Lemma frame_eval_with asg e sp st a :
  frame_red asg -> below sp a -> snd (eval_with asg e sp st) a = st a.
Proof.
  intros Ha Hb.
  destruct e; simpl; try reflexivity;
    apply Ha; auto using below_S, below_neq_Tmp.
Qed.

Lemma frame_via asg e acc sp st self a :
  frame_red asg -> frame2 acc -> below sp a -> a <> self ->
  via_eval asg e acc sp st self a = st a.
Proof.
  intros Ha Hc Hb Ns. unfold via_eval.
  pose proof (frame_eval_with asg e sp st a Ha Hb) as E.
  destruct (eval_with asg e sp st) as [d st']; simpl in E.
  now rewrite Hc.
Qed.

Lemma frame_via_tmp asg e acc sp st self tmp a :
  frame_red asg -> frame2 acc -> below sp a -> a <> self -> a <> tmp ->
  via_eval_tmp asg e acc sp st self tmp a = st a.
Proof.
  intros Ha Hc Hb Ns Nt. unfold via_eval_tmp.
  pose proof (frame_eval_with asg e sp st a Ha Hb) as E.
  destruct (eval_with asg e sp st) as [d st']; simpl in E.
  rewrite Hc by assumption. rewrite upd_other by congruence. exact E.
Qed.

Lemma frame_assignPow_with asg e :
  frame_red asg -> frame_red (assignPow_with asg e).
Proof.
  intros Ha sp st self a Hb Ns.
  destruct e; simpl;
    try (rewrite frame2_assignPow_dual by assumption;
         apply Ha; auto using below_S, below_neq_Tmp).
  - now apply frame1_assignPow_number.
  - now apply frame2_assignPow_dual.
Qed.

Lemma frame_assignPow_tmp_with asg e :
  frame_red asg -> frame_red_tmp (assignPow_tmp_with asg e).
Proof.
  intros Ha sp st self tmp a Hb Ns Nt.
  destruct e; simpl;
    try (rewrite frame2_assignPow_dual by assumption; now apply Ha).
  - now apply frame1_assignPow_number.
  - now apply frame2_assignPow_dual.
Qed.

Lemma rules_frame e : frame_rules (rules e).
Proof.
  induction e as [c|o|op r IH|l IHl r IHr|l IHl r IHr|l IHl r IHr|c o].
  - split; intros sp st self; intros; simpl;
      (apply frame1_assign_number || apply frame1_assignAdd_number
       || apply frame1_assignMul_number); assumption.
  - split; intros sp st self; intros; simpl;
      (apply frame2_assign_dual || apply frame2_assignAdd_dual
       || apply frame2_assignMul_dual); assumption.
  - destruct IH as [A At Ad Adt Am Amt].
    assert (Ha : frame_red (fun sp st self => apply op (r_assign (rules r) sp st self) self)).
    { intros sp st self a Hb Ns. rewrite frame1_apply by assumption. now apply A. }
    assert (Hat : frame_red_tmp
              (fun sp st self tmp => apply op (r_assign_tmp (rules r) sp st self tmp) self)).
    { intros sp st self tmp a Hb Ns Nt. rewrite frame1_apply by assumption. now apply At. }
    destruct op; simpl; split; simpl; try assumption;
      try (apply frame_generic; auto using frame2_assignAdd_dual, frame2_assignMul_dual);
      try (apply frame_generic_tmp; auto using frame2_assignAdd_dual, frame2_assignMul_dual).
    + intros sp st self a Hb Ns.
      apply frame_via; auto using frame2_assignAddNegativeDual.
    + intros sp st self tmp a Hb Ns Nt.
      apply frame_via_tmp; auto using frame2_assignAddNegativeDual.
    + intros sp st self a Hb Ns. rewrite frame1_negate by assumption. now apply Am.
    + intros sp st self tmp a Hb Ns Nt. rewrite frame1_negate by assumption.
      now apply Amt.
    + intros sp st self a Hb Ns.
      apply frame_via; auto using frame2_assignAddInverseDual.
    + intros sp st self tmp a Hb Ns Nt.
      apply frame_via_tmp; auto using frame2_assignAddInverseDual.
  - destruct IHl as [Al Atl Adl Adtl Aml Amtl], IHr as [Ar Atr Adr Adtr Amr Amtr].
    assert (Ha : frame_red (fun sp st self =>
               r_assignAdd (rules l) sp (r_assign (rules r) sp st self) self)).
    { intros sp st self a Hb Ns. rewrite Adl by assumption. now apply Ar. }
    split; simpl; try assumption;
      try (apply frame_generic; auto using frame2_assignMul_dual);
      try (apply frame_generic_tmp; auto using frame2_assignMul_dual).
    + intros sp st self tmp a Hb Ns Nt. rewrite Adtl by assumption. now apply Atr.
    + intros sp st self a Hb Ns. rewrite Adr by assumption. now apply Adl.
    + intros sp st self tmp a Hb Ns Nt. rewrite Adtr by assumption. now apply Adtl.
  - destruct IHl as [Al Atl Adl Adtl Aml Amtl], IHr as [Ar Atr Adr Adtr Amr Amtr].
    assert (Ha : frame_red (fun sp st self =>
               r_assignMul (rules l) sp (r_assign (rules r) sp st self) self)).
    { intros sp st self a Hb Ns. rewrite Aml by assumption. now apply Ar. }
    split; simpl; try assumption;
      try (apply frame_generic; auto using frame2_assignAdd_dual);
      try (apply frame_generic_tmp; auto using frame2_assignAdd_dual).
    + intros sp st self tmp a Hb Ns Nt. rewrite Amtl by assumption. now apply Atr.
    + intros sp st self a Hb Ns. rewrite Amr by assumption. now apply Aml.
    + intros sp st self tmp a Hb Ns Nt. rewrite Amtr by assumption. now apply Amtl.
  - destruct IHl as [Al Atl Adl Adtl Aml Amtl], IHr as [Ar Atr Adr Adtr Amr Amtr].
    assert (Ha : frame_red (fun sp st self =>
               assignPow_with (r_assign (rules r)) r sp
                 (r_assign (rules l) sp st self) self)).
    { intros sp st self a Hb Ns.
      rewrite (frame_assignPow_with _ r Ar) by assumption. now apply Al. }
    split; simpl; try assumption;
      try (apply frame_generic;
           auto using frame2_assignAdd_dual, frame2_assignMul_dual);
      try (apply frame_generic_tmp;
           auto using frame2_assignAdd_dual, frame2_assignMul_dual).
    intros sp st self tmp a Hb Ns Nt.
    rewrite (frame_assignPow_tmp_with _ r Ar) by assumption. now apply Atl.
  - assert (Ha : frame_red
              (fun _ st self => scale (assign_dual st self o) self (to_value c))).
    { intros sp st self a Hb Ns.
      rewrite (frame1_scale (to_value c)) by assumption.
      now apply frame2_assign_dual. }
    split; simpl; try assumption.
    + intros sp st self tmp a Hb Ns Nt. exact (Ha sp st self a Hb Ns).
    + intros sp st self a Hb Ns.
      now apply (frame2_assignAdd_numberdualmul (to_value c)).
    + intros sp st self tmp a Hb Ns Nt.
      now apply (frame2_assignAdd_numberdualmul (to_value c)).
    + intros sp st self a Hb Ns.
      now apply (frame2_assignMul_numberdualmul (to_value c)).
    + intros sp st self tmp a Hb Ns Nt.
      now apply (frame2_assignMul_numberdualmul (to_value c)).
Qed.

(* ------------------------------------------------------------------ *)
(** *** Operands referenced by a tree *)

Definition operand_refs (o : Operand) : list loc :=
  match o with
  | ByRef a => [a]
  | ByVal _ => []
  end.

Fixpoint refs (e : Expr) : list loc :=
  match e with
  | Num _ => []
  | Leaf o => operand_refs o
  | Unary _ r => refs r
  | AddExpr l r | MulExpr l r | PowExpr l r => refs l ++ refs r
  | NumberDualMulExpr _ o => operand_refs o
  end.

(* ------------------------------------------------------------------ *)
(** *** Simple shape against scratch shape

    Two runs are compared on the locations in [vis]; the temporaries and
    the scratch dual of either run lie outside [vis].  The targets are the
    same visible dual, or two hidden ones (temporaries of the runs). *)

Section Simulation.

Variable vis : loc -> Prop.

Definition agree (st1 st2 : store) : Prop :=
  forall a, vis a -> st1 a = st2 a.

Definition target_ok (t1 t2 : loc) : Prop :=
  (t1 = t2 /\ vis t1) \/ (~ vis t1 /\ ~ vis t2).

Definition rel (t1 t2 : loc) (st1 st2 : store) : Prop :=
  agree st1 st2 /\ st1 t1 = st2 t2.

Definition hides (sp : nat) : Prop := forall a, vis a -> below sp a.

Definition visible (e : Expr) : Prop := Forall vis (refs e).

Definition sim_assign (F1 : reducer) (F2 : reducer_tmp) : Prop :=
  forall sp1 sp2 st1 st2 t1 t2 tmp,
    hides sp1 -> hides sp2 -> target_ok t1 t2 ->
    below sp1 t1 -> below sp2 t2 ->
    ~ vis tmp -> below sp2 tmp -> tmp <> t2 ->
    agree st1 st2 ->
    rel t1 t2 (F1 sp1 st1 t1) (F2 sp2 st2 t2 tmp).

Definition sim_acc (F1 : reducer) (F2 : reducer_tmp) : Prop :=
  forall sp1 sp2 st1 st2 t1 t2 tmp,
    hides sp1 -> hides sp2 -> target_ok t1 t2 ->
    below sp1 t1 -> below sp2 t2 ->
    ~ vis tmp -> below sp2 tmp -> tmp <> t2 ->
    rel t1 t2 st1 st2 ->
    rel t1 t2 (F1 sp1 st1 t1) (F2 sp2 st2 t2 tmp).

Definition same_assign (F : reducer) : Prop :=
  forall sp1 sp2 st1 st2 t1 t2,
    hides sp1 -> hides sp2 -> target_ok t1 t2 ->
    below sp1 t1 -> below sp2 t2 ->
    agree st1 st2 ->
    rel t1 t2 (F sp1 st1 t1) (F sp2 st2 t2).

Lemma hides_S sp : hides sp -> hides (S sp).
Proof. intros H a Ha. apply below_S. auto. Qed.

Lemma hides_Tmp sp : hides sp -> ~ vis (Tmp sp).
Proof. intros H V. apply H in V. simpl in V. lia. Qed.

Lemma target_ok_refl_r t1 t2 : target_ok t1 t2 -> target_ok t2 t2.
Proof. intros [[-> V]|[_ N]]; [left|right]; auto. Qed.

Lemma agree_refl st : agree st st.
Proof. intros a _. reflexivity. Qed.

Lemma same_of_sim_assign F1 F2 : sim_assign F1 F2 -> same_assign F1.
Proof.
  intros S sp1 sp2 st1 st2 t1 t2 H1 H2 Ht B1 B2 A.
  destruct (S sp1 (Datatypes.S sp2) st1 st2 t1 t2 (Tmp sp2)) as [A1 E1];
    auto using hides_S, hides_Tmp, below_S, below_neq_Tmp.
  { simpl. lia. }
  { apply not_eq_sym. now apply below_neq_Tmp. }
  destruct (S sp2 (Datatypes.S sp2) st2 st2 t2 t2 (Tmp sp2)) as [A2 E2];
    eauto using hides_S, hides_Tmp, below_S, below_neq_Tmp,
                target_ok_refl_r, agree_refl.
  { simpl. lia. }
  { apply not_eq_sym. now apply below_neq_Tmp. }
  split.
  - intros a V. rewrite (A1 a V). symmetry. exact (A2 a V).
  - congruence.
Qed.

(** Primitives preserve the relation. *)
Lemma neq_of_target_ok t1 t2 a :
  target_ok t1 t2 -> vis a -> a <> t1 -> a <> t2.
Proof. intros [[-> _]|[_ N]] V Na; congruence. Qed.

Lemma local1_rel P t1 t2 st1 st2 :
  frame1 P -> at_self1 P -> target_ok t1 t2 ->
  rel t1 t2 st1 st2 -> rel t1 t2 (P st1 t1) (P st2 t2).
Proof.
  intros Fr At Ht [A E]. split; [|now apply At].
  intros a V. destruct (loc_eqb_spec a t1) as [->|Na].
  - destruct Ht as [[<- _]|[N _]]; [now apply At | contradiction].
  - rewrite !Fr; eauto using neq_of_target_ok.
Qed.

Lemma local2_rel P t1 t2 st1 st2 o1 o2 :
  frame2 P -> at_self2 P -> target_ok t1 t2 ->
  rel t1 t2 st1 st2 -> orel t1 t2 st1 st2 o1 o2 ->
  rel t1 t2 (P st1 t1 o1) (P st2 t2 o2).
Proof.
  intros Fr At Ht [A E] Ho. split; [|now apply At].
  intros a V. destruct (loc_eqb_spec a t1) as [->|Na].
  - destruct Ht as [[<- _]|[N _]]; [now apply At | contradiction].
  - rewrite !Fr; eauto using neq_of_target_ok.
Qed.

Lemma assign_number_rel c t1 t2 st1 st2 :
  target_ok t1 t2 -> agree st1 st2 ->
  rel t1 t2 (assign_number st1 t1 c) (assign_number st2 t2 c).
Proof.
  intros Ht A. split; [|now rewrite !assign_number_self].
  intros a V. destruct (loc_eqb_spec a t1) as [->|Na].
  - destruct Ht as [[<- _]|[N _]]; [now rewrite !assign_number_self | contradiction].
  - rewrite !(frame1_assign_number c); eauto using neq_of_target_ok.
Qed.

Definition visible_operand (o : Operand) : Prop := Forall vis (operand_refs o).

Lemma rd_agree o st1 st2 :
  visible_operand o -> agree st1 st2 -> rd st1 o = rd st2 o.
Proof.
  destruct o as [a|d]; simpl; intros V A; [|reflexivity].
  apply A. now inversion V.
Qed.

Lemma orel_visible o t1 t2 st1 st2 :
  visible_operand o -> target_ok t1 t2 -> agree st1 st2 ->
  orel t1 t2 st1 st2 o o.
Proof.
  intros V Ht A. destruct o as [a|d].
  - assert (Va : vis a) by now inversion V.
    destruct (loc_eqb_spec a t1) as [->|Na].
    + destruct Ht as [[<- _]|[N _]]; [now left | contradiction].
    + right. repeat split; try congruence.
      * intros E. inversion E. subst. eapply neq_of_target_ok; eauto.
      * simpl. now apply A.
  - right. repeat split; congruence.
Qed.

Lemma assign_dual_rel o t1 t2 st1 st2 :
  visible_operand o -> target_ok t1 t2 -> agree st1 st2 ->
  rel t1 t2 (assign_dual st1 t1 o) (assign_dual st2 t2 o).
Proof.
  intros V Ht A.
  assert (E : assign_dual st1 t1 o t1 = assign_dual st2 t2 o t2).
  { destruct (orel_visible o t1 t2 st1 st2 V Ht A) as [[-> E2]|(N1 & N2 & E)].
    - inversion E2; subst. apply at_self2_assign_dual.
      + destruct Ht as [[_ Vt]|[N _]]; [now apply A|].
        exfalso. apply N. now inversion V.
      + now left.
    - now rewrite !assign_dual_self. }
  split; [|exact E].
  intros a Va. destruct (loc_eqb_spec a t1) as [->|Na].
  - destruct Ht as [[<- _]|[N _]]; [exact E | contradiction].
  - rewrite !frame2_assign_dual; eauto using neq_of_target_ok.
Qed.

Lemma orel_tmp t1 t2 st1 st2 o (tmp : loc) :
  o <> ByRef t1 -> tmp <> t2 -> rd st1 o = st2 tmp ->
  orel t1 t2 st1 st2 o (ByRef tmp).
Proof. intros N1 N2 E. right. repeat split; auto. congruence. Qed.

Lemma agree_upd_hidden st1 st2 tmp d :
  ~ vis tmp -> agree st1 st2 -> agree st1 (upd st2 tmp d).
Proof.
  intros N A a V. rewrite upd_other; [now apply A|]. congruence.
Qed.

Lemma agree_upd_hidden_l st1 st2 tmp d :
  ~ vis tmp -> agree st1 st2 -> agree (upd st1 tmp d) st2.
Proof.
  intros N A a V. rewrite upd_other; [now apply A|]. congruence.
Qed.

Lemma eval_with_rel asg r sp1 sp2 st1 st2 :
  same_assign asg -> visible r -> hides sp1 -> hides sp2 -> agree st1 st2 ->
  fst (eval_with asg r sp1 st1) = fst (eval_with asg r sp2 st2)
  /\ agree (snd (eval_with asg r sp1 st1)) (snd (eval_with asg r sp2 st2)).
Proof.
  intros Sa V H1 H2 A.
  assert (G : rel (Tmp sp1) (Tmp sp2)
                (asg (S sp1) st1 (Tmp sp1)) (asg (S sp2) st2 (Tmp sp2))).
  { apply Sa; auto using hides_S; try (simpl; lia).
    right. auto using hides_Tmp. }
  destruct G as [A' E'].
  destruct r; simpl; auto.
  split; [|assumption]. now apply rd_agree.
Qed.

Lemma sim_via asg r acc :
  same_assign asg -> frame_red asg -> visible r ->
  frame2 acc -> at_self2 acc ->
  sim_acc (via_eval asg r acc) (via_eval_tmp asg r acc).
Proof.
  intros Sa Fa V Fc Ac sp1 sp2 st1 st2 t1 t2 tmp H1 H2 Ht B1 B2 Nv Bt Nt [A E].
  unfold via_eval, via_eval_tmp.
  destruct (eval_with_rel asg r sp1 sp2 st1 st2 Sa V H1 H2 A) as [Ed A'].
  pose proof (frame_eval_with asg r sp1 st1 t1 Fa B1) as F1.
  pose proof (frame_eval_with asg r sp2 st2 t2 Fa B2) as F2.
  destruct (eval_with asg r sp1 st1) as [d1 s1].
  destruct (eval_with asg r sp2 st2) as [d2 s2].
  simpl in *. subst d2.
  apply local2_rel; auto.
  - split; [now apply agree_upd_hidden|].
    rewrite upd_other by assumption. congruence.
  - apply orel_tmp; [discriminate | assumption |].
    simpl. now rewrite upd_same.
Qed.

Lemma sim_generic asg acc :
  same_assign asg -> frame_red asg -> frame2 acc -> at_self2 acc ->
  sim_acc (generic asg acc) (generic_tmp asg acc).
Proof.
  intros Sa Fa Fc Ac sp1 sp2 st1 st2 t1 t2 tmp H1 H2 Ht B1 B2 Nv Bt Nt [A E].
  unfold generic, generic_tmp.
  pose proof (below_neq_Tmp sp1 t1 B1) as N1.
  assert (G : rel (Tmp sp1) tmp
                (asg (S sp1) (upd st1 (Tmp sp1) Dual_default) (Tmp sp1))
                (asg sp2 st2 tmp)).
  { apply Sa; auto using hides_S; try (simpl; lia).
    - right. auto using hides_Tmp.
    - apply agree_upd_hidden_l; auto using hides_Tmp. }
  destruct G as [A' E'].
  apply local2_rel; auto.
  - split; [assumption|].
    rewrite (Fa (S sp1)), (Fa sp2); auto using below_S.
    rewrite upd_other by congruence. assumption.
  - apply orel_tmp; [congruence | assumption | exact E'].
Qed.

Lemma sim_assignPow asg r :
  same_assign asg -> frame_red asg -> visible r ->
  sim_acc (assignPow_with asg r) (assignPow_tmp_with asg r).
Proof.
  intros Sa Fa V sp1 sp2 st1 st2 t1 t2 tmp H1 H2 Ht B1 B2 Nv Bt Nt [A E].
  pose proof (below_neq_Tmp sp1 t1 B1) as N1.
  assert (G : rel (Tmp sp1) tmp (asg (S sp1) st1 (Tmp sp1)) (asg sp2 st2 tmp)).
  { apply Sa; auto using hides_S; try (simpl; lia).
    right. auto using hides_Tmp. }
  destruct G as [A' E'].
  assert (K : rel t1 t2
                (assignPow_dual (asg (S sp1) st1 (Tmp sp1)) t1
                   (ByVal (asg (S sp1) st1 (Tmp sp1) (Tmp sp1))))
                (assignPow_dual (asg sp2 st2 tmp) t2 (ByRef tmp))).
  { apply local2_rel;
      auto using frame2_assignPow_dual, at_self2_assignPow_dual.
    - split; [assumption|].
      rewrite (Fa (S sp1)), (Fa sp2); auto using below_S.
    - apply orel_tmp; [discriminate | assumption | exact E']. }
  destruct r as [c|o| | | | |]; simpl; try exact K.
  - apply (local1_rel (fun st self => assignPow_number st self (to_value c)));
      auto using frame1_assignPow_number, at_self1_assignPow_number.
    now split.
  - apply local2_rel;
      auto using frame2_assignPow_dual, at_self2_assignPow_dual.
    + now split.
    + now apply orel_visible.
Qed.

Record sim_rules (R : Rules) : Prop := mkSimRules {
  sr_assign : sim_assign (r_assign R) (r_assign_tmp R);
  sr_assignAdd : sim_acc (r_assignAdd R) (r_assignAdd_tmp R);
  sr_assignMul : sim_acc (r_assignMul R) (r_assignMul_tmp R)
}.

Lemma sim_assign_then P F1 F2 :
  frame1 P -> at_self1 P -> sim_assign F1 F2 ->
  sim_assign (fun sp st self => P (F1 sp st self) self)
             (fun sp st self tmp => P (F2 sp st self tmp) self).
Proof.
  intros Fr At S sp1 sp2 st1 st2 t1 t2 tmp H1 H2 Ht B1 B2 Nv Bt Nt A.
  apply local1_rel; auto.
Qed.

Lemma sim_acc_then P F1 F2 :
  frame1 P -> at_self1 P -> sim_acc F1 F2 ->
  sim_acc (fun sp st self => P (F1 sp st self) self)
          (fun sp st self tmp => P (F2 sp st self tmp) self).
Proof.
  intros Fr At S sp1 sp2 st1 st2 t1 t2 tmp H1 H2 Ht B1 B2 Nv Bt Nt A.
  apply local1_rel; auto.
Qed.

Lemma sim_assign_seq F1 F2 G1 G2 :
  sim_assign F1 F2 -> sim_acc G1 G2 ->
  sim_assign (fun sp st self => G1 sp (F1 sp st self) self)
             (fun sp st self tmp => G2 sp (F2 sp st self tmp) self tmp).
Proof.
  intros S1 S2 sp1 sp2 st1 st2 t1 t2 tmp H1 H2 Ht B1 B2 Nv Bt Nt A.
  apply S2; auto.
Qed.

Lemma sim_acc_seq F1 F2 G1 G2 :
  sim_acc F1 F2 -> sim_acc G1 G2 ->
  sim_acc (fun sp st self => G1 sp (F1 sp st self) self)
          (fun sp st self tmp => G2 sp (F2 sp st self tmp) self tmp).
Proof.
  intros S1 S2 sp1 sp2 st1 st2 t1 t2 tmp H1 H2 Ht B1 B2 Nv Bt Nt A.
  apply S2; auto.
Qed.

Lemma rules_sim e : visible e -> sim_rules (rules e).
Proof.
  unfold visible.
  induction e as [c|o|op r IH|l IHl r IHr|l IHl r IHr|l IHl r IHr|c o];
    simpl refs; intros V.
  - split; simpl; intros sp1 sp2 st1 st2 t1 t2 tmp H1 H2 Ht B1 B2 Nv Bt Nt A.
    + now apply assign_number_rel.
    + apply (local1_rel (fun st self => assignAdd_number st self (to_value c)));
        auto using frame1_assignAdd_number, at_self1_assignAdd_number.
    + apply (local1_rel (fun st self => assignMul_number st self (to_value c)));
        auto using frame1_assignMul_number, at_self1_assignMul_number.
  - split; simpl; intros sp1 sp2 st1 st2 t1 t2 tmp H1 H2 Ht B1 B2 Nv Bt Nt A.
    + now apply assign_dual_rel.
    + apply local2_rel;
        auto using frame2_assignAdd_dual, at_self2_assignAdd_dual.
      apply orel_visible; auto. apply A.
    + apply local2_rel;
        auto using frame2_assignMul_dual, at_self2_assignMul_dual.
      apply orel_visible; auto. apply A.
  - destruct (IH V) as [SA SD SM].
    pose proof (rules_frame r) as [FA _ _ _ _ _].
    pose proof (same_of_sim_assign _ _ SA) as SSr.
    pose proof (sim_assign_then (apply op) _ _
                  (frame1_apply op) (at_self1_apply op) SA) as SAn.
    pose proof (same_of_sim_assign _ _ SAn) as SSn.
    assert (FAn : frame_red
              (fun sp st self => apply op (r_assign (rules r) sp st self) self)).
    { intros sp st self a Hb Ns. rewrite frame1_apply by assumption.
      now apply FA. }
    destruct op; split; simpl; try exact SAn;
      try (apply sim_generic;
           auto using frame2_assignAdd_dual, at_self2_assignAdd_dual,
                      frame2_assignMul_dual, at_self2_assignMul_dual).
    + apply sim_via;
        auto using frame2_assignAddNegativeDual, at_self2_assignAddNegativeDual.
    + apply (sim_acc_then negate); auto using frame1_negate, at_self1_negate.
    + apply sim_via;
        auto using frame2_assignAddInverseDual, at_self2_assignAddInverseDual.
  - apply Forall_app in V. destruct V as [Vl Vr].
    destruct (IHl Vl) as [SAl SDl SMl], (IHr Vr) as [SAr SDr SMr].
    pose proof (rules_frame l) as [_ _ FDl _ _ _].
    pose proof (rules_frame r) as [FAr _ _ _ _ _].
    pose proof (sim_assign_seq _ _ _ _ SAr SDl) as SAn.
    pose proof (same_of_sim_assign _ _ SAn) as SSn.
    split; simpl; try exact SAn.
    + exact (sim_acc_seq _ _ _ _ SDl SDr).
    + apply sim_generic;
        auto using frame2_assignMul_dual, at_self2_assignMul_dual.
      intros sp st self a Hb Ns. rewrite FDl by assumption. now apply FAr.
  - apply Forall_app in V. destruct V as [Vl Vr].
    destruct (IHl Vl) as [SAl SDl SMl], (IHr Vr) as [SAr SDr SMr].
    pose proof (rules_frame l) as [_ _ _ _ FMl _].
    pose proof (rules_frame r) as [FAr _ _ _ _ _].
    pose proof (sim_assign_seq _ _ _ _ SAr SMl) as SAn.
    pose proof (same_of_sim_assign _ _ SAn) as SSn.
    split; simpl; try exact SAn.
    + apply sim_generic;
        auto using frame2_assignAdd_dual, at_self2_assignAdd_dual.
      intros sp st self a Hb Ns. rewrite FMl by assumption. now apply FAr.
    + exact (sim_acc_seq _ _ _ _ SMl SMr).
  - apply Forall_app in V. destruct V as [Vl Vr].
    destruct (IHl Vl) as [SAl SDl SMl], (IHr Vr) as [SAr SDr SMr].
    pose proof (rules_frame l) as [FAl _ _ _ _ _].
    pose proof (rules_frame r) as [FAr _ _ _ _ _].
    pose proof (same_of_sim_assign _ _ SAr) as SSr.
    pose proof (sim_assign_seq _ _ _ _ SAl
                  (sim_assignPow (r_assign (rules r)) r SSr FAr Vr)) as SAn.
    pose proof (same_of_sim_assign _ _ SAn) as SSn.
    assert (FAn : frame_red
              (fun sp st self =>
                 assignPow_with (r_assign (rules r)) r sp
                   (r_assign (rules l) sp st self) self)).
    { intros sp st self a Hb Ns.
      rewrite (frame_assignPow_with _ r FAr) by assumption. now apply FAl. }
    split; simpl; try exact SAn;
      apply sim_generic;
        auto using frame2_assignAdd_dual, at_self2_assignAdd_dual,
                   frame2_assignMul_dual, at_self2_assignMul_dual.
  - assert (SAn : sim_assign
              (fun _ st self => scale (assign_dual st self o) self (to_value c))
              (fun _ st self _ => scale (assign_dual st self o) self (to_value c))).
    { intros sp1 sp2 st1 st2 t1 t2 tmp H1 H2 Ht B1 B2 Nv Bt Nt A.
      apply (local1_rel (fun st self => scale st self (to_value c)));
        auto using frame1_scale, at_self1_scale.
      now apply assign_dual_rel. }
    split; simpl; try exact SAn;
      intros sp1 sp2 st1 st2 t1 t2 tmp H1 H2 Ht B1 B2 Nv Bt Nt A.
    + apply (local2_rel
               (fun st self o => assignAdd_numberdualmul st self (to_value c) o));
        auto using frame2_assignAdd_numberdualmul,
                   at_self2_assignAdd_numberdualmul.
      apply orel_visible; auto. apply A.
    + apply (local2_rel
               (fun st self o => assignMul_numberdualmul st self (to_value c) o));
        auto using frame2_assignMul_numberdualmul,
                   at_self2_assignMul_numberdualmul.
      apply orel_visible; auto. apply A.
Qed.

End Simulation.

(** A copy refers to no dual the original does not refer to. *)
Lemma refs_copy st e : incl (refs (copy st e)) (refs e).
Proof.
  destruct e as [|o| | | | |]; try apply incl_refl.
  simpl. apply incl_nil_l.
Qed.

Lemma refs_negative st e e' :
  negative st e = Some e' -> incl (refs e') (refs e).
Proof.
  destruct e as [| |[] r| | | |]; simpl; try discriminate.
  intros E. inversion E. exact (refs_copy st r).
Qed.

Lemma refs_inverse st e : incl (refs (inverse st e)) (refs e).
Proof.
  destruct e as [| |[] r| | | |]; try apply incl_refl.
  exact (refs_copy st r).
Qed.

Lemma Forall_incl {A : Type} (P : A -> Prop) (l l' : list A) :
  incl l l' -> Forall P l' -> Forall P l.
Proof. rewrite !Forall_forall. intros I H a Ha. apply H, I, Ha. Qed.

(** The scratch dual of a call: live, distinct from the target and not an
    operand of the source. *)
Definition scratch_for (sp : nat) (self : loc) (e : Expr) (tmp : loc) : Prop :=
  below sp tmp /\ tmp <> self /\ ~ In tmp (refs e).

(** The locations compared by the simulation when [tmp] is the scratch. *)
Definition beside (sp : nat) (tmp : loc) : loc -> Prop :=
  fun a => below sp a /\ a <> tmp.

Lemma beside_visible sp tmp e :
  Forall (below sp) (refs e) -> ~ In tmp (refs e) ->
  visible (beside sp tmp) e.
Proof.
  unfold visible, beside. rewrite !Forall_forall.
  intros H N a Ha. split; [auto|]. congruence.
Qed.

Lemma shapes_rel sp st self e tmp :
  Forall (below sp) (refs e) -> below sp self -> scratch_for sp self e tmp ->
  sim_rules (beside sp tmp) (rules e)
  /\ hides (beside sp tmp) sp
  /\ target_ok (beside sp tmp) self self
  /\ ~ beside sp tmp tmp
  /\ rel (beside sp tmp) self self st st.
Proof.
  intros W Bs (Bt & Nt & Nr).
  split; [apply rules_sim; now apply beside_visible|].
  split; [intros a [Ha _]; exact Ha|].
  split; [left; split; [reflexivity|split; [assumption|congruence]]|].
  split; [intros [_ N]; congruence|].
  split; [apply agree_refl|reflexivity].
Qed.

Lemma shapes_agree_assign sp st self e tmp :
  Forall (below sp) (refs e) -> below sp self -> scratch_for sp self e tmp ->
  assign sp st self e self = assign_tmp sp st self e tmp self.
Proof.
  intros W Bs Sc.
  destruct (shapes_rel sp st self e tmp W Bs Sc) as ([SA _ _] & H & Ht & Nv & R).
  destruct Sc as (Bt & Nt & _).
  apply (SA sp sp st st self self tmp); auto. apply R.
Qed.

Lemma shapes_agree_assignAdd sp st self e tmp :
  Forall (below sp) (refs e) -> below sp self -> scratch_for sp self e tmp ->
  assignAdd sp st self e self = assignAdd_tmp sp st self e tmp self.
Proof.
  intros W Bs Sc.
  destruct (shapes_rel sp st self e tmp W Bs Sc) as ([_ SD _] & H & Ht & Nv & R).
  destruct Sc as (Bt & Nt & _).
  apply (SD sp sp st st self self tmp); auto.
Qed.

Lemma shapes_agree_assignMul sp st self e tmp :
  Forall (below sp) (refs e) -> below sp self -> scratch_for sp self e tmp ->
  assignMul sp st self e self = assignMul_tmp sp st self e tmp self.
Proof.
  intros W Bs Sc.
  destruct (shapes_rel sp st self e tmp W Bs Sc) as ([_ _ SM] & H & Ht & Nv & R).
  destruct Sc as (Bt & Nt & _).
  apply (SM sp sp st st self self tmp); auto.
Qed.

Lemma scratch_for_incl sp self e e' tmp :
  incl (refs e') (refs e) -> scratch_for sp self e tmp ->
  scratch_for sp self e' tmp.
Proof.
  intros I (Bt & Nt & Nr). repeat split; try assumption.
  intros H. apply Nr, I, H.
Qed.

(** The two shapes of [assignSub] have an instance for the same
    expressions, and leave the same target. *)
Lemma shapes_agree_assignSub sp st self e tmp :
  Forall (below sp) (refs e) -> below sp self -> scratch_for sp self e tmp ->
  option_map (fun s : store => s self) (assignSub sp st self e)
  = option_map (fun s : store => s self) (assignSub_tmp sp st self e tmp).
Proof.
  intros W Bs Sc.
  assert (G : forall e', negative st e = Some e' ->
              assignAdd sp st self e' self
              = assignAdd_tmp sp st self e' tmp self).
  { intros e' E. pose proof (refs_negative st e e' E) as I.
    apply shapes_agree_assignAdd;
      eauto using Forall_incl, scratch_for_incl. }
  unfold assignSub, assignSub_tmp.
  destruct e as [| |op r| | | |]; try reflexivity.
  destruct (negative st (Unary op r)) as [e'|] eqn:E; simpl; [|reflexivity].
  f_equal. now apply G.
Qed.

Lemma shapes_agree_assignDiv sp st self e tmp :
  Forall (below sp) (refs e) -> below sp self -> scratch_for sp self e tmp ->
  assignDiv sp st self e self = assignDiv_tmp sp st self e tmp self.
Proof.
  intros W Bs Sc.
  assert (G : assignMul sp st self (inverse st e) self
              = assignMul_tmp sp st self (inverse st e) tmp self).
  { pose proof (refs_inverse st e) as I.
    apply shapes_agree_assignMul;
      eauto using Forall_incl, scratch_for_incl. }
  destruct e; try exact G; reflexivity.
Qed.

Lemma shapes_agree_assignPow sp st self e tmp :
  Forall (below sp) (refs e) -> below sp self -> scratch_for sp self e tmp ->
  assignPow sp st self e self = assignPow_tmp sp st self e tmp self.
Proof.
  intros W Bs Sc.
  destruct (shapes_rel sp st self e tmp W Bs Sc) as ([SA _ _] & H & Ht & Nv & R).
  pose proof (rules_frame e) as [FA _ _ _ _ _].
  destruct Sc as (Bt & Nt & Nr).
  apply (sim_assignPow (beside sp tmp) (r_assign (rules e)) e
           (same_of_sim_assign _ _ _ SA) FA (beside_visible sp tmp e W Nr)
           sp sp st st self self tmp); auto.
Qed.

End Engine.

#[export] Hint Unfold
  negate scale apply assign_number assign_dual assignAdd_number
  assignAdd_dual assignAdd_numberdualmul assignAddNegativeDual
  assignAddInverseDual assignSub_number assignSub_dual assignMul_number
  assignMul_dual assignMul_numberdualmul assignDiv_number assignDiv_dual
  assignPow_number assignPow_dual set_val set_grad : prim.

Arguments Dual T : clear implicits.
Arguments Expr T {ST}.
Arguments Num {T ST} & c.
Arguments NumberDualMulExpr {T ST} & l r.
Arguments inverse {T NT ST} & st e.
Arguments op_neg {T ST} & st e.
Arguments op_add {T ST} & st l r.
Arguments op_mul {T NT ST} & st l r.
Arguments op_sub {T ST} & st l r.
Arguments op_div {T NT ST} & st l r.
Arguments Operand T : clear implicits.
Arguments store T : clear implicits.
Arguments ByRef {T} a.

(* ================================================================== *)
(** ** The instance at the real numbers *)

Module Real.

Local Open Scope R_scope.

(** [std::pow] on the reals: an integral exponent is a repeated product or
    quotient, any other exponent is [exp (y * ln x)]. *)
Definition Rpow (x y : R) : R :=
  if Req_dec_T y (IZR (Int_part y)) then powerRZ x (Int_part y) else Rpower x y.

(** The arithmetic of [double] idealised: operations are exact, a literal
    denotes the real it approximates ([0.5] is [1/2], [ln10] is [ln 10]),
    and [std::log10 x] is [ln x / ln 10]. *)
#[global] Instance RNumber : Number R := {|
  zero := 0;
  one := 1;
  half := / 2;
  ln10 := ln 10;
  add := Rplus;
  sub := Rminus;
  mul := Rmult;
  div := Rdiv;
  opp := Ropp;
  std_sin := sin;
  std_cos := cos;
  std_tan := tan;
  std_asin := asin;
  std_acos := acos;
  std_atan := atan;
  std_exp := exp;
  std_log := ln;
  std_log10 := fun x => ln x / ln 10;
  std_sqrt := R_sqrt.sqrt;
  std_abs := Rabs;
  std_pow := Rpow
|}.

(** Scalar operands are of the value type, as in [2.0 * x]. *)
#[global] Instance RScalars : Scalars R := OwnScalars R.

(** *** The reference evaluator

    Dual numbers over the reals with the usual rules: sum, product,
    quotient ([1/v]), chain rule for the elementary functions, the power
    rule for a constant exponent and the general rule for [u^v]. *)

Definition d_const (c : R) : Dual R := mkDual c 0.

Definition d_add (a b : Dual R) : Dual R :=
  mkDual (val a + val b) (grad a + grad b).

Definition d_mul (a b : Dual R) : Dual R :=
  mkDual (val a * val b) (grad a * val b + val a * grad b).

Definition d_unary (op : UnOp) (d : Dual R) : Dual R :=
  let u := val d in
  let u' := grad d in
  match op with
  | NegOp => mkDual (- u) (- u')
  | InvOp => mkDual (/ u) (- u' / (u * u))
  | SinOp => mkDual (sin u) (cos u * u')
  | CosOp => mkDual (cos u) (- sin u * u')
  | TanOp => mkDual (tan u) (u' / (cos u * cos u))
  | ArcSinOp => mkDual (asin u) (u' / R_sqrt.sqrt (1 - u * u))
  | ArcCosOp => mkDual (acos u) (- u' / R_sqrt.sqrt (1 - u * u))
  | ArcTanOp => mkDual (atan u) (u' / (1 + u * u))
  | ExpOp => mkDual (exp u) (exp u * u')
  | LogOp => mkDual (ln u) (u' / u)
  | Log10Op => mkDual (ln u / ln 10) (u' / (u * ln 10))
  | SqrtOp => mkDual (R_sqrt.sqrt u) (u' / (2 * R_sqrt.sqrt u))
  | AbsOp => mkDual (Rabs u) (if Rlt_dec u 0 then - u' else u')
  end.

Definition d_pow_number (a : Dual R) (p : R) : Dual R :=
  mkDual (Rpow (val a) p) (p * Rpow (val a) (p - 1) * grad a).

Definition d_pow (a b : Dual R) : Dual R :=
  let w := Rpow (val a) (val b) in
  mkDual w (w * (grad b * ln (val a) + val b * grad a / val a)).

Fixpoint reference (st : store R) (e : Expr R) : Dual R :=
  match e with
  | Num c => d_const c
  | Leaf o => rd st o
  | Unary op r => d_unary op (reference st r)
  | AddExpr l r => d_add (reference st l) (reference st r)
  | MulExpr l r => d_mul (reference st l) (reference st r)
  | PowExpr l (Num p) => d_pow_number (reference st l) p
  | PowExpr l r => d_pow (reference st l) (reference st r)
  | NumberDualMulExpr c o => d_mul (d_const c) (rd st o)
  end.

(** Where the expression is defined over the reals. *)
Definition in_domain (op : UnOp) (u : R) : Prop :=
  match op with
  | NegOp | SinOp | CosOp | ArcTanOp | ExpOp => True
  | InvOp | AbsOp => u <> 0
  | TanOp => cos u <> 0
  | ArcSinOp | ArcCosOp => -1 < u < 1
  | LogOp | Log10Op | SqrtOp => 0 < u
  end.

Definition pow_defined (u p : R) : Prop :=
  0 < u \/ (u <> 0 /\ exists n : Z, p = IZR n).

Fixpoint Defined (st : store R) (e : Expr R) : Prop :=
  match e with
  | Num _ | Leaf _ | NumberDualMulExpr _ _ => True
  | Unary op r => Defined st r /\ in_domain op (val (reference st r))
  | AddExpr l r | MulExpr l r => Defined st l /\ Defined st r
  | PowExpr l (Num p) =>
      Defined st l /\ pow_defined (val (reference st l)) p
  | PowExpr l r =>
      Defined st l /\ Defined st r /\ 0 < val (reference st l)
  end.

(** The target of [assign] may be the operand the reduction reads first
    (so [x = sin(x)], [x = 2 * x], [x = y + x] are fine), and must not occur
    anywhere else in the tree. *)
Fixpoint noalias (self : loc) (e : Expr R) : Prop :=
  match e with
  | Num _ | Leaf _ | NumberDualMulExpr _ _ => True
  | Unary _ r => noalias self r
  | AddExpr l r | MulExpr l r => ~ In self (refs l) /\ noalias self r
  | PowExpr l r => noalias self l /\ ~ In self (refs r)
  end.

Lemma noalias_of_notin self e : ~ In self (refs e) -> noalias self e.
Proof.
  induction e; simpl; auto; rewrite in_app_iff; intuition.
Qed.

(** [Rpow] at an integral exponent. *)
Lemma Int_part_IZR (n : Z) : Int_part (IZR n) = n.
Proof.
  symmetry. apply Int_part_spec. split; lra.
Qed.

Lemma Rpow_IZR (x : R) (n : Z) : Rpow x (IZR n) = powerRZ x n.
Proof.
  unfold Rpow. rewrite Int_part_IZR.
  destruct (Req_dec_T (IZR n) (IZR n)); congruence.
Qed.

Lemma Rpow_not_int (x y : R) :
  (forall n : Z, y <> IZR n) -> Rpow x y = Rpower x y.
Proof.
  intros H. unfold Rpow.
  destruct (Req_dec_T y (IZR (Int_part y))) as [E|_]; [|reflexivity].
  now destruct (H _ E).
Qed.

(** The power rule in the form the header computes it:
    [p * u^(p-1) = p / u * u^p]. *)
Lemma Rpow_pred (u p : R) :
  pow_defined u p -> Rpow u (p - 1) = Rpow u p / u.
Proof.
  intros D.
  destruct (Req_dec_T p (IZR (Int_part p))) as [E|N].
  - assert (Hu : u <> 0) by (destruct D as [D|[D _]]; lra).
    rewrite E, <- minus_IZR, !Rpow_IZR.
    unfold Z.sub. rewrite powerRZ_add by assumption.
    change (powerRZ u (- (1))) with (/ (u * 1)). now rewrite Rmult_1_r.
  - assert (Hn : forall n : Z, p <> IZR n).
    { intros n En. apply N. now rewrite En, Int_part_IZR. }
    assert (Hu : 0 < u).
    { destruct D as [D|[_ [n En]]]; [assumption|]. now destruct (Hn n). }
    rewrite !Rpow_not_int; auto.
    + unfold Rminus. rewrite Rpower_plus, Rpower_Ropp, Rpower_1 by assumption.
      reflexivity.
    + intros n En. apply (Hn (n + 1)%Z). rewrite plus_IZR. lra.
Qed.

(** *** The primitives, over the reals *)

Lemma dual_ext (a b : Dual R) : val a = val b -> grad a = grad b -> a = b.
Proof. destruct a, b; simpl; congruence. Qed.

Ltac R_ops :=
  cbn [zero one half ln10 add sub mul div opp std_sin std_cos std_tan
       std_asin std_acos std_atan std_exp std_log std_log10 std_sqrt
       std_abs std_pow RNumber].

Ltac at_self :=
  prim_unfold;
  repeat (rewrite ?upd_same, ?rd_upd_other by assumption; cbn [val grad rd]);
  R_ops; apply dual_ext; cbn [val grad d_const d_add d_mul d_unary
                                d_pow d_pow_number].

Lemma apply_R op (st : store R) self :
  in_domain op (val (st self)) ->
  apply op st self self = d_unary op (st self).
Proof.
  intros D. destruct op; at_self; simpl in D;
    try reflexivity; try (unfold Rdiv; ring); try (field; assumption).
  - unfold Rdiv. rewrite (Rmult_comm (val (st self)) (ln 10)). ring.
  - unfold Rdiv. rewrite Rinv_mult. ring.
  - destruct (Rlt_dec (val (st self)) 0) as [L|L].
    + rewrite Rabs_left by assumption. field. lra.
    + rewrite Rabs_right by lra. field. lra.
Qed.

Lemma assign_number_R (st : store R) self c :
  assign_number st self c self = d_const c.
Proof. at_self; reflexivity. Qed.

Lemma assign_dual_R (st : store R) self o :
  assign_dual st self o self = rd st o.
Proof.
  destruct o as [a|d].
  - destruct (loc_eqb_spec a self) as [->|N].
    + at_self; reflexivity.
    + apply assign_dual_self. congruence.
  - now apply assign_dual_self.
Qed.

Lemma scale_R (st : store R) self c :
  scale st self c self = d_mul (d_const c) (st self).
Proof. at_self; ring. Qed.

Lemma negate_R (st : store R) self :
  negate st self self = d_unary NegOp (st self).
Proof. at_self; reflexivity. Qed.

Lemma assignAdd_number_R (st : store R) self c :
  assignAdd_number st self c self = d_add (st self) (d_const c).
Proof. at_self; ring. Qed.

Lemma assignMul_number_R (st : store R) self c :
  assignMul_number st self c self = d_mul (st self) (d_const c).
Proof. at_self; ring. Qed.

Lemma assignAdd_dual_R (st : store R) self o :
  o <> ByRef self ->
  assignAdd_dual st self o self = d_add (st self) (rd st o).
Proof. intros N. at_self; reflexivity. Qed.

Lemma assignMul_dual_R (st : store R) self o :
  o <> ByRef self ->
  assignMul_dual st self o self = d_mul (st self) (rd st o).
Proof. intros N. at_self; reflexivity. Qed.

Lemma assignAdd_numberdualmul_R (st : store R) self c o :
  o <> ByRef self ->
  assignAdd_numberdualmul st self c o self
  = d_add (st self) (d_mul (d_const c) (rd st o)).
Proof. intros N. at_self; ring. Qed.

Lemma assignMul_numberdualmul_R (st : store R) self c o :
  o <> ByRef self ->
  assignMul_numberdualmul st self c o self
  = d_mul (st self) (d_mul (d_const c) (rd st o)).
Proof. intros N. at_self; ring. Qed.

Lemma assignAddNegativeDual_R (st : store R) self o :
  o <> ByRef self ->
  assignAddNegativeDual st self o self
  = d_add (st self) (d_unary NegOp (rd st o)).
Proof. intros N. at_self; ring. Qed.

Lemma assignAddInverseDual_R (st : store R) self o :
  o <> ByRef self -> val (rd st o) <> 0 ->
  assignAddInverseDual st self o self
  = d_add (st self) (d_unary InvOp (rd st o)).
Proof. intros N D. at_self; field; assumption. Qed.

Lemma assignPow_number_R (st : store R) self p :
  pow_defined (val (st self)) p ->
  assignPow_number st self p self = d_pow_number (st self) p.
Proof.
  intros D. at_self; [reflexivity|].
  rewrite (Rpow_pred _ _ D). unfold Rdiv. ring.
Qed.

Lemma assignPow_dual_R (st : store R) self o :
  o <> ByRef self ->
  assignPow_dual st self o self = d_pow (st self) (rd st o).
Proof. intros N. at_self; [reflexivity|]. unfold Rdiv. ring. Qed.

(** *** Soundness of the engine against the reference evaluator *)

Definition wf (sp : nat) (e : Expr R) : Prop := Forall (below sp) (refs e).

Lemma wf_S sp e : wf sp e -> wf (S sp) e.
Proof. unfold wf. apply Forall_impl. apply below_S. Qed.

Lemma wf_fresh sp e : wf sp e -> ~ In (Tmp sp) (refs e).
Proof.
  unfold wf. rewrite Forall_forall. intros H I.
  apply H in I. simpl in I. lia.
Qed.

Lemma wf_app sp (l r : Expr R) :
  Forall (below sp) (refs l ++ refs r) -> wf sp l /\ wf sp r.
Proof. intros H. now apply Forall_app in H. Qed.

Lemma rd_ext (st1 st2 : store R) o :
  (forall a, In a (operand_refs o) -> st1 a = st2 a) -> rd st1 o = rd st2 o.
Proof. destruct o; simpl; auto. Qed.

Lemma reference_ext (st1 st2 : store R) e :
  (forall a, In a (refs e) -> st1 a = st2 a) ->
  reference st1 e = reference st2 e.
Proof.
  induction e as [c|o|op r IH|l IHl r IHr|l IHl r IHr|l IHl r IHr|c o];
    simpl refs; intros H; try reflexivity.
  - now apply rd_ext.
  - simpl. now rewrite IH.
  - simpl. rewrite IHl, IHr; auto using in_or_app.
  - simpl. rewrite IHl, IHr; auto using in_or_app.
  - assert (El : reference st1 l = reference st2 l) by auto using in_or_app.
    assert (Er : reference st1 r = reference st2 r) by auto using in_or_app.
    destruct r; simpl in *; congruence.
  - simpl. f_equal. now apply rd_ext.
Qed.

Lemma Defined_PowExpr (st : store R) l r :
  Defined st (PowExpr l r)
  <-> Defined st l
      /\ match r with
         | Num p => pow_defined (val (reference st l)) p
         | _ => Defined st r /\ 0 < val (reference st l)
         end.
Proof. destruct r; simpl; tauto. Qed.

Lemma Defined_ext (st1 st2 : store R) e :
  (forall a, In a (refs e) -> st1 a = st2 a) ->
  Defined st1 e -> Defined st2 e.
Proof.
  induction e as [c|o|op r IH|l IHl r IHr|l IHl r IHr|l IHl r IHr|c o];
    simpl refs; intros H; try (simpl; tauto).
  - simpl. intros [D1 D2]. rewrite <- (reference_ext st1 st2 r H). auto.
  - simpl. intros [D1 D2]. split; auto using in_or_app.
  - simpl. intros [D1 D2]. split; auto using in_or_app.
  - assert (El : reference st1 l = reference st2 l).
    { apply reference_ext. auto using in_or_app. }
    assert (Hl : Defined st1 l -> Defined st2 l) by auto using in_or_app.
    assert (Hr : Defined st1 r -> Defined st2 r) by auto using in_or_app.
    rewrite !Defined_PowExpr, <- El. destruct r; tauto.
Qed.

(** After a reduction into [self], operands other than [self] read as
    before. *)
Definition kept (sp : nat) (self : loc) (st st' : store R) : Prop :=
  forall a, below sp a -> a <> self -> st' a = st a.

Lemma kept_refs sp self st st' e a :
  kept sp self st st' -> wf sp e -> ~ In self (refs e) ->
  In a (refs e) -> st' a = st a.
Proof.
  intros K W N I. apply K.
  - unfold wf in W. rewrite Forall_forall in W. auto.
  - congruence.
Qed.

Lemma kept_reference sp self st st' e :
  kept sp self st st' -> wf sp e -> ~ In self (refs e) ->
  reference st' e = reference st e.
Proof. intros K W N. apply reference_ext. eauto using kept_refs. Qed.

Lemma kept_Defined sp self st st' e :
  kept sp self st st' -> wf sp e -> ~ In self (refs e) ->
  Defined st e -> Defined st' e.
Proof.
  intros K W N. apply Defined_ext. intros a I. symmetry.
  eauto using kept_refs.
Qed.

Lemma kept_assign sp st self e : kept sp self st (assign sp st self e).
Proof. intros a B N. now apply (fr_assign _ (rules_frame e)). Qed.

Lemma kept_assignAdd sp st self e : kept sp self st (assignAdd sp st self e).
Proof. intros a B N. now apply (fr_assignAdd _ (rules_frame e)). Qed.

Lemma kept_assignMul sp st self e : kept sp self st (assignMul sp st self e).
Proof. intros a B N. now apply (fr_assignMul _ (rules_frame e)). Qed.

Definition assign_sound (e : Expr R) : Prop :=
  forall sp st self,
    wf sp e -> below sp self -> noalias self e -> Defined st e ->
    assign sp st self e self = reference st e.

Definition assignAdd_sound (e : Expr R) : Prop :=
  forall sp st self,
    wf sp e -> below sp self -> ~ In self (refs e) -> Defined st e ->
    assignAdd sp st self e self = d_add (st self) (reference st e).

Definition assignMul_sound (e : Expr R) : Prop :=
  forall sp st self,
    wf sp e -> below sp self -> ~ In self (refs e) -> Defined st e ->
    assignMul sp st self e self = d_mul (st self) (reference st e).

(** A node reduced into the temporary [Tmp sp] of a frame above [sp]. *)
Lemma into_temporary e sp (st0 st : store R) self :
  assign_sound e -> wf sp e -> below sp self -> Defined st e ->
  (forall a, below sp a -> st0 a = st a) ->
  let st' := assign (S sp) st0 (Tmp sp) e in
  st' (Tmp sp) = reference st e /\ st' self = st self.
Proof.
  intros A W B D E. cbv zeta.
  assert (K : forall a, In a (refs e) -> st0 a = st a).
  { intros a I. apply E. unfold wf in W. rewrite Forall_forall in W. auto. }
  split.
  - rewrite A; auto using wf_S, noalias_of_notin, wf_fresh.
    + now apply reference_ext.
    + simpl. lia.
    + apply (Defined_ext st st0); auto. intros a I. symmetry. auto.
  - rewrite (kept_assign (S sp) st0 (Tmp sp) e);
      auto using below_S, below_neq_Tmp.
Qed.

Lemma eval_sound e sp (st : store R) self :
  assign_sound e -> wf sp e -> below sp self -> Defined st e ->
  fst (eval sp st e) = reference st e
  /\ snd (eval sp st e) self = st self.
Proof.
  intros A W B D.
  destruct (into_temporary e sp st st self A W B D (fun _ _ => eq_refl))
    as [E1 E2].
  destruct e; try (split; [exact E1 | exact E2]).
  split; reflexivity.
Qed.

Lemma assignAdd_generic_sound e :
  generic_add_node e -> assign_sound e -> assignAdd_sound e.
Proof.
  intros G A sp st self W B N D.
  rewrite (assignAdd_generic sp st self e G).
  rewrite (assignAdd_tmp_generic _ _ _ _ _ G).
  destruct (into_temporary e sp (upd st (Tmp sp) Dual_default) st self A W B D)
    as [E1 E2].
  { intros a Ba. apply upd_other. apply not_eq_sym. now apply below_neq_Tmp. }
  change (assignAdd_dual
            (assign (S sp) (upd st (Tmp sp) Dual_default) (Tmp sp) e)
            self (ByRef (Tmp sp)) self
          = d_add (st self) (reference st e)).
  rewrite assignAdd_dual_R.
  - simpl rd. now rewrite E1, E2.
  - pose proof (below_neq_Tmp sp self B). congruence.
Qed.

Lemma assignMul_generic_sound e :
  generic_mul_node e -> assign_sound e -> assignMul_sound e.
Proof.
  intros G A sp st self W B N D.
  rewrite (assignMul_generic sp st self e G).
  rewrite (assignMul_tmp_generic _ _ _ _ _ G).
  destruct (into_temporary e sp (upd st (Tmp sp) Dual_default) st self A W B D)
    as [E1 E2].
  { intros a Ba. apply upd_other. apply not_eq_sym. now apply below_neq_Tmp. }
  change (assignMul_dual
            (assign (S sp) (upd st (Tmp sp) Dual_default) (Tmp sp) e)
            self (ByRef (Tmp sp)) self
          = d_mul (st self) (reference st e)).
  rewrite assignMul_dual_R.
  - simpl rd. now rewrite E1, E2.
  - pose proof (below_neq_Tmp sp self B). congruence.
Qed.

Lemma operand_neq self (o : Operand R) :
  ~ In self (operand_refs o) -> o <> ByRef self.
Proof. destruct o; simpl; intros N E; inversion E; subst; tauto. Qed.

Lemma d_add_comm a b : d_add a b = d_add b a.
Proof. apply dual_ext; simpl; ring. Qed.

Lemma d_add_assoc a b c : d_add (d_add a b) c = d_add a (d_add b c).
Proof. apply dual_ext; simpl; ring. Qed.

Lemma d_mul_comm a b : d_mul a b = d_mul b a.
Proof. apply dual_ext; simpl; ring. Qed.

Lemma d_mul_assoc a b c : d_mul (d_mul a b) c = d_mul a (d_mul b c).
Proof. apply dual_ext; simpl; ring. Qed.

Lemma d_mul_neg a b : d_unary NegOp (d_mul a b) = d_mul a (d_unary NegOp b).
Proof. apply dual_ext; simpl; ring. Qed.

Theorem engine_sound e :
  assign_sound e /\ assignAdd_sound e /\ assignMul_sound e.
Proof.
  induction e as [c|o|op r IH|l IHl r IHr|l IHl r IHr|l IHl r IHr|c o].
  - repeat split; intros sp st self W B N D.
    + apply assign_number_R.
    + apply assignAdd_number_R.
    + apply assignMul_number_R.
  - repeat split; intros sp st self W B N D.
    + apply assign_dual_R.
    + apply assignAdd_dual_R. now apply operand_neq.
    + apply assignMul_dual_R. now apply operand_neq.
  - destruct IH as (A & Ad & Am).
    assert (An : assign_sound (Unary op r)).
    { intros sp st self W B N [D1 D2].
      rewrite assign_Unary, apply_R; rewrite (A sp st self W B N D1);
        [reflexivity | exact D2]. }
    split; [exact An|].
    destruct op;
      try (split; [now apply assignAdd_generic_sound
                  | now apply assignMul_generic_sound]).
    + split.
      * intros sp st self W B N [D1 _].
        rewrite assignAdd_NegExpr.
        destruct (eval_sound r sp st self A W B D1) as [E1 E2].
        destruct (eval sp st r) as [d st']. simpl in E1, E2.
        rewrite assignAddNegativeDual_R by discriminate.
        simpl rd. now rewrite E1, E2.
      * intros sp st self W B N [D1 _].
        rewrite assignMul_NegExpr, negate_R, (Am sp st self W B N D1).
        apply d_mul_neg.
    + split; [|now apply assignMul_generic_sound].
      intros sp st self W B N [D1 D2].
      rewrite assignAdd_InvExpr.
      destruct (eval_sound r sp st self A W B D1) as [E1 E2].
      destruct (eval sp st r) as [d st']. simpl in E1, E2.
      rewrite assignAddInverseDual_R; [|discriminate|].
      * simpl rd. now rewrite E1, E2.
      * simpl rd. rewrite E1. exact D2.
  - destruct IHl as (Al & Adl & Aml), IHr as (Ar & Adr & Amr).
    assert (An : assign_sound (AddExpr l r)).
    { intros sp st self W B [N1 N2] [D1 D2].
      apply wf_app in W. destruct W as [Wl Wr].
      rewrite assign_AddExpr.
      pose proof (kept_assign sp st self r) as K.
      rewrite (Adl sp _ self Wl B N1 (kept_Defined _ _ _ _ l K Wl N1 D1)).
      rewrite (Ar sp st self Wr B N2 D2), (kept_reference _ _ _ _ l K Wl N1).
      apply d_add_comm. }
    split; [exact An|].
    split; [|now apply assignMul_generic_sound].
    intros sp st self W B N [D1 D2].
    apply wf_app in W. destruct W as [Wl Wr].
    simpl in N. rewrite in_app_iff in N.
    assert (N1 : ~ In self (refs l)) by tauto.
    assert (N2 : ~ In self (refs r)) by tauto.
    rewrite assignAdd_AddExpr.
    pose proof (kept_assignAdd sp st self l) as K.
    rewrite (Adr sp _ self Wr B N2 (kept_Defined _ _ _ _ r K Wr N2 D2)).
    rewrite (Adl sp st self Wl B N1 D1), (kept_reference _ _ _ _ r K Wr N2).
    apply d_add_assoc.
  - destruct IHl as (Al & Adl & Aml), IHr as (Ar & Adr & Amr).
    assert (An : assign_sound (MulExpr l r)).
    { intros sp st self W B [N1 N2] [D1 D2].
      apply wf_app in W. destruct W as [Wl Wr].
      rewrite assign_MulExpr.
      pose proof (kept_assign sp st self r) as K.
      rewrite (Aml sp _ self Wl B N1 (kept_Defined _ _ _ _ l K Wl N1 D1)).
      rewrite (Ar sp st self Wr B N2 D2), (kept_reference _ _ _ _ l K Wl N1).
      apply d_mul_comm. }
    split; [exact An|].
    split; [now apply assignAdd_generic_sound|].
    intros sp st self W B N [D1 D2].
    apply wf_app in W. destruct W as [Wl Wr].
    simpl in N. rewrite in_app_iff in N.
    assert (N1 : ~ In self (refs l)) by tauto.
    assert (N2 : ~ In self (refs r)) by tauto.
    rewrite assignMul_MulExpr.
    pose proof (kept_assignMul sp st self l) as K.
    rewrite (Amr sp _ self Wr B N2 (kept_Defined _ _ _ _ r K Wr N2 D2)).
    rewrite (Aml sp st self Wl B N1 D1), (kept_reference _ _ _ _ r K Wr N2).
    apply d_mul_assoc.
  - destruct IHl as (Al & Adl & Aml), IHr as (Ar & Adr & Amr).
    assert (An : assign_sound (PowExpr l r)).
    { intros sp st self W B [N1 N2] D.
      apply wf_app in W. destruct W as [Wl Wr].
      apply Defined_PowExpr in D. destruct D as [D1 D2].
      rewrite assign_PowExpr.
      pose proof (kept_assign sp st self l) as K.
      pose proof (Al sp st self Wl B N1 D1) as El.
      destruct r as [p|o|op r'|r1 r2|r1 r2|r1 r2|c o];
        try (rewrite assignPow_expr by exact I;
             destruct D2 as [D2 D3];
             match goal with |- context [eval sp ?s ?x] =>
               destruct (eval_sound x sp s self Ar Wr B
                           (kept_Defined _ _ _ _ x K Wr N2 D2)) as [E1 E2];
               destruct (eval sp s x) as [d st']
             end;
             cbn [fst snd] in E1, E2;
             rewrite assignPow_dual_R by discriminate;
             simpl rd;
             rewrite E1, E2, El, (kept_reference _ _ _ _ _ K Wr N2);
             reflexivity).
      - rewrite assignPow_Num, assignPow_number_R; rewrite El;
          [reflexivity | exact D2].
      - rewrite assignPow_Leaf, assignPow_dual_R by now apply operand_neq.
        rewrite El. simpl. f_equal. apply rd_ext. intros a Ia.
        apply (kept_refs sp self st _ (Leaf o)); assumption. }
    split; [exact An|].
    split; [now apply assignAdd_generic_sound
           | now apply assignMul_generic_sound].
  - repeat split; intros sp st self W B N D.
    + rewrite assign_NumberDualMulExpr, scale_R.
      change (assign sp st self (Leaf o)) with (assign_dual st self o).
      now rewrite assign_dual_R.
    + apply assignAdd_numberdualmul_R. now apply operand_neq.
    + apply assignMul_numberdualmul_R. now apply operand_neq.
Qed.

(** *** The product built by [operator*] *)

Lemma reference_copy (st s : store R) (e : Expr R) :
  (forall a, In a (refs e) -> s a = st a) ->
  reference st (copy s e) = reference st e.
Proof.
  destruct e as [|[a|d]| | | | |]; try reflexivity.
  intros H. simpl. apply H. now left.
Qed.

Lemma reference_inverse (st : store R) (e : Expr R) :
  val (reference st e) <> 0 ->
  reference st (inverse st e) = d_unary InvOp (reference st e).
Proof.
  intros H.
  destruct e as [c|o|[]| | | |]; try reflexivity.
  - simpl in *. apply dual_ext; simpl; unfold Rdiv; ring.
  - cbn [inverse]. rewrite reference_copy by reflexivity. simpl in *.
    assert (Hz : val (reference st e) <> 0).
    { intros Z. apply H. rewrite Z. apply Rinv_0. }
    apply dual_ext; simpl; field; assumption.
Qed.

Lemma d_mul_const a b : d_const (a * b) = d_mul (d_const a) (d_const b).
Proof. apply dual_ext; simpl; ring. Qed.

Lemma d_mul_const_assoc a u d :
  d_mul (d_const (a * u)) d = d_mul (d_const a) (d_mul (d_const u) d).
Proof. apply dual_ext; simpl; ring. Qed.

Lemma d_mul_opp_const a d :
  d_mul (d_const (- a)) d = d_mul (d_const a) (d_unary NegOp d).
Proof. apply dual_ext; simpl; ring. Qed.

Lemma d_mul_neg_neg a b :
  d_mul (d_unary NegOp a) (d_unary NegOp b) = d_mul a b.
Proof. apply dual_ext; simpl; ring. Qed.

Lemma d_mul_inv_inv a b :
  val a <> 0 -> val b <> 0 ->
  d_unary InvOp (d_mul a b) = d_mul (d_unary InvOp a) (d_unary InvOp b).
Proof. intros Ha Hb. apply dual_ext; simpl; field; auto. Qed.

(** [operator*] builds a tree whose reference value is the product of the
    reference values of its operands, whatever rewrite rule applied. *)
Lemma op_mul_sound (st : store R) (r : Expr R) :
  forall l : Expr R,
    Defined st l -> Defined st r ->
    reference st (op_mul st l r) = d_mul (reference st l) (reference st r).
Proof.
  induction r as [c|o|op r IH|rl _ rr _|rl _ rr _|rl _ rr _|c o];
    intros l Dl Dr.
  - destruct l as [| |[]| | | |]; try reflexivity; try apply d_mul_comm.
    apply d_mul_const.
  - destruct l as [| |[]| | | |]; reflexivity.
  - destruct Dr as [Dr Do].
    destruct l as [a|o|[] l'|l1 l2|l1 l2|l1 l2|a o]; destruct op;
      try reflexivity.
    + cbn [op_mul]. rewrite IH by (simpl; auto). apply d_mul_opp_const.
    + cbn [op_mul]. destruct Dl as [Dl _].
      rewrite IH by assumption. symmetry. apply d_mul_neg_neg.
    + cbn [op_mul]. destruct Dl as [Dl Dlo]. simpl in Do, Dlo.
      rewrite reference_inverse; rewrite IH by assumption.
      * apply d_mul_inv_inv; assumption.
      * simpl. apply Rmult_integral_contrapositive. auto.
  - destruct l as [| |[]| | | |]; reflexivity.
  - destruct l as [| |[]| | | |]; reflexivity.
  - destruct l as [| |[]| | | |]; reflexivity.
  - destruct l as [| |[]| | | |]; try reflexivity.
    apply d_mul_const_assoc.
Qed.

End Real.

(* ================================================================== *)
(** ** The instance at IEEE binary64 *)

Module Binary64.

Local Open Scope float_scope.

(** Modelled from the spec: the host math library ([<cmath>]) is an external
    collaborator, outside the repository, which the spec assumes to follow
    IEEE 754.  Only results that C Annex F fixes exactly are modelled:
    [pow(x, +-0) = 1], [pow(+-0, y) = +0] for a finite positive [y] that is
    not an odd integer and [+-0] for an odd one (the table below knows the
    exponents 1 and 3 as odd), and the values of the other functions at
    [0] or [1].  Every other call answers NaN, which stands for "not
    modelled"; no statement below evaluates such a call. *)
Definition libm_pow (x y : float) : float :=
  if (y =? 0) then 1
  else if (x =? 0) && (0 <? y) && (y <? infinity)
       then (if (y =? 1) || (y =? 3) then x else 0)
       else nan.

Definition libm_at (x0 y0 : float) (x : float) : float :=
  if x =? x0 then y0 else nan.

#[global] Instance FNumber : Number float := {|
  zero := 0;
  one := 1;
  half := 0.5;
  ln10 := 0x1.26bb1bbb55516p+1;
  add := PrimFloat.add;
  sub := PrimFloat.sub;
  mul := PrimFloat.mul;
  div := PrimFloat.div;
  opp := PrimFloat.opp;
  std_sin := libm_at 0 0;
  std_cos := libm_at 0 1;
  std_tan := libm_at 0 0;
  std_asin := libm_at 0 0;
  std_acos := libm_at 1 0;
  std_atan := libm_at 0 0;
  std_exp := libm_at 0 1;
  std_log := libm_at 1 0;
  std_log10 := libm_at 1 0;
  std_sqrt := PrimFloat.sqrt;
  std_abs := PrimFloat.abs;
  std_pow := libm_pow
|}.

(** Scalar operands are of the value type, as in [2.0 * x]. *)
#[global] Instance FScalars : Scalars float := OwnScalars float.

End Binary64.


(* ================================================================== *)
(** ** Nested duals: [derivative<order>], [seed], [unseed] *)

Module HigherOrder.

Section Nested.

Context {T : Type} {NT : Number T}.

(** A value of a type [T] that is arithmetic or again [Dual<T, G>]:
    [HigherOrderDual<N>] and every other nesting. *)
Inductive Value : Type :=
| Scalar (x : T)
| Nest (val grad : Value).

(** [val(x)]: the innermost scalar value. *)
Fixpoint val (v : Value) : T :=
  match v with
  | Scalar x => x
  | Nest a _ => val a
  end.

(** [self = scalar] at a nested dual: [assign(self, scalar)] sets
    [self.val = other] and [self.grad = 0.0], each again an assignment of a
    number to a member. *)
Fixpoint assign_number (self : Value) (other : T) : Value :=
  match self with
  | Scalar _ => Scalar other
  | Nest a g => Nest (assign_number a other) (assign_number g zero)
  end.

(** [Dual()] and [Dual(const U& val)] at the type with the shape of
    [like]: [val(val), grad(0)]. *)
Definition construct (like : Value) (c : T) : Value := assign_number like c.

(** All components are zero. *)
Fixpoint zeroed (v : Value) : Prop :=
  match v with
  | Scalar x => x = zero
  | Nest a g => zeroed a /\ zeroed g
  end.

(** Number of [.grad] (resp. [.val]) members one can descend through. *)
Fixpoint grad_depth (v : Value) : nat :=
  match v with
  | Scalar _ => 0
  | Nest _ g => S (grad_depth g)
  end.

Fixpoint val_depth (v : Value) : nat :=
  match v with
  | Scalar _ => 0
  | Nest a _ => S (val_depth a)
  end.

(** [std::size_t] arithmetic: [order - 1] wraps at zero (64-bit). *)
Definition SIZE_MAX : N := 18446744073709551615.

Definition size_pred (order : N) : N :=
  if (order =? 0)%N then SIZE_MAX else (order - 1)%N.

(** [derivative<order>(dual)].  [None] stands for an instantiation the
    compiler rejects.  The parameter must be a [Dual]; the body is

    [if constexpr (order == 0) return dual.val;]
    [if constexpr (order == 1) return dual.grad;]
    [else return derivative<order - 1>(dual.grad);]

    and the second statement is not the [else] branch of the first, so it
    is instantiated for every [order], in particular for [order == 0],
    where it needs [derivative<order - 1>(dual.grad)] to exist. *)
Fixpoint derivative (order : N) (dual : Value) : option Value :=
  match dual with
  | Scalar _ => None
  | Nest v g =>
      let second :=
        if (order =? 1)%N then Some g else derivative (size_pred order) g in
      if (order =? 0)%N
      then match second with Some _ => Some v | None => None end
      else second
  end.

(** [n] levels of [.grad]. *)
Fixpoint grad_iter (n : nat) (v : Value) : option Value :=
  match n with
  | O => Some v
  | S n' => match v with
            | Scalar _ => None
            | Nest _ g => grad_iter n' g
            end
  end.

(** The member [x.val. ... .val.grad] with [k] times [.val]. *)
Fixpoint grad_at (k : nat) (v : Value) : option Value :=
  match v with
  | Scalar _ => None
  | Nest a g => match k with
                | O => Some g
                | S k' => grad_at k' a
                end
  end.

(** [x.val. ... .val.grad = num]. *)
Fixpoint set_grad_at (k : nat) (v : Value) (num : T) : option Value :=
  match v with
  | Scalar _ => None
  | Nest a g =>
      match k with
      | O => Some (Nest a (assign_number g num))
      | S k' => match set_grad_at k' a num with
                | Some a' => Some (Nest a' g)
                | None => None
                end
      end
  end.

(** The caller's variables, by index. *)
Definition vars : Type := nat -> Value.

Definition write (st : vars) (x : nat) (v : Value) : vars :=
  fun y => if Nat.eqb x y then v else st y.

(** [internal::seed<num>(dual, duals...)]: the remaining variables are
    seeded first, through their [.val] members, then [dual.grad = num].
    [wrt] lists the variables of the tuple; [k] counts the [.val] members
    already taken.  No overload takes an empty list. *)
Fixpoint seed_from (num : T) (k : nat) (wrt : list nat) (st : vars)
  : option vars :=
  match wrt with
  | [] => None
  | x :: rest =>
      let seeded :=
        match rest with
        | [] => Some st
        | _ => seed_from num (S k) rest st
        end in
      match seeded with
      | None => None
      | Some st' =>
          match set_grad_at k (st' x) num with
          | Some v => Some (write st' x v)
          | None => None
          end
      end
  end.

(** [seed(std::tuple<Arg&>)] and [seed(std::tuple<Args&...>)], and the two
    overloads of [unseed] ([num] is 1, resp. 0).  A tuple of one variable
    selects the first overload, whose body is the call
    [internal::seed<num>(std::get<0>(dual))].  A longer tuple selects
    the second, whose body is
    [std::apply(internal::seed<num, Args&...>, duals)]: there
    [internal::seed<num, Args&...>] names an overloaded function template,
    with explicit arguments that end where a parameter pack begins, as the
    argument of a call that must deduce its type.  Whether that names one
    function is decided by the compiler at hand; [resolves] records its
    answer, and [None] is a call it rejects.  No overload of
    [internal::seed] takes an empty list. *)
Definition seed_tuple (resolves : bool) (num : T) (wrt : list nat) (st : vars)
  : option vars :=
  match wrt with
  | [] => None
  | [x] => seed_from num 0 [x] st
  | _ => if resolves then seed_from num 0 wrt st else None
  end.

Definition seed (resolves : bool) (wrt : list nat) (st : vars) : option vars :=
  seed_tuple resolves one wrt st.

Definition unseed (resolves : bool) (wrt : list nat) (st : vars) : option vars :=
  seed_tuple resolves zero wrt st.



(** *** [derivative<order>] *)

Lemma size_pred_pos (order : N) :
  (order <> 0)%N -> size_pred order = (order - 1)%N.
Proof.
  intros H. unfold size_pred. destruct (N.eqb_spec order 0); congruence.
Qed.

(** An order above the nesting depth has no instantiation. *)
Lemma derivative_beyond_depth (d : Value) :
  forall order : N,
    (N.of_nat (grad_depth d) < order)%N -> derivative order d = None.
Proof.
  induction d as [x|v _ g IH]; intros order H; [reflexivity|].
  simpl in *.
  destruct (N.eqb_spec order 0) as [E|E0]; [lia|].
  destruct (N.eqb_spec order 1) as [E|E1]; [lia|].
  rewrite size_pred_pos by assumption. apply IH. lia.
Qed.

(** Order zero has no instantiation, at any dual of a nesting depth a
    compiler can reach. *)
Lemma derivative_order_zero (d : Value) :
  (N.of_nat (grad_depth d) < SIZE_MAX)%N -> derivative 0 d = None.
Proof.
  destruct d as [x|v g]; intros H; [reflexivity|].
  cbn [derivative]. change (0 =? 1)%N with false. change (0 =? 0)%N with true.
  change (size_pred 0) with SIZE_MAX.
  rewrite derivative_beyond_depth; [reflexivity|].
  simpl grad_depth in H. lia.
Qed.

(** For an order of at least one, [derivative] descends that many times
    into [.grad]. *)
Lemma derivative_peels (n : nat) :
  forall d : Value,
    derivative (N.of_nat (S n)) d = grad_iter (S n) d.
Proof.
  induction n as [|n IH]; intros [x|v g]; try reflexivity.
  change (grad_iter (S (S n)) (Nest v g)) with (grad_iter (S n) g).
  rewrite <- IH. cbn [derivative].
  destruct (N.eqb_spec (N.of_nat (S (S n))) 1) as [E|E1]; [lia|].
  destruct (N.eqb_spec (N.of_nat (S (S n))) 0) as [E|E0]; [lia|].
  rewrite size_pred_pos by assumption.
  f_equal. lia.
Qed.

(** *** [seed] and [unseed] *)

Lemma write_same (st : vars) x v : write st x v x = v.
Proof. unfold write. now rewrite Nat.eqb_refl. Qed.

Lemma write_other (st : vars) x v y : x <> y -> write st x v y = st y.
Proof.
  intros H. unfold write. destruct (Nat.eqb_spec x y); congruence.
Qed.

Lemma zeroed_assign_number (g : Value) : zeroed (assign_number g zero).
Proof. induction g; simpl; auto. Qed.

Lemma val_assign_number (v : Value) c : val (assign_number v c) = c.
Proof. induction v; simpl; auto. Qed.

Lemma set_grad_at_val k : forall v num v',
  set_grad_at k v num = Some v' -> val v' = val v.
Proof.
  induction k as [|k IH]; intros [x|a g] num v' H; simpl in H;
    try discriminate.
  - now inversion H.
  - destruct (set_grad_at k a num) as [a'|] eqn:E; [|discriminate].
    inversion H. simpl. eauto.
Qed.

Lemma set_grad_at_same k : forall v num v',
  set_grad_at k v num = Some v' ->
  exists g, grad_at k v = Some g /\ grad_at k v' = Some (assign_number g num).
Proof.
  induction k as [|k IH]; intros [x|a g] num v' H; simpl in H;
    try discriminate.
  - inversion H. exists g. split; reflexivity.
  - destruct (set_grad_at k a num) as [a'|] eqn:E; [|discriminate].
    inversion H. simpl. eauto.
Qed.

Lemma set_grad_at_other k : forall j v num v',
  set_grad_at k v num = Some v' -> j <> k -> grad_at j v' = grad_at j v.
Proof.
  induction k as [|k IH]; intros j [x|a g] num v' H N; simpl in H;
    try discriminate.
  - inversion H. destruct j; [congruence | reflexivity].
  - destruct (set_grad_at k a num) as [a'|] eqn:E; [|discriminate].
    inversion H. destruct j; [reflexivity|].
    simpl. eapply IH; eauto.
Qed.

Lemma set_grad_at_defined k : forall v num,
  k < val_depth v -> exists v', set_grad_at k v num = Some v'.
Proof.
  induction k as [|k IH]; intros [x|a g] num H; simpl in *; try lia.
  - eauto.
  - destruct (IH a num) as [a' E]; [lia|]. rewrite E. eauto.
Qed.

Lemma set_grad_at_val_depth k : forall v num v',
  set_grad_at k v num = Some v' -> val_depth v' = val_depth v.
Proof.
  induction k as [|k IH]; intros [x|a g] num v' H; simpl in H;
    try discriminate.
  - now inversion H.
  - destruct (set_grad_at k a num) as [a'|] eqn:E; [|discriminate].
    inversion H. simpl. f_equal. eauto.
Qed.

(** One step of [seed_from], unfolded. *)
Lemma seed_from_cons num k x rest (st st' : vars) :
  seed_from num k (x :: rest) st = Some st' ->
  exists st1 v,
    (rest = [] /\ st1 = st \/ rest <> [] /\ seed_from num (S k) rest st = Some st1)
    /\ set_grad_at k (st1 x) num = Some v
    /\ st' = write st1 x v.
Proof.
  intros H. cbn [seed_from] in H.
  destruct rest as [|y rest'].
  - destruct (set_grad_at k (st x) num) as [v|] eqn:E; [|discriminate].
    inversion H. exists st, v. auto.
  - destruct (seed_from num (S k) (y :: rest') st) as [st1|] eqn:E1;
      [|discriminate].
    destruct (set_grad_at k (st1 x) num) as [v|] eqn:E; [|discriminate].
    inversion H. exists st1, v. repeat split; auto.
    right. split; [discriminate | reflexivity].
Qed.

(** Seeding leaves every innermost value as it was. *)
Lemma seed_from_val num (wrt : list nat) :
  forall k (st st' : vars),
    seed_from num k wrt st = Some st' -> forall y, val (st' y) = val (st y).
Proof.
  induction wrt as [|x rest IH]; intros k st st' H y; [discriminate|].
  apply seed_from_cons in H.
  destruct H as (st1 & v & Hr & Hs & ->).
  assert (E1 : val (st1 y) = val (st y)).
  { destruct Hr as [[_ ->]|[_ Hr]]; [reflexivity | eauto]. }
  destruct (Nat.eq_dec x y) as [->|N].
  - rewrite write_same, (set_grad_at_val _ _ _ _ Hs). exact E1.
  - now rewrite write_other.
Qed.

(** Seeding from level [n] on leaves the gradient members above level
    [n] as they were. *)
Lemma seed_from_above num (wrt : list nat) :
  forall n k (st st' : vars) x,
    k < n -> seed_from num n wrt st = Some st' ->
    grad_at k (st' x) = grad_at k (st x).
Proof.
  induction wrt as [|y rest IH]; intros n k st st' x L H; [discriminate|].
  apply seed_from_cons in H. destruct H as (st1 & w & Hr & Hs & ->).
  assert (E1 : grad_at k (st1 x) = grad_at k (st x)).
  { destruct Hr as [[_ ->]|[_ Hr]]; [reflexivity|].
    apply (IH (S n) k st st1 x); [lia | exact Hr]. }
  destruct (Nat.eq_dec y x) as [->|N].
  - rewrite write_same.
    rewrite (set_grad_at_other _ k _ _ _ Hs) by lia. exact E1.
  - now rewrite write_other.
Qed.

(** After seeding with [num], the variable at position [i] of the tuple
    holds [num] in the gradient member [i + k] levels of [.val] down. *)
Lemma seed_from_grad num (wrt : list nat) :
  forall k (st st' : vars),
    seed_from num k wrt st = Some st' ->
    forall i x, nth_error wrt i = Some x ->
      exists g, grad_at (i + k) (st x) = Some g
                /\ grad_at (i + k) (st' x) = Some (assign_number g num).
Proof.
  induction wrt as [|x0 rest IH]; intros k st st' H i x Hi; [discriminate|].
  apply seed_from_cons in H.
  destruct H as (st1 & v & Hr & Hs & ->).
  destruct i as [|i]; simpl in Hi.
  - inversion Hi; subst x0. simpl.
    destruct (set_grad_at_same _ _ _ _ Hs) as (g & G1 & G2).
    assert (E : grad_at k (st1 x) = grad_at k (st x)).
    { destruct Hr as [[_ ->]|[_ Hr]]; [reflexivity|].
      apply (seed_from_above num rest (S k) k st st1 x); [lia | exact Hr]. }
    exists g. rewrite write_same. rewrite <- E. auto.
  - destruct Hr as [[-> _]|[_ Hr]]; [destruct i; discriminate|].
    destruct (IH (S k) st st1 Hr i x Hi) as (g & G1 & G2).
    replace (S i + k) with (i + S k) by lia.
    exists g. split; [exact G1|].
    destruct (Nat.eq_dec x0 x) as [->|N].
    + rewrite write_same.
      rewrite (set_grad_at_other _ (i + S k) _ _ _ Hs) by lia. exact G2.
    + now rewrite write_other.
Qed.

Lemma seed_from_val_depth num (wrt : list nat) :
  forall k (st st' : vars),
    seed_from num k wrt st = Some st' ->
    forall y, val_depth (st' y) = val_depth (st y).
Proof.
  induction wrt as [|x rest IH]; intros k st st' H y; [discriminate|].
  apply seed_from_cons in H.
  destruct H as (st1 & v & Hr & Hs & ->).
  assert (E1 : val_depth (st1 y) = val_depth (st y)).
  { destruct Hr as [[_ ->]|[_ Hr]]; [reflexivity | eauto]. }
  destruct (Nat.eq_dec x y) as [->|N].
  - rewrite write_same, (set_grad_at_val_depth _ _ _ _ Hs). exact E1.
  - now rewrite write_other.
Qed.

(** Seeding succeeds when the tuple is not empty and the variable at
    position [i] is a dual nested at least [i + 1] deep. *)
Lemma seed_from_defined num (wrt : list nat) :
  wrt <> [] ->
  forall k (st : vars),
    (forall i x, nth_error wrt i = Some x -> i + k < val_depth (st x)) ->
    exists st', seed_from num k wrt st = Some st'.
Proof.
  induction wrt as [|x rest IH]; intros Hne k st H; [congruence|].
  cbn [seed_from].
  destruct rest as [|y rest'].
  - destruct (set_grad_at_defined k (st x) num (H 0 x eq_refl)) as [v E].
    rewrite E. eauto.
  - destruct (IH ltac:(discriminate) (S k) st) as [st1 E1].
    { intros i z Hi. specialize (H (S i) z Hi). lia. }
    rewrite E1.
    destruct (set_grad_at_defined k (st1 x) num) as [v E].
    { rewrite (seed_from_val_depth _ _ _ _ _ E1). apply (H 0 x eq_refl). }
    rewrite E. eauto.
Qed.




(** [seed] and [unseed] are [internal::seed] at the whole tuple, where the
    call has an instance. *)
Lemma seed_tuple_Some resolves num (wrt : list nat) (st st' : vars) :
  seed_tuple resolves num wrt st = Some st' ->
  seed_from num 0 wrt st = Some st' /\ (length wrt = 1 \/ resolves = true).
Proof.
  destruct wrt as [|x [|y rest]]; [discriminate | auto |].
  unfold seed_tuple. destruct resolves; [auto | discriminate].
Qed.

Lemma seed_tuple_resolved resolves num (wrt : list nat) (st : vars) :
  length wrt = 1 \/ resolves = true ->
  seed_tuple resolves num wrt st = seed_from num 0 wrt st.
Proof.
  destruct wrt as [|x [|y rest]]; try reflexivity.
  intros [H| ->]; [discriminate | reflexivity].
Qed.

End Nested.

Arguments Value T : clear implicits.
Arguments vars T : clear implicits.

End HigherOrder.

(* ================================================================== *)
(** ** Other functions of the header *)

(** [abs2(expr)] is [expr * expr], built by [operator*]. *)
Definition abs2 {T : Type} {NT : Number T} {ST : Scalars T}
    (st : store T) (r : Expr T) : Expr T :=
  op_mul st r r.

(* ================================================================== *)
(** ** Further properties of the engine, for every arithmetic type *)

Section EngineFacts.

Context {T : Type} {NT : Number T} {ST : Scalars T}.

(* ------------------------------------------------------------------ *)
(** *** What a reduction writes *)

Lemma frame_assignSub (e : Expr T) sp st self s' a :
  assignSub sp st self e = Some s' ->
  below sp a -> a <> self -> s' a = st a.
Proof.
  intros E B N. apply assignSub_Some in E.
  destruct e as [c|o|[] r| | | |]; try contradiction; subst s'.
  - now apply frame1_assignSub_number.
  - now apply frame2_assignSub_dual.
  - now apply (fr_assignAdd _ (rules_frame (copy st r))).
Qed.

Lemma frame_assignSub_tmp (e : Expr T) sp st self tmp s' a :
  assignSub_tmp sp st self e tmp = Some s' ->
  below sp a -> a <> self -> a <> tmp -> s' a = st a.
Proof.
  intros E B N Nt. apply assignSub_tmp_Some in E.
  destruct e as [c|o|[] r| | | |]; try contradiction; subst s'.
  - now apply frame1_assignSub_number.
  - now apply frame2_assignSub_dual.
  - now apply (fr_assignAdd_tmp _ (rules_frame (copy st r))).
Qed.

Lemma frame_assignDiv (e : Expr T) sp st self a :
  below sp a -> a <> self -> assignDiv sp st self e a = st a.
Proof.
  intros B N.
  assert (G : assignMul sp st self (inverse st e) a = st a)
    by now apply (fr_assignMul _ (rules_frame (inverse st e))).
  destruct e as [c|o| | | | |]; try exact G.
  - now apply frame1_assignDiv_number.
  - now apply frame2_assignDiv_dual.
Qed.

Lemma frame_assignDiv_tmp (e : Expr T) sp st self tmp a :
  below sp a -> a <> self -> a <> tmp -> assignDiv_tmp sp st self e tmp a = st a.
Proof.
  intros B N Nt.
  assert (G : assignMul_tmp sp st self (inverse st e) tmp a = st a)
    by now apply (fr_assignMul_tmp _ (rules_frame (inverse st e))).
  destruct e as [c|o| | | | |]; try exact G.
  - now apply frame1_assignDiv_number.
  - now apply frame2_assignDiv_dual.
Qed.

Lemma frame_assignPow (e : Expr T) sp st self a :
  below sp a -> a <> self -> assignPow sp st self e a = st a.
Proof.
  intros B N. unfold assignPow.
  apply (frame_assignPow_with (fun sp st self => assign sp st self e) e);
    auto.
  exact (fr_assign _ (rules_frame e)).
Qed.

Lemma frame_assignPow_tmp (e : Expr T) sp st self tmp a :
  below sp a -> a <> self -> a <> tmp -> assignPow_tmp sp st self e tmp a = st a.
Proof.
  intros B N Nt. unfold assignPow_tmp.
  apply (frame_assignPow_tmp_with (fun sp st self => assign sp st self e) e);
    auto.
  exact (fr_assign _ (rules_frame e)).
Qed.

Lemma frame_eval (e : Expr T) sp st a :
  below sp a -> snd (eval sp st e) a = st a.
Proof.
  intros B. unfold eval. apply frame_eval_with; auto.
  exact (fr_assign _ (rules_frame e)).
Qed.

(* ------------------------------------------------------------------ *)
(** *** What a reduction reads *)

(** The operands of [e] are the only duals [assign] reads: two runs from
    stores that agree on them, into targets that are not operands, leave
    the same dual in their targets. *)
Lemma assign_reads_operands (e : Expr T) sp1 sp2 st1 st2 t1 t2 :
  Forall (below sp1) (refs e) -> Forall (below sp2) (refs e) ->
  (forall a, In a (refs e) -> st1 a = st2 a) ->
  below sp1 t1 -> below sp2 t2 -> ~ In t1 (refs e) -> ~ In t2 (refs e) ->
  assign sp1 st1 t1 e t1 = assign sp2 st2 t2 e t2.
Proof.
  intros W1 W2 A B1 B2 N1 N2.
  pose (vis := fun a : loc => In a (refs e)).
  assert (V : visible vis e) by (apply Forall_forall; auto).
  pose proof (same_of_sim_assign vis _ _ (sr_assign vis _ (rules_sim vis e V)))
    as S.
  rewrite Forall_forall in W1, W2.
  apply (S sp1 sp2 st1 st2 t1 t2); auto.
  right. auto.
Qed.

Lemma eval_reads_operands (e : Expr T) sp1 sp2 st1 st2 :
  Forall (below sp1) (refs e) -> Forall (below sp2) (refs e) ->
  (forall a, In a (refs e) -> st1 a = st2 a) ->
  fst (eval sp1 st1 e) = fst (eval sp2 st2 e).
Proof.
  intros W1 W2 A.
  pose (vis := fun a : loc => In a (refs e)).
  assert (V : visible vis e) by (apply Forall_forall; auto).
  pose proof (same_of_sim_assign vis _ _ (sr_assign vis _ (rules_sim vis e V)))
    as S.
  rewrite Forall_forall in W1, W2.
  apply (eval_with_rel vis (fun sp st self => assign sp st self e) e
           sp1 sp2 st1 st2); auto.
Qed.

End EngineFacts.

Section Values.

Context {T : Type} {NT : Number T} {ST : Scalars T}.

(* ------------------------------------------------------------------ *)
(** *** The value members never depend on a gradient member

    Two runs are compared whose stores hold the same [val] in every dual;
    their [grad] members are unrelated. *)

Definition same_vals (st1 st2 : store T) : Prop :=
  forall a, val (st1 a) = val (st2 a).

Definition same_val_operand (o1 o2 : Operand T) : Prop :=
  match o1, o2 with
  | ByRef a, ByRef b => a = b
  | ByVal d1, ByVal d2 => val d1 = val d2
  | _, _ => False
  end.

Definition vals1 (P : store T -> loc -> store T) : Prop :=
  forall st1 st2 self,
    same_vals st1 st2 -> same_vals (P st1 self) (P st2 self).

Definition vals2 (P : store T -> loc -> Operand T -> store T) : Prop :=
  forall st1 st2 self o1 o2,
    same_vals st1 st2 -> same_val_operand o1 o2 ->
    same_vals (P st1 self o1) (P st2 self o2).

Lemma same_val_operand_refl o : same_val_operand o o.
Proof. destruct o; simpl; reflexivity. Qed.

Lemma same_vals_refl st : same_vals st st.
Proof. intros a. reflexivity. Qed.

Lemma same_vals_upd st1 st2 a d1 d2 :
  same_vals st1 st2 -> val d1 = val d2 ->
  same_vals (upd st1 a d1) (upd st2 a d2).
Proof.
  intros H E b. unfold upd. destruct (loc_eqb a b); [exact E | apply H].
Qed.

Lemma same_vals_rd st1 st2 o1 o2 :
  same_vals st1 st2 -> same_val_operand o1 o2 ->
  val (rd st1 o1) = val (rd st2 o2).
Proof.
  intros H Ho. destruct o1, o2; simpl in *; try contradiction; subst; auto.
Qed.

Ltac vals_step :=
  match goal with
  | |- context [loc_eqb ?a ?a] => rewrite (loc_eqb_refl a)
  | |- context [if loc_eqb ?a ?b then _ else _] =>
      destruct (loc_eqb a b) eqn:?
  | H : loc_eqb ?a ?b = _ |- context [loc_eqb ?a ?b] => rewrite H
  end; cbn [val grad rd].

Ltac vals1_tac :=
  intros st1 st2 self H b;
  pose proof (H self); pose proof (H b);
  prim_unfold; unfold upd; cbv beta; cbn [val grad rd];
  repeat vals_step; congruence.

Ltac vals2_tac :=
  intros st1 st2 self o1 o2 H Ho b;
  pose proof (H self); pose proof (H b);
  destruct o1 as [a1|d1], o2 as [a2|d2]; simpl in Ho; try contradiction;
  subst; try pose proof (H a2);
  prim_unfold; unfold upd; cbv beta; cbn [val grad rd];
  repeat vals_step; congruence.

Lemma vals1_negate : vals1 negate.
Proof. vals1_tac. Qed.

Lemma vals1_scale c : vals1 (fun st self => scale st self c).
Proof. vals1_tac. Qed.

Lemma vals1_apply op : vals1 (apply op).
Proof. destruct op; vals1_tac. Qed.

Lemma vals1_assign_number c : vals1 (fun st self => assign_number st self c).
Proof. vals1_tac. Qed.

Lemma vals1_assignAdd_number c : vals1 (fun st self => assignAdd_number st self c).
Proof. vals1_tac. Qed.

Lemma vals1_assignSub_number c : vals1 (fun st self => assignSub_number st self c).
Proof. vals1_tac. Qed.

Lemma vals1_assignMul_number c : vals1 (fun st self => assignMul_number st self c).
Proof. vals1_tac. Qed.

Lemma vals1_assignDiv_number c : vals1 (fun st self => assignDiv_number st self c).
Proof. vals1_tac. Qed.

Lemma vals1_assignPow_number c : vals1 (fun st self => assignPow_number st self c).
Proof. vals1_tac. Qed.

Lemma vals2_assign_dual : vals2 assign_dual.
Proof. vals2_tac. Qed.

Lemma vals2_assignAdd_dual : vals2 assignAdd_dual.
Proof. vals2_tac. Qed.

Lemma vals2_assignAdd_numberdualmul l :
  vals2 (fun st self o => assignAdd_numberdualmul st self l o).
Proof. vals2_tac. Qed.

Lemma vals2_assignAddNegativeDual : vals2 assignAddNegativeDual.
Proof. vals2_tac. Qed.

Lemma vals2_assignAddInverseDual : vals2 assignAddInverseDual.
Proof. vals2_tac. Qed.

Lemma vals2_assignSub_dual : vals2 assignSub_dual.
Proof. vals2_tac. Qed.

Lemma vals2_assignMul_dual : vals2 assignMul_dual.
Proof. vals2_tac. Qed.

Lemma vals2_assignMul_numberdualmul l :
  vals2 (fun st self o => assignMul_numberdualmul st self l o).
Proof. vals2_tac. Qed.

Lemma vals2_assignDiv_dual : vals2 assignDiv_dual.
Proof. vals2_tac. Qed.

Lemma vals2_assignPow_dual : vals2 assignPow_dual.
Proof. vals2_tac. Qed.

Definition vals_red (F : reducer) : Prop :=
  forall sp st1 st2 self,
    same_vals st1 st2 -> same_vals (F sp st1 self) (F sp st2 self).

Definition vals_red_tmp (F : reducer_tmp) : Prop :=
  forall sp st1 st2 self tmp,
    same_vals st1 st2 -> same_vals (F sp st1 self tmp) (F sp st2 self tmp).

Record vals_rules (R : Rules) : Prop := mkValsRules {
  vr_assign : vals_red (r_assign R);
  vr_assign_tmp : vals_red_tmp (r_assign_tmp R);
  vr_assignAdd : vals_red (r_assignAdd R);
  vr_assignAdd_tmp : vals_red_tmp (r_assignAdd_tmp R);
  vr_assignMul : vals_red (r_assignMul R);
  vr_assignMul_tmp : vals_red_tmp (r_assignMul_tmp R)
}.

Lemma vals_eval_with asg e sp st1 st2 :
  vals_red asg -> same_vals st1 st2 ->
  val (fst (eval_with asg e sp st1)) = val (fst (eval_with asg e sp st2))
  /\ same_vals (snd (eval_with asg e sp st1)) (snd (eval_with asg e sp st2)).
Proof.
  intros Ha H.
  pose proof (Ha (S sp) st1 st2 (Tmp sp) H) as G.
  destruct e; simpl; auto.
  split; [|assumption].
  apply same_vals_rd; auto using same_val_operand_refl.
Qed.

Lemma vals_generic_tmp asg acc :
  vals_red asg -> vals2 acc -> vals_red_tmp (generic_tmp asg acc).
Proof.
  intros Ha Hc sp st1 st2 self tmp H. unfold generic_tmp.
  apply Hc; [now apply Ha | reflexivity].
Qed.

Lemma vals_generic asg acc :
  vals_red asg -> vals2 acc -> vals_red (generic asg acc).
Proof.
  intros Ha Hc sp st1 st2 self H. unfold generic.
  apply vals_generic_tmp; auto.
  now apply same_vals_upd.
Qed.

Lemma vals_via asg e acc :
  vals_red asg -> vals2 acc -> vals_red (via_eval asg e acc).
Proof.
  intros Ha Hc sp st1 st2 self H. unfold via_eval.
  destruct (vals_eval_with asg e sp st1 st2 Ha H) as [E1 E2].
  destruct (eval_with asg e sp st1) as [d1 s1].
  destruct (eval_with asg e sp st2) as [d2 s2].
  now apply Hc.
Qed.

Lemma vals_via_tmp asg e acc :
  vals_red asg -> vals2 acc -> vals_red_tmp (via_eval_tmp asg e acc).
Proof.
  intros Ha Hc sp st1 st2 self tmp H. unfold via_eval_tmp.
  destruct (vals_eval_with asg e sp st1 st2 Ha H) as [E1 E2].
  destruct (eval_with asg e sp st1) as [d1 s1].
  destruct (eval_with asg e sp st2) as [d2 s2].
  apply Hc; [now apply same_vals_upd | reflexivity].
Qed.

Lemma vals_assignPow_with asg e :
  vals_red asg -> vals_red (assignPow_with asg e).
Proof.
  intros Ha sp st1 st2 self H.
  destruct (vals_eval_with asg e sp st1 st2 Ha H) as [E1 E2].
  destruct e; simpl in *;
    try (apply vals2_assignPow_dual; assumption).
  - now apply vals1_assignPow_number.
  - apply vals2_assignPow_dual; auto using same_val_operand_refl.
Qed.

Lemma vals_assignPow_tmp_with asg e :
  vals_red asg -> vals_red_tmp (assignPow_tmp_with asg e).
Proof.
  intros Ha sp st1 st2 self tmp H.
  pose proof (Ha sp st1 st2 tmp H) as G.
  destruct e; simpl;
    try (apply vals2_assignPow_dual; [assumption | reflexivity]).
  - now apply vals1_assignPow_number.
  - apply vals2_assignPow_dual; auto using same_val_operand_refl.
Qed.

Lemma vals_then1 P (F : reducer) :
  vals1 P -> vals_red F -> vals_red (fun sp st self => P (F sp st self) self).
Proof. intros HP HF sp st1 st2 self H. apply HP. now apply HF. Qed.

Lemma vals_then1_tmp P (F : reducer_tmp) :
  vals1 P -> vals_red_tmp F ->
  vals_red_tmp (fun sp st self tmp => P (F sp st self tmp) self).
Proof. intros HP HF sp st1 st2 self tmp H. apply HP. now apply HF. Qed.

Lemma vals_seq (F G : reducer) :
  vals_red F -> vals_red G ->
  vals_red (fun sp st self => G sp (F sp st self) self).
Proof. intros HF HG sp st1 st2 self H. apply HG. now apply HF. Qed.

Lemma vals_seq_tmp (F G : reducer_tmp) :
  vals_red_tmp F -> vals_red_tmp G ->
  vals_red_tmp (fun sp st self tmp => G sp (F sp st self tmp) self tmp).
Proof. intros HF HG sp st1 st2 self tmp H. apply HG. now apply HF. Qed.

Lemma vals_prim1 P : vals1 P -> vals_red (fun _ st self => P st self).
Proof. intros HP sp st1 st2 self H. now apply HP. Qed.

Lemma vals_prim1_tmp P : vals1 P -> vals_red_tmp (fun _ st self _ => P st self).
Proof. intros HP sp st1 st2 self tmp H. now apply HP. Qed.

Lemma vals_prim2 P o : vals2 P -> vals_red (fun _ st self => P st self o).
Proof.
  intros HP sp st1 st2 self H. apply HP; auto using same_val_operand_refl.
Qed.

Lemma vals_prim2_tmp P o :
  vals2 P -> vals_red_tmp (fun _ st self _ => P st self o).
Proof.
  intros HP sp st1 st2 self tmp H. apply HP; auto using same_val_operand_refl.
Qed.

Create HintDb vals.

#[local] Hint Resolve
  vals1_negate vals1_scale vals1_apply vals1_assign_number
  vals1_assignAdd_number vals1_assignMul_number vals2_assign_dual
  vals2_assignAdd_dual vals2_assignAdd_numberdualmul
  vals2_assignAddNegativeDual vals2_assignAddInverseDual
  vals2_assignMul_dual vals2_assignMul_numberdualmul
  vals_generic vals_generic_tmp vals_via vals_via_tmp : vals.

Lemma rules_vals e : vals_rules (rules e).
Proof.
  induction e as [c|o|op r IH|l IHl r IHr|l IHl r IHr|l IHl r IHr|c o].
  - split; simpl.
    + apply (vals_prim1 (fun st self => assign_number st self (to_value c)));
        auto with vals.
    + apply (vals_prim1_tmp (fun st self => assign_number st self (to_value c)));
        auto with vals.
    + apply (vals_prim1 (fun st self => assignAdd_number st self (to_value c)));
        auto with vals.
    + apply (vals_prim1_tmp (fun st self => assignAdd_number st self (to_value c)));
        auto with vals.
    + apply (vals_prim1 (fun st self => assignMul_number st self (to_value c)));
        auto with vals.
    + apply (vals_prim1_tmp (fun st self => assignMul_number st self (to_value c)));
        auto with vals.
  - split; simpl.
    + apply (vals_prim2 assign_dual); auto with vals.
    + apply (vals_prim2_tmp assign_dual); auto with vals.
    + apply (vals_prim2 assignAdd_dual); auto with vals.
    + apply (vals_prim2_tmp assignAdd_dual); auto with vals.
    + apply (vals_prim2 assignMul_dual); auto with vals.
    + apply (vals_prim2_tmp assignMul_dual); auto with vals.
  - destruct IH as [A At Ad Adt Am Amt].
    pose proof (vals_then1 (apply op) _ (vals1_apply op) A) as Ha.
    pose proof (vals_then1_tmp (apply op) _ (vals1_apply op) At) as Hat.
    destruct op; split; simpl; try assumption; auto with vals.
    + exact (vals_then1 negate _ vals1_negate Am).
    + exact (vals_then1_tmp negate _ vals1_negate Amt).
  - destruct IHl as [Al Atl Adl Adtl Aml Amtl], IHr as [Ar Atr Adr Adtr Amr Amtr].
    pose proof (vals_seq _ _ Ar Adl) as Ha.
    split; simpl; try assumption; auto with vals.
    + exact (vals_seq_tmp _ _ Atr Adtl).
    + exact (vals_seq _ _ Adl Adr).
    + exact (vals_seq_tmp _ _ Adtl Adtr).
  - destruct IHl as [Al Atl Adl Adtl Aml Amtl], IHr as [Ar Atr Adr Adtr Amr Amtr].
    pose proof (vals_seq _ _ Ar Aml) as Ha.
    split; simpl; try assumption; auto with vals.
    + exact (vals_seq_tmp _ _ Atr Amtl).
    + exact (vals_seq _ _ Aml Amr).
    + exact (vals_seq_tmp _ _ Amtl Amtr).
  - destruct IHl as [Al Atl Adl Adtl Aml Amtl], IHr as [Ar Atr Adr Adtr Amr Amtr].
    assert (Ha : vals_red (fun sp st self =>
               assignPow_with (r_assign (rules r)) r sp
                 (r_assign (rules l) sp st self) self)).
    { intros sp st1 st2 self H.
      apply (vals_assignPow_with _ r Ar). now apply Al. }
    split; simpl; try assumption; auto with vals.
    intros sp st1 st2 self tmp H.
    apply (vals_assignPow_tmp_with _ r Ar). now apply Atl.
  - assert (Ha : vals_red
              (fun _ st self => scale (assign_dual st self o) self (to_value c))).
    { intros sp st1 st2 self H. apply (vals1_scale (to_value c)).
      apply vals2_assign_dual; auto using same_val_operand_refl. }
    split; simpl; try assumption.
    + intros sp st1 st2 self tmp H. exact (Ha sp st1 st2 self H).
    + apply (vals_prim2
               (fun st self o => assignAdd_numberdualmul st self (to_value c) o));
        auto with vals.
    + apply (vals_prim2_tmp
               (fun st self o => assignAdd_numberdualmul st self (to_value c) o));
        auto with vals.
    + apply (vals_prim2
               (fun st self o => assignMul_numberdualmul st self (to_value c) o));
        auto with vals.
    + apply (vals_prim2_tmp
               (fun st self o => assignMul_numberdualmul st self (to_value c) o));
        auto with vals.
Qed.

(** The copies made in the two runs hold the same [val]. *)
Lemma vals_assignAdd_copy (r : Expr T) sp st1 st2 self :
  same_vals st1 st2 ->
  same_vals (assignAdd sp st1 self (copy st1 r))
            (assignAdd sp st2 self (copy st2 r)).
Proof.
  intros H.
  destruct r as [c|o| | | | |];
    try exact (vr_assignAdd _ (rules_vals _) sp st1 st2 self H).
  apply vals2_assignAdd_dual; [exact H|].
  simpl. apply same_vals_rd; auto using same_val_operand_refl.
Qed.

Lemma vals_assignMul_copy (r : Expr T) sp st1 st2 self :
  same_vals st1 st2 ->
  same_vals (assignMul sp st1 self (copy st1 r))
            (assignMul sp st2 self (copy st2 r)).
Proof.
  intros H.
  destruct r as [c|o| | | | |];
    try exact (vr_assignMul _ (rules_vals _) sp st1 st2 self H).
  apply vals2_assignMul_dual; [exact H|].
  simpl. apply same_vals_rd; auto using same_val_operand_refl.
Qed.

Lemma vals_assignSub (e : Expr T) sp st1 st2 self s1 s2 :
  same_vals st1 st2 ->
  assignSub sp st1 self e = Some s1 -> assignSub sp st2 self e = Some s2 ->
  same_vals s1 s2.
Proof.
  intros H E1 E2. apply assignSub_Some in E1, E2.
  destruct e as [c|o|[] r| | | |]; try contradiction; subst s1 s2.
  - now apply vals1_assignSub_number.
  - apply vals2_assignSub_dual; auto using same_val_operand_refl.
  - now apply vals_assignAdd_copy.
Qed.

Lemma vals_assignDiv (e : Expr T) :
  vals_red (fun sp st self => assignDiv sp st self e).
Proof.
  intros sp st1 st2 self H.
  destruct e as [c|o|op r| | | |];
    try exact (vr_assignMul _ (rules_vals (Unary InvOp _)) sp st1 st2 self H).
  - now apply vals1_assignDiv_number.
  - apply vals2_assignDiv_dual; auto using same_val_operand_refl.
  - destruct op;
      try exact (vr_assignMul _ (rules_vals (Unary InvOp _)) sp st1 st2 self H).
    now apply vals_assignMul_copy.
Qed.

Lemma vals_eval (e : Expr T) sp st1 st2 :
  same_vals st1 st2 -> val (fst (eval sp st1 e)) = val (fst (eval sp st2 e)).
Proof.
  intros H. unfold eval.
  apply (vals_eval_with (fun sp st self => assign sp st self e) e); auto.
  exact (vr_assign _ (rules_vals e)).
Qed.

End Values.

(* ================================================================== *)
(** ** Values and comparison operators *)

(** The built-in comparisons of the arithmetic type: [==], [<] and [<=].
    The header uses [!=], [>=] and [>] as well; on an arithmetic type these
    are the negation of [==] and the two others with the operands swapped. *)
Class Comparable (T : Type) : Type := {
  cmp_eq : T -> T -> bool;
  cmp_lt : T -> T -> bool;
  cmp_le : T -> T -> bool
}.

#[global] Instance RComparable : Comparable R := {|
  cmp_eq := fun x y => if Req_dec_T x y then true else false;
  cmp_lt := fun x y => if Rlt_dec x y then true else false;
  cmp_le := fun x y => if Rle_dec x y then true else false
|}.

#[global] Instance FComparable : Comparable float := {|
  cmp_eq := PrimFloat.eqb;
  cmp_lt := PrimFloat.ltb;
  cmp_le := PrimFloat.leb
|}.

Section Comparisons.

Context {T : Type} {NT : Number T} {ST : Scalars T} {CT : Comparable T}.

(** [val(scalar)] returns the scalar, [val(dual)] is [val(dual.val)] and
    [val(expr)] is [val(eval(expr))].  A scalar is compared with the value
    of a dual in the type [T]. *)
Definition val_of (sp : nat) (st : store T) (e : Expr T) : T :=
  match e with
  | Num c => to_value c
  | Leaf o => val (rd st o)
  | _ => val (fst (eval sp st e))
  end.

(** [operator==], [!=], [<=], [>=], [<], [>]: each compares [val(l)] with
    [val(r)]. *)
Definition op_eq (sp : nat) (st : store T) (l r : Expr T) : bool :=
  cmp_eq (val_of sp st l) (val_of sp st r).

Definition op_ne (sp : nat) (st : store T) (l r : Expr T) : bool :=
  negb (cmp_eq (val_of sp st l) (val_of sp st r)).

Definition op_le (sp : nat) (st : store T) (l r : Expr T) : bool :=
  cmp_le (val_of sp st l) (val_of sp st r).

Definition op_ge (sp : nat) (st : store T) (l r : Expr T) : bool :=
  cmp_le (val_of sp st r) (val_of sp st l).

Definition op_lt (sp : nat) (st : store T) (l r : Expr T) : bool :=
  cmp_lt (val_of sp st l) (val_of sp st r).

Definition op_gt (sp : nat) (st : store T) (l r : Expr T) : bool :=
  cmp_lt (val_of sp st r) (val_of sp st l).

Lemma val_of_eval sp st e :
  val_of sp st e = match e with
                   | Num c => to_value c
                   | _ => val (fst (eval sp st e))
                   end.
Proof. destruct e; reflexivity. Qed.

Lemma vals_val_of e sp st1 st2 :
  same_vals st1 st2 -> val_of sp st1 e = val_of sp st2 e.
Proof.
  intros H. rewrite !val_of_eval.
  destruct e; try reflexivity; now apply vals_eval.
Qed.

End Comparisons.

(* ================================================================== *)
(** ** Further properties over the real numbers *)

Module RealFacts.

Import Real.

Local Open Scope R_scope.

(* ------------------------------------------------------------------ *)
(** *** The generators [negative] and [inverse] *)

Lemma d_neg_neg (d : Dual R) : d_unary NegOp (d_unary NegOp d) = d.
Proof. destruct d. apply dual_ext; simpl; ring. Qed.

Lemma Defined_copy (st s : store R) (e : Expr R) :
  Defined st e -> Defined st (copy s e).
Proof. destruct e; simpl; tauto. Qed.

Lemma reference_negative (st : store R) (e e' : Expr R) :
  negative st e = Some e' ->
  reference st e' = d_unary NegOp (reference st e).
Proof.
  destruct e as [c|o|[] r| | | |]; simpl; try discriminate.
  intros E. inversion E.
  rewrite reference_copy by reflexivity. symmetry. apply d_neg_neg.
Qed.

Lemma Defined_negative (st : store R) (e e' : Expr R) :
  negative st e = Some e' -> Defined st e -> Defined st e'.
Proof.
  destruct e as [c|o|[] r| | | |]; simpl; try discriminate.
  intros E [D _]. inversion E. now apply Defined_copy.
Qed.

Lemma Defined_inverse (st : store R) (e : Expr R) :
  Defined st e -> val (reference st e) <> 0 -> Defined st (inverse st e).
Proof.
  destruct e as [c|o|[] r| | | |]; simpl; try tauto.
  intros [D _] _. now apply Defined_copy.
Qed.

(* ------------------------------------------------------------------ *)
(** *** Compound assignment *)

Lemma assignSub_number_R (st : store R) self c :
  assignSub_number st self c self
  = d_add (st self) (d_unary NegOp (d_const c)).
Proof. at_self; ring. Qed.

Lemma assignSub_dual_R (st : store R) self o :
  o <> ByRef self ->
  assignSub_dual st self o self = d_add (st self) (d_unary NegOp (rd st o)).
Proof. intros N. at_self; ring. Qed.

Lemma assignDiv_number_R (st : store R) self c :
  c <> 0 ->
  assignDiv_number st self c self
  = d_mul (st self) (d_unary InvOp (d_const c)).
Proof. intros D. at_self; field; assumption. Qed.

Lemma assignDiv_dual_R (st : store R) self o :
  o <> ByRef self -> val (rd st o) <> 0 ->
  assignDiv_dual st self o self = d_mul (st self) (d_unary InvOp (rd st o)).
Proof. intros N D. at_self; field; assumption. Qed.

Lemma notin_incl (self : loc) (l l' : list loc) :
  incl l l' -> ~ In self l' -> ~ In self l.
Proof. intros I N H. apply N, I, H. Qed.

Lemma wf_incl sp (e e' : Expr R) :
  incl (refs e') (refs e) -> wf sp e -> wf sp e'.
Proof. unfold wf. apply Forall_incl. Qed.

Lemma assignSub_sound (e : Expr R) sp (st s' : store R) self :
  wf sp e -> below sp self -> ~ In self (refs e) -> Defined st e ->
  assignSub sp st self e = Some s' ->
  s' self = d_add (st self) (d_unary NegOp (reference st e)).
Proof.
  intros W B N D E. apply assignSub_Some in E.
  destruct e as [c|o|[] r| | | |]; try contradiction; subst s'.
  - apply assignSub_number_R.
  - apply assignSub_dual_R. now apply operand_neq.
  - pose proof (refs_copy st r) as I. destruct D as [D _].
    rewrite (proj1 (proj2 (engine_sound (copy st r))));
      eauto using wf_incl, notin_incl, Defined_copy.
    rewrite reference_copy by reflexivity.
    cbn [reference]. now rewrite d_neg_neg.
Qed.

Lemma assignDiv_sound (e : Expr R) sp (st : store R) self :
  wf sp e -> below sp self -> ~ In self (refs e) -> Defined st e ->
  val (reference st e) <> 0 ->
  assignDiv sp st self e self
  = d_mul (st self) (d_unary InvOp (reference st e)).
Proof.
  intros W B N D Z.
  assert (G : assignMul sp st self (inverse st e) self
              = d_mul (st self) (d_unary InvOp (reference st e))).
  { rewrite <- reference_inverse by assumption.
    pose proof (refs_inverse st e) as I.
    apply (proj2 (proj2 (engine_sound (inverse st e))));
      eauto using wf_incl, notin_incl, Defined_inverse. }
  destruct e as [c|o| | | | |]; try exact G.
  apply assignDiv_dual_R; [now apply operand_neq | exact Z].
Qed.

(* ------------------------------------------------------------------ *)
(** *** The trees built by the operators

    The tree is built and read in the same store [st], as in
    [y = a * b]: the copies the operators make hold what the duals hold
    when the tree is reduced. *)

Lemma op_neg_sound (st : store R) (e : Expr R) :
  reference st (op_neg st e) = d_unary NegOp (reference st e).
Proof.
  destruct e as [c|o|[] r| | | |]; try reflexivity.
  - apply dual_ext; simpl; ring.
  - cbn [op_neg]. rewrite reference_copy by reflexivity.
    simpl. symmetry. apply d_neg_neg.
  - apply dual_ext; simpl; ring.
Qed.

Lemma Defined_op_neg (st : store R) (e : Expr R) :
  Defined st e -> Defined st (op_neg st e).
Proof.
  destruct e as [c|o|[] r| | | |]; simpl; try tauto.
  intros [D _]. now apply Defined_copy.
Qed.

Lemma d_add_const a b : d_const (a + b) = d_add (d_const a) (d_const b).
Proof. apply dual_ext; simpl; ring. Qed.

Lemma d_add_neg_neg a b :
  d_unary NegOp (d_add a b) = d_add (d_unary NegOp a) (d_unary NegOp b).
Proof. apply dual_ext; simpl; ring. Qed.

Lemma op_add_sound (st : store R) (r : Expr R) :
  forall l : Expr R,
    reference st (op_add st l r) = d_add (reference st l) (reference st r).
Proof.
  induction r as [c|o|op r IH|rl _ rr _|rl _ rr _|rl _ rr _|c o]; intros l.
  - destruct l as [| |[]| | | |]; try reflexivity; try apply d_add_comm.
    apply d_add_const.
  - destruct l as [| |[]| | | |]; reflexivity.
  - destruct l as [a|o|[] l'|l1 l2|l1 l2|l1 l2|a o]; destruct op;
      try reflexivity.
    cbn [op_add]. rewrite op_neg_sound, IH. apply d_add_neg_neg.
  - destruct l as [| |[]| | | |]; reflexivity.
  - destruct l as [| |[]| | | |]; reflexivity.
  - destruct l as [| |[]| | | |]; reflexivity.
  - destruct l as [| |[]| | | |]; reflexivity.
Qed.

Lemma Defined_op_add (st : store R) (r : Expr R) :
  forall l : Expr R,
    Defined st l -> Defined st r -> Defined st (op_add st l r).
Proof.
  induction r as [c|o|op r IH|rl _ rr _|rl _ rr _|rl _ rr _|c o];
    intros l Dl Dr.
  - destruct l as [| |[]| | | |]; simpl in *; tauto.
  - destruct l as [| |[]| | | |]; simpl in *; tauto.
  - destruct l as [a|o|[] l'|l1 l2|l1 l2|l1 l2|a o]; destruct op;
      try (simpl in *; tauto).
    cbn [op_add]. apply Defined_op_neg. apply IH; simpl in *; tauto.
  - destruct l as [| |[]| | | |]; simpl in *; tauto.
  - destruct l as [| |[]| | | |]; simpl in *; tauto.
  - destruct l as [| |[]| | | |]; simpl in *; tauto.
  - destruct l as [| |[]| | | |]; simpl in *; tauto.
Qed.

Lemma op_sub_sound (st : store R) (l r : Expr R) :
  reference st (op_sub st l r)
  = d_add (reference st l) (d_unary NegOp (reference st r)).
Proof.
  assert (G : reference st (op_add st l (op_neg st r))
              = d_add (reference st l) (d_unary NegOp (reference st r)))
    by now rewrite op_add_sound, op_neg_sound.
  destruct l as [a| | | | | |]; try exact G.
  destruct r as [b| | | | | |]; exact G.
Qed.

Lemma Defined_op_sub (st : store R) (l r : Expr R) :
  Defined st l -> Defined st r -> Defined st (op_sub st l r).
Proof.
  intros Dl Dr.
  assert (G : Defined st (op_add st l (op_neg st r)))
    by auto using Defined_op_add, Defined_op_neg.
  destruct l as [a| | | | | |]; try exact G.
  destruct r as [b| | | | | |]; try exact G; exact I.
Qed.

Lemma Defined_op_mul (st : store R) (r : Expr R) :
  forall l : Expr R,
    Defined st l -> Defined st r -> Defined st (op_mul st l r).
Proof.
  induction r as [c|o|op r IH|rl _ rr _|rl _ rr _|rl _ rr _|c o];
    intros l Dl Dr.
  - destruct l as [| |[]| | | |]; simpl in *; tauto.
  - destruct l as [| |[]| | | |]; simpl in *; tauto.
  - destruct l as [a|o|[] l'|l1 l2|l1 l2|l1 l2|a o]; destruct op;
      try (simpl in *; tauto).
    + cbn [op_mul]. apply IH; simpl in *; tauto.
    + cbn [op_mul]. apply IH; simpl in *; tauto.
    + cbn [op_mul]. destruct Dl as [Dl Zl], Dr as [Dr Zr].
      simpl in Zl, Zr. apply Defined_inverse; [now apply IH|].
      rewrite op_mul_sound by assumption. simpl.
      now apply Rmult_integral_contrapositive.
  - destruct l as [| |[]| | | |]; simpl in *; tauto.
  - destruct l as [| |[]| | | |]; simpl in *; tauto.
  - destruct l as [| |[]| | | |]; simpl in *; tauto.
  - destruct l as [| |[]| | | |]; simpl in *; tauto.
Qed.

Lemma op_div_sound (st : store R) (l r : Expr R) :
  Defined st l -> Defined st r -> val (reference st r) <> 0 ->
  reference st (op_div st l r)
  = d_mul (reference st l) (d_unary InvOp (reference st r)).
Proof.
  intros Dl Dr Z.
  assert (G : reference st (op_mul st l (inverse st r))
              = d_mul (reference st l) (d_unary InvOp (reference st r))).
  { rewrite op_mul_sound by auto using Defined_inverse.
    now rewrite reference_inverse. }
  destruct l as [a| | | | | |]; try exact G.
  destruct r as [b| | | | | |]; try exact G.
  simpl in Z. apply dual_ext; simpl; field; assumption.
Qed.

Lemma Defined_op_div (st : store R) (l r : Expr R) :
  Defined st l -> Defined st r -> val (reference st r) <> 0 ->
  Defined st (op_div st l r).
Proof.
  intros Dl Dr Z.
  assert (G : Defined st (op_mul st l (inverse st r)))
    by auto using Defined_op_mul, Defined_inverse.
  destruct l as [a| | | | | |]; try exact G.
  destruct r as [b| | | | | |]; try exact G; exact I.
Qed.

End RealFacts.

(* ================================================================== *)
(** ** Scalars of another type than the value type *)

Module Mixed.

(** Scalar operands of type [unsigned] (32 bits) or [double], for duals
    over [double], read as the reals.  The built-in operators on two
    [unsigned] operands wrap modulo [2^32]; an operator with a [double]
    operand converts the other operand to [double] first.  Division of an
    [unsigned] by zero, which the language leaves undefined, answers [0]
    here. *)
Inductive number : Type :=
| UInt (n : Z)
| Double (x : R).

Definition wrap (n : Z) : Z := (n mod 2 ^ 32)%Z.

Definition to_double (c : number) : R :=
  match c with
  | UInt n => IZR n
  | Double x => x
  end.

Definition unary (fz : Z -> Z) (fr : R -> R) (c : number) : number :=
  match c with
  | UInt n => UInt (wrap (fz n))
  | Double x => Double (fr x)
  end.

Definition binary (fz : Z -> Z -> Z) (fr : R -> R -> R) (a b : number)
  : number :=
  match a, b with
  | UInt m, UInt n => UInt (wrap (fz m n))
  | _, _ => Double (fr (to_double a) (to_double b))
  end.

Definition MScalars : Scalars R := {|
  scalar := number;
  to_value := to_double;
  of_value := Double;
  s_opp := unary Z.opp Ropp;
  s_add := binary Z.add Rplus;
  s_sub := binary Z.sub Rminus;
  s_mul := binary Z.mul Rmult;
  s_div := binary Z.quot Rdiv
|}.

(** An expression with such scalars. *)
Definition MExpr : Type := @Expr R MScalars.

(** [-(3u * x)]: the rewrite rule negates the scalar as an [unsigned]. *)
Definition neg_3u_times (st : store R) (x : loc) : MExpr :=
  op_neg st (op_mul st (Num (UInt 3)) (Leaf (ByRef x))).

(** [4000000000u * (2u * x)]: the rewrite rule multiplies the scalars as
    [unsigned]. *)
Definition big_times_2u_times (st : store R) (x : loc) : MExpr :=
  op_mul st (Num (UInt 4000000000)) (op_mul st (Num (UInt 2)) (Leaf (ByRef x))).

Lemma neg_3u_times_tree (st : store R) (x : loc) :
  neg_3u_times st x = NumberDualMulExpr (UInt 4294967293) (ByRef x).
Proof. reflexivity. Qed.

Lemma big_times_2u_times_tree (st : store R) (x : loc) :
  big_times_2u_times st x = NumberDualMulExpr (UInt 3705032704) (ByRef x).
Proof. reflexivity. Qed.

(** The dual a product of a scalar and a dual reduces to. *)
Lemma eval_NumberDualMulExpr (c : number) (sp : nat) (st : store R) (x : loc) :
  fst (eval sp st (NumberDualMulExpr c (ByRef x) : MExpr))
  = mkDual (val (st x) * to_double c)%R (grad (st x) * to_double c)%R.
Proof.
  change (scale (assign_dual st (Tmp sp) (ByRef x)) (Tmp sp) (to_double c)
            (Tmp sp)
          = mkDual (val (st x) * to_double c)%R (grad (st x) * to_double c)%R).
  prim_unfold.
  destruct (loc_eqb_spec (Tmp sp) x) as [<-|N];
    repeat (rewrite ?upd_same, ?upd_other by assumption; cbn [val grad rd]);
    reflexivity.
Qed.

End Mixed.

(* ================================================================== *)
(** ** The gradient as a derivative *)

Module Calculus.

Import Real.

Local Open Scope R_scope.

(** *** The real function an expression denotes

    [fn], [value] and [value_with] are not functions of the header: they
    give the mathematical reading of an expression tree, the real number
    it stands for, and are what the gradient computed by the engine is
    compared with. *)

Definition fn (op : UnOp) (u : R) : R :=
  match op with
  | NegOp => - u
  | InvOp => / u
  | SinOp => sin u
  | CosOp => cos u
  | TanOp => tan u
  | ArcSinOp => asin u
  | ArcCosOp => acos u
  | ArcTanOp => atan u
  | ExpOp => exp u
  | LogOp => ln u
  | Log10Op => ln u / ln 10
  | SqrtOp => R_sqrt.sqrt u
  | AbsOp => Rabs u
  end.

(** [value st e]: the number [e] denotes when every dual stands for its
    [val] member; no gradient is read. *)
Fixpoint value (st : store R) (e : Expr R) : R :=
  match e with
  | Num c => c
  | Leaf o => val (rd st o)
  | Unary op r => fn op (value st r)
  | AddExpr l r => value st l + value st r
  | MulExpr l r => value st l * value st r
  | PowExpr l r => Rpow (value st l) (value st r)
  | NumberDualMulExpr c o => c * val (rd st o)
  end.

(** The same, for an arbitrary valuation [lv] of the dual operands. *)
Fixpoint value_with (lv : Operand R -> R) (e : Expr R) : R :=
  match e with
  | Num c => c
  | Leaf o => lv o
  | Unary op r => fn op (value_with lv r)
  | AddExpr l r => value_with lv l + value_with lv r
  | MulExpr l r => value_with lv l * value_with lv r
  | PowExpr l r => Rpow (value_with lv l) (value_with lv r)
  | NumberDualMulExpr c o => c * lv o
  end.

(** The dual operands of a tree. *)
Fixpoint operands (e : Expr R) : list (Operand R) :=
  match e with
  | Num _ => []
  | Leaf o => [o]
  | Unary _ r => operands r
  | AddExpr l r | MulExpr l r | PowExpr l r => operands l ++ operands r
  | NumberDualMulExpr _ o => [o]
  end.

(** Every operand other than the variable [x] is a constant: its gradient
    is zero. *)
Definition constant_besides (x : loc) (st : store R) (e : Expr R) : Prop :=
  forall o, In o (operands e) -> o <> ByRef x -> grad (rd st o) = 0.

Lemma val_d_unary op d : val (d_unary op d) = fn op (val d).
Proof. destruct op; reflexivity. Qed.

Lemma val_reference (st : store R) (e : Expr R) :
  val (reference st e) = value st e.
Proof.
  induction e as [c|o|op r IH|l IHl r IHr|l IHl r IHr|l IHl r IHr|c o];
    try reflexivity.
  - simpl. now rewrite val_d_unary, IH.
  - simpl. now rewrite IHl, IHr.
  - simpl. now rewrite IHl, IHr.
  - destruct r; simpl in *; now rewrite IHl, ?IHr.
Qed.

Lemma value_value_with (st : store R) (e : Expr R) :
  value st e = value_with (fun o => val (rd st o)) e.
Proof. induction e; simpl; congruence. Qed.

Lemma value_same_vals (st1 st2 : store R) (e : Expr R) :
  same_vals st1 st2 -> value st1 e = value st2 e.
Proof.
  intros H.
  induction e as [c|o|op r IH|l IHl r IHr|l IHl r IHr|l IHl r IHr|c o];
    simpl; try congruence.
  - apply same_vals_rd; auto using same_val_operand_refl.
  - f_equal. apply same_vals_rd; auto using same_val_operand_refl.
Qed.

Lemma Defined_same_vals (st1 st2 : store R) (e : Expr R) :
  same_vals st1 st2 -> Defined st1 e -> Defined st2 e.
Proof.
  intros H.
  induction e as [c|o|op r IH|l IHl r IHr|l IHl r IHr|l IHl r IHr|c o];
    try (simpl; tauto).
  - simpl. rewrite !val_reference, (value_same_vals st1 st2 r H). tauto.
  - rewrite !Defined_PowExpr, !val_reference, (value_same_vals st1 st2 l H).
    destruct r; tauto.
Qed.

(** *** Derivatives of the elementary functions *)

Lemma derivable_pt_lim_eq f x l l' :
  derivable_pt_lim f x l -> l = l' -> derivable_pt_lim f x l'.
Proof. intros H <-. exact H. Qed.

Lemma derivable_pt_lim_Rinv u :
  u <> 0 -> derivable_pt_lim Rinv u (- 1 / (u * u)).
Proof.
  intros Hu.
  apply (derivable_pt_lim_ext (fct_cte 1 / id)%F).
  { intros z. unfold div_fct, fct_cte, id. unfold Rdiv. ring. }
  eapply derivable_pt_lim_eq.
  - apply derivable_pt_lim_div;
      [apply derivable_pt_lim_const | apply derivable_pt_lim_id | exact Hu].
  - unfold fct_cte, id, Rsqr. field. exact Hu.
Qed.

Lemma derivable_pt_lim_tan u :
  cos u <> 0 -> derivable_pt_lim tan u (1 / (cos u * cos u)).
Proof.
  intros Hc.
  apply (derivable_pt_lim_eq (sin / cos)%F u
           ((cos u * cos u - - sin u * sin u) / Rsqr (cos u))).
  - apply derivable_pt_lim_div;
      [apply derivable_pt_lim_sin | apply derivable_pt_lim_cos | exact Hc].
  - pose proof (sin2_cos2 u) as E. unfold Rsqr in *.
    replace (cos u * cos u - - sin u * sin u) with 1 by lra.
    reflexivity.
Qed.

Lemma fn_derivable op u :
  in_domain op u ->
  derivable_pt_lim (fn op) u (grad (d_unary op (mkDual u 1))).
Proof.
  intros D. destruct op; cbn [fn d_unary grad val]; simpl in D.
  - apply (derivable_pt_lim_ext (- id)%F); [reflexivity|].
    apply derivable_pt_lim_opp, derivable_pt_lim_id.
  - now apply derivable_pt_lim_Rinv.
  - eapply derivable_pt_lim_eq; [apply derivable_pt_lim_sin | ring].
  - eapply derivable_pt_lim_eq; [apply derivable_pt_lim_cos | ring].
  - now apply derivable_pt_lim_tan.
  - apply (derive_pt_eq_1 asin u _ (derivable_pt_asin u D)).
    apply derive_pt_asin.
  - apply (derive_pt_eq_1 acos u _ (derivable_pt_acos u D)).
    rewrite derive_pt_acos. reflexivity.
  - eapply derivable_pt_lim_eq; [apply derivable_pt_lim_atan|].
    unfold Rdiv. rewrite Rmult_1_l. f_equal. ring.
  - eapply derivable_pt_lim_eq; [apply derivable_pt_lim_exp | ring].
  - eapply derivable_pt_lim_eq; [now apply derivable_pt_lim_ln|].
    unfold Rdiv. ring.
  - apply (derivable_pt_lim_eq (ln * fct_cte (/ ln 10))%F u
             (/ u * fct_cte (/ ln 10) u + ln u * 0)).
    + apply derivable_pt_lim_mult;
        [now apply derivable_pt_lim_ln | apply derivable_pt_lim_const].
    + unfold fct_cte, Rdiv. rewrite Rinv_mult. ring.
  - eapply derivable_pt_lim_eq; [now apply derivable_pt_lim_sqrt|].
    unfold Rdiv. ring.
  - destruct (Rlt_dec u 0) as [L|L].
    + eapply derivable_pt_lim_eq; [now apply Rabs_derive_2 | ring].
    + apply Rabs_derive_1. lra.
Qed.

Lemma d_unary_chain op u u' :
  grad (d_unary op (mkDual u u')) = grad (d_unary op (mkDual u 1)) * u'.
Proof.
  destruct op; cbn [d_unary grad val]; unfold Rdiv; try ring.
  destruct (Rlt_dec u 0); ring.
Qed.

(** *** Derivative of the power *)

Lemma Rpow_Rpower u y : 0 < u -> Rpow u y = Rpower u y.
Proof.
  intros Hu. unfold Rpow.
  destruct (Req_dec_T y (IZR (Int_part y))) as [E|_]; [|reflexivity].
  rewrite powerRZ_Rpower by assumption. now rewrite <- E.
Qed.

Lemma powerRZ_derivable (u : R) (n : Z) :
  u <> 0 ->
  derivable_pt_lim (fun x => powerRZ x n) u (IZR n * powerRZ u (n - 1)).
Proof.
  intros Hu. destruct n as [|p|p].
  - eapply derivable_pt_lim_eq; [apply (derivable_pt_lim_const 1)|].
    simpl. ring.
  - eapply derivable_pt_lim_eq;
      [apply (derivable_pt_lim_pow u (Pos.to_nat p))|].
    destruct (Pos2Nat.is_succ p) as [k Ek].
    replace (Z.pos p - 1)%Z with (Z.of_nat k) by lia.
    rewrite <- pow_powerRZ, Ek. cbn [Init.Nat.pred].
    f_equal. rewrite INR_IZR_INZ. f_equal. lia.
  - apply (derivable_pt_lim_eq
             (comp Rinv (fun x => x ^ Pos.to_nat p)) u
             (- 1 / (u ^ Pos.to_nat p * u ^ Pos.to_nat p)
              * (INR (Pos.to_nat p) * u ^ Init.Nat.pred (Pos.to_nat p)))).
    + apply derivable_pt_lim_comp; [apply derivable_pt_lim_pow|].
      apply derivable_pt_lim_Rinv. now apply pow_nonzero.
    + destruct (Pos2Nat.is_succ p) as [k Ek].
      replace (Z.neg p - 1)%Z with (Z.neg (Pos.succ p)) by lia.
      cbn [powerRZ]. rewrite Pos2Nat.inj_succ, Ek. cbn [Init.Nat.pred].
      replace (IZR (Z.neg p)) with (- INR (S k)).
      * simpl pow. pose proof (pow_nonzero u k Hu). field. auto.
      * rewrite INR_IZR_INZ, <- opp_IZR. f_equal. lia.
Qed.

Lemma Rpow_derivable (u p : R) :
  pow_defined u p ->
  derivable_pt_lim (fun x => Rpow x p) u (p * Rpow u (p - 1)).
Proof.
  intros D.
  destruct (Req_dec_T p (IZR (Int_part p))) as [E|N].
  - assert (Hu : u <> 0) by (destruct D as [D|[D _]]; lra).
    apply (derivable_pt_lim_ext (fun x => powerRZ x (Int_part p))).
    { intros z. rewrite E at 2. now rewrite Rpow_IZR. }
    eapply derivable_pt_lim_eq; [now apply powerRZ_derivable|].
    rewrite E at 3 4. now rewrite <- minus_IZR, Rpow_IZR.
  - assert (Hn : forall n : Z, p <> IZR n).
    { intros n En. apply N. now rewrite En, Int_part_IZR. }
    assert (Hu : 0 < u).
    { destruct D as [D|[_ [n En]]]; [assumption|]. now destruct (Hn n). }
    apply (derivable_pt_lim_ext (fun x => Rpower x p)).
    { intros z. symmetry. now apply Rpow_not_int. }
    eapply derivable_pt_lim_eq; [now apply derivable_pt_lim_power|].
    rewrite Rpow_not_int; [reflexivity|].
    intros n En. apply (Hn (n + 1)%Z). rewrite plus_IZR. lra.
Qed.

(** A function with a derivative at a point where it is positive is
    positive around that point. *)
Lemma positive_nearby f t0 l :
  derivable_pt_lim f t0 l -> 0 < f t0 ->
  exists delta, 0 < delta /\
    forall t, t0 - delta < t < t0 + delta -> 0 < f t.
Proof.
  intros H P.
  pose proof (derivable_continuous_pt f t0 (exist _ l H)) as C.
  destruct (C (f t0) P) as (alp & Ha & Hc).
  exists alp. split; [exact Ha|].
  intros t Ht.
  destruct (Req_dec_T t0 t) as [<-|Ne]; [exact P|].
  assert (Hd : Rabs (f t - f t0) < f t0).
  { apply (Hc t). split.
    - split; [exact I | exact Ne].
    - simpl. unfold R_dist. apply Rabs_def1; lra. }
  apply Rabs_def2 in Hd. lra.
Qed.

Lemma Rpow_derivable_both (U V : R -> R) t0 u' v' :
  derivable_pt_lim U t0 u' -> derivable_pt_lim V t0 v' -> 0 < U t0 ->
  derivable_pt_lim (fun t => Rpow (U t) (V t)) t0
    (Rpow (U t0) (V t0) * (v' * ln (U t0) + V t0 * u' / U t0)).
Proof.
  intros HU HV P.
  destruct (positive_nearby U t0 u' HU P) as (delta & Hd & Hpos).
  apply (derivable_pt_lim_locally_ext
           (comp exp (V * comp ln U)%F) _ t0 (t0 - delta) (t0 + delta)).
  - lra.
  - intros z Hz. rewrite Rpow_Rpower by auto. reflexivity.
  - eapply derivable_pt_lim_eq.
    + apply derivable_pt_lim_comp; [|apply derivable_pt_lim_exp].
      apply derivable_pt_lim_mult; [exact HV|].
      apply derivable_pt_lim_comp; [exact HU|].
      now apply derivable_pt_lim_ln.
    + rewrite Rpow_Rpower by assumption.
      unfold Rpower, mult_fct, comp, Rdiv. ring.
Qed.

End Calculus.

Module Derivative.

Import Real Calculus.

Local Open Scope R_scope.

Section Along.

(** The operands move with a parameter [t]: [lv t o] is the value of the
    operand [o] at [t].  At [t0] they have the values held in the store
    [s], and there each moves with the speed given by its gradient. *)
Variable s : store R.
Variable lv : R -> Operand R -> R.
Variable t0 : R.
Hypothesis here : forall o, lv t0 o = val (rd s o).

Definition follows (e : Expr R) : Prop :=
  forall o, In o (operands e) ->
    derivable_pt_lim (fun t => lv t o) t0 (grad (rd s o)).

Lemma value_with_here e : value_with (lv t0) e = value s e.
Proof.
  induction e; simpl; rewrite ?here; congruence.
Qed.

Lemma follows_app_l l r :
  (forall o, In o (operands l ++ operands r) ->
     derivable_pt_lim (fun t => lv t o) t0 (grad (rd s o))) ->
  follows l.
Proof. intros H o I. apply H. apply in_or_app. now left. Qed.

Lemma follows_app_r l r :
  (forall o, In o (operands l ++ operands r) ->
     derivable_pt_lim (fun t => lv t o) t0 (grad (rd s o))) ->
  follows r.
Proof. intros H o I. apply H. apply in_or_app. now right. Qed.

(** The gradient computed by the reference evaluator is the derivative of
    the value along the movement of the operands. *)
Lemma reference_derivative_along e :
  Defined s e -> follows e ->
  derivable_pt_lim (fun t => value_with (lv t) e) t0 (grad (reference s e)).
Proof.
  induction e as [c|o|op r IH|l IHl r IHr|l IHl r IHr|l IHl r IHr|c o];
    intros D C.
  - apply (derivable_pt_lim_const c).
  - apply C. now left.
  - destruct D as [D1 D2]. rewrite val_reference in D2.
    specialize (IH D1 C).
    apply (derivable_pt_lim_eq
             (comp (fn op) (fun t => value_with (lv t) r)) t0
             (grad (d_unary op (mkDual (value s r) 1))
              * grad (reference s r))).
    + apply derivable_pt_lim_comp; [exact IH|].
      rewrite value_with_here. now apply fn_derivable.
    + simpl reference. rewrite <- d_unary_chain, <- val_reference.
      now rewrite Dual_eta.
  - destruct D as [D1 D2].
    apply (derivable_pt_lim_plus _ _ _ _ _
             (IHl D1 (follows_app_l l r C))
             (IHr D2 (follows_app_r l r C))).
  - destruct D as [D1 D2].
    eapply derivable_pt_lim_eq.
    + apply (derivable_pt_lim_mult _ _ _ _ _
               (IHl D1 (follows_app_l l r C))
               (IHr D2 (follows_app_r l r C))).
    + rewrite !value_with_here, <- !val_reference. reflexivity.
  - apply Defined_PowExpr in D. destruct D as [D1 D2].
    pose proof (IHl D1 (follows_app_l l r C)) as Hl.
    assert (Hr : Defined s r ->
                 derivable_pt_lim (fun t => value_with (lv t) r) t0
                   (grad (reference s r)))
      by (intros Dr; exact (IHr Dr (follows_app_r l r C))).
    assert (G : Defined s r -> 0 < val (reference s l) ->
                derivable_pt_lim (fun t => value_with (lv t) (PowExpr l r))
                  t0 (grad (d_pow (reference s l) (reference s r)))).
    { intros Dr P. rewrite val_reference in P.
      eapply derivable_pt_lim_eq.
      - apply (Rpow_derivable_both
                 (fun t => value_with (lv t) l) (fun t => value_with (lv t) r)
                 t0 _ _ Hl (Hr Dr)).
        now rewrite value_with_here.
      - rewrite !value_with_here, <- !val_reference. reflexivity. }
    destruct r as [p|o|op r'|r1 r2|r1 r2|r1 r2|c o];
      try (destruct D2 as [D2 D3]; exact (G D2 D3)).
    rewrite val_reference in D2.
    apply (derivable_pt_lim_eq
             (comp (fun u => Rpow u p) (fun t => value_with (lv t) l))
             t0
             (p * Rpow (value s l) (p - 1) * grad (reference s l))).
    + apply derivable_pt_lim_comp; [exact Hl|].
      rewrite value_with_here. now apply Rpow_derivable.
    + simpl. now rewrite val_reference.
  - eapply derivable_pt_lim_eq.
    + apply (derivable_pt_lim_mult (fct_cte c)
               (fun t => lv t o) t0 0 (grad (rd s o))).
      * apply derivable_pt_lim_const.
      * apply C. now left.
    + simpl. unfold fct_cte. ring.
Qed.

End Along.

Section OneVariable.

(** The store [s] after seeding: the variable [x] has gradient one. *)
Variable s : store R.
Variable x : loc.
Hypothesis seeded : grad (s x) = 1.

(** The variable [x] moved to the value [t]. *)
Definition moved (t : R) : store R := set_val s x t.

Lemma moved_here : same_vals (moved (val (s x))) s.
Proof.
  intros a. unfold moved, set_val, upd.
  destruct (loc_eqb_spec x a) as [<-|N]; reflexivity.
Qed.

Lemma rd_moved_other t o : o <> ByRef x -> rd (moved t) o = rd s o.
Proof. intros N. unfold moved, set_val. now apply rd_upd_other. Qed.

Lemma rd_moved_same t : val (rd (moved t) (ByRef x)) = t.
Proof. unfold moved, set_val. simpl. now rewrite upd_same. Qed.

Lemma operand_eq_dec (o : Operand R) : o = ByRef x \/ o <> ByRef x.
Proof.
  destruct o as [a|d]; [|right; discriminate].
  destruct (loc_eqb_spec a x) as [->|N]; [now left|].
  right. congruence.
Qed.

(** The value of an operand as a function of the value of [x]. *)
Lemma operand_derivative o :
  (o <> ByRef x -> grad (rd s o) = 0) ->
  derivable_pt_lim (fun t => val (rd (moved t) o)) (val (s x))
    (grad (rd s o)).
Proof.
  intros C. destruct (operand_eq_dec o) as [->|N].
  - apply (derivable_pt_lim_ext id).
    { intros z. symmetry. apply rd_moved_same. }
    simpl rd. rewrite seeded. apply derivable_pt_lim_id.
  - rewrite (C N).
    apply (derivable_pt_lim_ext (fct_cte (val (rd s o)))).
    { intros z. now rewrite rd_moved_other. }
    apply derivable_pt_lim_const.
Qed.

(** The gradient computed by the reference evaluator is the derivative of
    the value with respect to the value of [x]. *)
Lemma reference_derivative e :
  Defined s e -> constant_besides x s e ->
  derivable_pt_lim (fun t => value (moved t) e) (val (s x))
    (grad (reference s e)).
Proof.
  intros D C.
  apply (derivable_pt_lim_ext
           (fun t => value_with (fun o => val (rd (moved t) o)) e)).
  { intros t. symmetry. apply value_value_with. }
  apply (reference_derivative_along s
           (fun t o => val (rd (moved t) o)) (val (s x))); auto.
  - intros o. apply same_vals_rd;
      auto using moved_here, same_val_operand_refl.
  - intros o Io. apply operand_derivative. now apply C.
Qed.

End OneVariable.

(** [derivative(f, wrt(x), ...)] for [f] returning the expression [e]. *)
Lemma derivative_sound (e : Expr R) (sp : nat) (st : store R) (x : loc) :
  wf sp e -> below sp x -> Defined st e ->
  fst (derivative (fun s => eval sp s e) x st)
  = grad (reference (seed st x) e).
Proof.
  intros W B D.
  assert (Ds : Defined (seed st x) e).
  { apply (Defined_same_vals st); [|exact D].
    intros a. unfold seed, seed_with, set_grad, upd.
    destruct (loc_eqb_spec x a) as [<-|N]; reflexivity. }
  destruct (eval_sound e sp (seed st x) x (proj1 (engine_sound e)) W B Ds)
    as [E _].
  unfold derivative.
  destruct (eval sp (seed st x) e) as [res st']. simpl in *. now rewrite E.
Qed.

(** The operands moving from their values with the speed of their
    gradients. *)
Definition along (st : store R) (t : R) (o : Operand R) : R :=
  val (rd st o) + t * grad (rd st o).

Lemma along_derivative (st : store R) (o : Operand R) :
  derivable_pt_lim (fun t => along st t o) 0 (grad (rd st o)).
Proof.
  unfold along.
  eapply derivable_pt_lim_eq.
  - apply (derivable_pt_lim_plus (fct_cte (val (rd st o)))
             (id * fct_cte (grad (rd st o)))%F 0 0
             (1 * fct_cte (grad (rd st o)) 0 + id 0 * 0)).
    + apply derivable_pt_lim_const.
    + apply derivable_pt_lim_mult;
        [apply derivable_pt_lim_id | apply derivable_pt_lim_const].
  - unfold fct_cte, id. ring.
Qed.

(** An expression whose operands all have a zero gradient has a zero
    gradient. *)
Lemma reference_constant (st : store R) (e : Expr R) :
  (forall o, In o (operands e) -> grad (rd st o) = 0) ->
  grad (reference st e) = 0.
Proof.
  induction e as [c|o|op r IH|l IHl r IHr|l IHl r IHr|l IHl r IHr|c o];
    intros H.
  - reflexivity.
  - apply H. now left.
  - simpl. rewrite <- (Dual_eta (reference st r)), d_unary_chain, (IH H).
    ring.
  - simpl. rewrite IHl, IHr by (intros o I; apply H, in_or_app; auto). ring.
  - simpl. rewrite IHl, IHr by (intros o I; apply H, in_or_app; auto). ring.
  - assert (El : grad (reference st l) = 0)
      by (apply IHl; intros o I; apply H, in_or_app; auto).
    assert (Er : grad (reference st r) = 0)
      by (apply IHr; intros o I; apply H, in_or_app; auto).
    destruct r; simpl in *; rewrite ?El, ?Er; unfold Rdiv; ring.
  - simpl. rewrite (H o) by now left. ring.
Qed.

End Derivative.

(** [val(expr)] over the reals is the value the expression denotes. *)
Lemma val_of_value (e : Expr R) (sp : nat) (st : store R) :
  Real.wf sp e -> Real.Defined st e ->
  val_of sp st e = Calculus.value st e.
Proof.
  intros W D. rewrite val_of_eval, <- Calculus.val_reference.
  destruct (Real.eval_sound e sp st (Var 0)
              (proj1 (Real.engine_sound e)) W I D) as [E _].
  destruct e; try (now rewrite E); reflexivity.
Qed.


(* ================================================================== *)
(** ** Further properties in binary64 *)

Module Binary64Facts.

Local Open Scope float_scope.

(** A product with NaN is NaN. *)
Lemma mul_nan_r (g : float) : g * nan = nan.
Proof.
  apply Prim2SF_inj. rewrite FloatAxioms.mul_spec.
  change (Prim2SF nan) with S754_nan.
  now destruct (Prim2SF g).
Qed.

(** A float that compares equal to zero is [+0] or [-0]. *)
Lemma eqb_zero (v : float) :
  (v =? 0) = true -> exists sg, Prim2SF v = S754_zero sg.
Proof.
  rewrite FloatAxioms.eqb_spec. change (Prim2SF 0) with (S754_zero false).
  destruct (Prim2SF v) as [sg|sg| |sg m e]; intros H;
    [eauto | destruct sg | | destruct sg]; cbv in H; discriminate.
Qed.

Lemma abs_zero (v : float) : (v =? 0) = true -> abs v = 0.
Proof.
  intros H. destruct (eqb_zero v H) as [sg E].
  apply Prim2SF_inj. rewrite FloatAxioms.abs_spec, E. reflexivity.
Qed.

Lemma div_zero_zero (v : float) : (v =? 0) = true -> v / 0 = nan.
Proof.
  intros H. destruct (eqb_zero v H) as [sg E].
  apply Prim2SF_inj. rewrite FloatAxioms.div_spec, E. reflexivity.
Qed.

Lemma add_nan_l (g : float) : nan + g = nan.
Proof.
  apply Prim2SF_inj. rewrite FloatAxioms.add_spec.
  change (Prim2SF nan) with S754_nan. reflexivity.
Qed.

(** A float that compares equal to zero is the float [+0] or the float
    [-0]. *)
Lemma eqb_zero_cases (v : float) : (v =? 0) = true -> v = 0 \/ v = -0.
Proof.
  intros H. destruct (eqb_zero v H) as [sg E].
  rewrite <- (SF2Prim_Prim2SF v), E.
  destruct sg; [right | left]; reflexivity.
Qed.

End Binary64Facts.

(* ================================================================== *)
(** ** Further properties of nested duals *)

Module HigherOrderFacts.

Import HigherOrder.

Section Types.

Context {T : Type} {NT : Number T}.

(** [HigherOrderDual<N>]: [double] at [N = 0], and
    [Dual<HigherOrderDual<N-1>, HigherOrderDual<N-1>>] above.
    [is_HigherOrderDual n v]: the value [v] has that type. *)
Fixpoint is_HigherOrderDual (n : nat) (v : Value T) : Prop :=
  match n, v with
  | O, Scalar _ => True
  | S k, Nest a g => is_HigherOrderDual k a /\ is_HigherOrderDual k g
  | _, _ => False
  end.

Lemma grad_depth_HigherOrderDual n :
  forall v, is_HigherOrderDual n v -> grad_depth v = n.
Proof.
  induction n as [|n IH]; intros [x|a g] H; simpl in *; try tauto.
  f_equal. apply IH. tauto.
Qed.

Lemma val_depth_HigherOrderDual n :
  forall v, is_HigherOrderDual n v -> val_depth v = n.
Proof.
  induction n as [|n IH]; intros [x|a g] H; simpl in *; try tauto.
  f_equal. apply IH. tauto.
Qed.

Lemma grad_iter_HigherOrderDual k :
  forall n v, is_HigherOrderDual n v -> k <= n ->
    exists d, grad_iter k v = Some d /\ is_HigherOrderDual (n - k) d.
Proof.
  induction k as [|k IH]; intros n v H L.
  - exists v. rewrite Nat.sub_0_r. split; [reflexivity | exact H].
  - destruct n as [|n]; [lia|].
    destruct v as [x|a g]; simpl in H; [tauto|].
    destruct H as [_ Hg].
    destruct (IH n g Hg) as (d & E & Hd); [lia|].
    exists d. split; assumption.
Qed.

Lemma grad_at_depth k :
  forall (v g : Value T), grad_at k v = Some g -> k < val_depth v.
Proof.
  induction k as [|k IH]; intros [x|a g'] g H; simpl in *;
    try discriminate; try lia.
  apply IH in H. lia.
Qed.

(** Seeding is defined only when every variable is nested deeply enough
    for its position. *)
Lemma seed_from_depth num (wrt : list nat) k (st st' : vars T) :
  seed_from num k wrt st = Some st' ->
  forall i x, nth_error wrt i = Some x -> i + k < val_depth (st x).
Proof.
  intros H i x Hi.
  destruct (seed_from_grad num wrt k st st' H i x Hi) as (g & G & _).
  exact (grad_at_depth _ _ _ G).
Qed.

End Types.

End HigherOrderFacts.


(* ================================================================== *)
(** ** Properties of the reduction engine *)

Section Examples.

Local Open Scope R_scope.

(** Stores and operands used by the closed examples below. *)
Definition x0 : Expr R := Leaf (ByRef (Var 0)).
Definition x1 : Expr R := Leaf (ByRef (Var 1)).
Definition x2 : Expr R := Leaf (ByRef (Var 2)).

Definition st_R : store R :=
  fun a =>
    match a with
    | Var 0 => mkDual 1 1
    | Var 1 => mkDual 2 0
    | _ => mkDual 3 0
    end.

End Examples.

(** C1 (as amended).  Over the reals, where the expression is defined:
    [assign] into a target that occurs in the tree at most as the operand
    read first leaves in the target the dual computed by the reference
    evaluator, and so does the expression constructor ([eval], whose target
    is a new dual). *)
Theorem assign_matches_reference
    (e : Expr R) (sp : nat) (st : store R) (self : loc) :
  Real.wf sp e -> below sp self -> Real.Defined st e ->
  (Real.noalias self e -> assign sp st self e self = Real.reference st e)
  /\ fst (eval sp st e) = Real.reference st e.
Proof.
  intros W B D. split.
  - intros N. now apply (proj1 (Real.engine_sound e)).
  - apply (Real.eval_sound e sp st self); auto.
    apply (proj1 (Real.engine_sound e)).
Qed.

Lemma assign_matches_reference_witness :
  assign 0 st_R (Var 0) (AddExpr x1 (MulExpr x2 (Unary SinOp x0))) (Var 0)
  = Real.reference st_R (AddExpr x1 (MulExpr x2 (Unary SinOp x0)))
  /\ fst (eval 0 st_R (AddExpr x1 (MulExpr x2 (Unary SinOp x0))))
     = Real.reference st_R (AddExpr x1 (MulExpr x2 (Unary SinOp x0))).
Proof.
  destruct (assign_matches_reference
              (AddExpr x1 (MulExpr x2 (Unary SinOp x0))) 0 st_R (Var 0))
    as [H1 H2].
  - repeat constructor.
  - exact I.
  - simpl. tauto.
  - split; [apply H1 | exact H2].
    simpl. intuition congruence.
Defined.

(** C1, counterexample.  Aliasing: [x = x + y] with [x = (1, 1)],
    [y = (2, 0)]; [assign] first stores [y] into [x] and then adds [x] to
    itself, so the value is [4] where the reference value is [3].
    Domain: [z = pow(x, 3.0)] in binary64 with [x = (0, 1)]; the gradient is
    [1 * (3 / 0 * 0) = NaN] where the power rule gives [3 * 0^2 * 1 = 0]. *)
Lemma assign_aliased_target_counterexample :
  (val (assign 0 st_R (Var 0) (op_add st_R x0 x1) (Var 0)) = 4%R
   /\ val (Real.reference st_R (op_add st_R x0 x1)) = 3%R)
  /\ (grad (assign 0 (fun _ => mkDual 0%float 1%float) (Var 1)
              (PowExpr (Leaf (ByRef (Var 0))) (Num 3%float)) (Var 1)) = nan
      /\ (3 * (0 * 0) * 1)%float = 0%float).
Proof.
  split.
  - split; simpl; lra.
  - split; vm_compute; reflexivity.
Qed.

(** C2.  With a scratch dual that is live, is not the target and is not an
    operand of the source, the two call shapes of every reduction leave the
    same dual in the target.  The two shapes of [assignSub] have an
    instance for the same sources, and leave the same dual where they
    have one. *)
Theorem simple_and_scratch_shapes_agree
    {T : Type} {NT : Number T} {ST : Scalars T}
    (e : Expr T) (sp : nat) (st : store T) (self tmp : loc) :
  Forall (below sp) (refs e) -> below sp self -> scratch_for sp self e tmp ->
  assign sp st self e self = assign_tmp sp st self e tmp self
  /\ assignAdd sp st self e self = assignAdd_tmp sp st self e tmp self
  /\ option_map (fun s : store T => s self) (assignSub sp st self e)
     = option_map (fun s : store T => s self) (assignSub_tmp sp st self e tmp)
  /\ assignMul sp st self e self = assignMul_tmp sp st self e tmp self
  /\ assignDiv sp st self e self = assignDiv_tmp sp st self e tmp self
  /\ assignPow sp st self e self = assignPow_tmp sp st self e tmp self.
Proof.
  intros W B S.
  repeat split;
    auto using shapes_agree_assign, shapes_agree_assignAdd,
               shapes_agree_assignSub, shapes_agree_assignMul,
               shapes_agree_assignDiv, shapes_agree_assignPow.
Qed.

Lemma simple_and_scratch_shapes_agree_witness :
  assignAdd 0 st_R (Var 0) (Unary SinOp (MulExpr x1 x2)) (Var 0)
  = assignAdd_tmp 0 st_R (Var 0) (Unary SinOp (MulExpr x1 x2)) (Var 3) (Var 0).
Proof.
  destruct (simple_and_scratch_shapes_agree
              (Unary SinOp (MulExpr x1 x2)) 0 st_R (Var 0) (Var 3))
    as (_ & H & _).
  - repeat constructor.
  - exact I.
  - split; [exact I|]. split; [discriminate|].
    simpl. intuition discriminate.
  - exact H.
Defined.

Section ExamplesBinary64.

Local Open Scope float_scope.

Definition y0 : Expr float := Leaf (ByRef (Var 0)).
Definition y1 : Expr float := Leaf (ByRef (Var 1)).
Definition y2 : Expr float := Leaf (ByRef (Var 2)).

(** [x = 1e16], [a = 1], [b = -1e16]. *)
Definition st_F : store float :=
  fun a =>
    match a with
    | Var 0 => mkDual 1e16 0
    | Var 1 => mkDual 1 0
    | _ => mkDual (-1e16) 0
    end.

(** A variable at [0.0]. *)
Definition st_zero : store float := fun _ => mkDual 0 0.

End ExamplesBinary64.

(** C3 (as amended).  [assign], in both shapes, reduces the right operand
    of [l + r] and of [l * r] into the target first and then accumulates
    the left one.  The accumulation overloads [assignAdd] on [l + r] and
    [assignMul] on [l * r] accumulate the left operand first and then the
    right one.  The remaining accumulations of such a node ([assignAdd] on
    [l * r], [assignMul] on [l + r]) reduce the node into the scratch dual
    by [assign] and accumulate that dual. *)
Theorem reduction_order
    {T : Type} {NT : Number T} {ST : Scalars T}
    (sp : nat) (st : store T) (self tmp : loc) (l r : Expr T) :
  assign sp st self (AddExpr l r) = assignAdd sp (assign sp st self r) self l
  /\ assign_tmp sp st self (AddExpr l r) tmp
     = assignAdd_tmp sp (assign_tmp sp st self r tmp) self l tmp
  /\ assign sp st self (MulExpr l r) = assignMul sp (assign sp st self r) self l
  /\ assign_tmp sp st self (MulExpr l r) tmp
     = assignMul_tmp sp (assign_tmp sp st self r tmp) self l tmp
  /\ assignAdd sp st self (AddExpr l r)
     = assignAdd sp (assignAdd sp st self l) self r
  /\ assignAdd_tmp sp st self (AddExpr l r) tmp
     = assignAdd_tmp sp (assignAdd_tmp sp st self l tmp) self r tmp
  /\ assignMul sp st self (MulExpr l r)
     = assignMul sp (assignMul sp st self l) self r
  /\ assignMul_tmp sp st self (MulExpr l r) tmp
     = assignMul_tmp sp (assignMul_tmp sp st self l tmp) self r tmp
  /\ assignAdd_tmp sp st self (MulExpr l r) tmp
     = assignAdd_dual (assign sp st tmp (MulExpr l r)) self (ByRef tmp)
  /\ assignMul_tmp sp st self (AddExpr l r) tmp
     = assignMul_dual (assign sp st tmp (AddExpr l r)) self (ByRef tmp).
Proof. repeat split. Qed.

(** C3, counterexample: [x += a + b] in binary64 with [x = 1e16], [a = 1],
    [b = -1e16].  The engine computes [(x + a) + b = 0]; reducing [b]
    before [a] would give [(x + b) + a = 1]. *)
Lemma accumulation_order_counterexample :
  val (assignAdd 0 st_F (Var 0) (op_add st_F y1 y2) (Var 0)) = 0%float
  /\ val (assignAdd 0 (assignAdd 0 st_F (Var 0) y2) (Var 0) y1 (Var 0))
     = 1%float.
Proof. split; vm_compute; reflexivity. Qed.

(** C5 (as amended).  [x += -x] and [x += 1/x] read [x] into a separate
    dual before [x] is written.  For every arithmetic type: the operand
    [e] of a negation or of an inverse node, whether or not [x] occurs in
    it, is evaluated into a dual of its own while [x] is untouched, and
    the accumulation reads that dual; for the operand [x] itself, [eval]
    returns a copy of [x] and writes nothing; the tree
    built by [c / x] is a product, which the catch-all [assignAdd] reduces
    into its local temporary while [x] is untouched, and then adds.  So
    [x += -x] leaves [(v - v, g - g)] and [x += c/x], for a scalar [c]
    that converts to [1], leaves
    [(v + (1/v) * 1, g + (g * (-(1/v) * (1/v))) * 1)], both computed from
    the members [v], [g] that [x] held before the call, in the arithmetic
    of the type.  Over the reals this is [(0, 0)] for [x += -x] and, for
    [v <> 0], the value [v + 1/v] and the derivative [g - g / v^2] of
    [x + 1/x] at the original [x]. *)
Theorem self_aliasing_compound_assignment
    {T : Type} {NT : Number T} {ST : Scalars T}
    (st : store T) (n sp : nat) (c : scalar) :
  (forall e : Expr T,
     assignAdd sp st (Var n) (Unary NegOp e)
     = (let '(d, s) := eval sp st e in
        assignAddNegativeDual s (Var n) (ByVal d))
     /\ assignAdd sp st (Var n) (Unary InvOp e)
        = (let '(d, s) := eval sp st e in
           assignAddInverseDual s (Var n) (ByVal d))
     /\ snd (eval sp st e) (Var n) = st (Var n))
  /\ eval sp st (Leaf (ByRef (Var n))) = (st (Var n), st)
  /\ assignAdd sp st (Var n) (op_neg st (Leaf (ByRef (Var n))))
     = (let '(d, s) := eval sp st (Leaf (ByRef (Var n))) in
        assignAddNegativeDual s (Var n) (ByVal d))
  /\ assignAdd sp st (Var n) (op_neg st (Leaf (ByRef (Var n)))) (Var n)
     = mkDual (sub (val (st (Var n))) (val (st (Var n))))
              (sub (grad (st (Var n))) (grad (st (Var n))))
  /\ assignAdd sp st (Var n) (inverse st (Leaf (ByRef (Var n))))
     = (let '(d, s) := eval sp st (Leaf (ByRef (Var n))) in
        assignAddInverseDual s (Var n) (ByVal d))
  /\ op_div st (Num c) (Leaf (ByRef (Var n)))
     = MulExpr (Num c) (Unary InvOp (Leaf (ByRef (Var n))))
  /\ assignAdd sp st (Var n) (op_div st (Num c) (Leaf (ByRef (Var n))))
     = assignAdd_dual
         (assign (S sp) (upd st (Tmp sp) Dual_default) (Tmp sp)
            (op_div st (Num c) (Leaf (ByRef (Var n)))))
         (Var n) (ByRef (Tmp sp))
  /\ assign (S sp) (upd st (Tmp sp) Dual_default) (Tmp sp)
       (op_div st (Num c) (Leaf (ByRef (Var n)))) (Var n)
     = st (Var n)
  /\ assignAdd sp st (Var n) (op_div st (Num c) (Leaf (ByRef (Var n)))) (Var n)
     = mkDual
         (add (val (st (Var n)))
              (mul (div one (val (st (Var n)))) (to_value c)))
         (add (grad (st (Var n)))
              (mul (mul (grad (st (Var n)))
                        (mul (opp (div one (val (st (Var n)))))
                             (div one (val (st (Var n))))))
                   (to_value c)))
  /\ forall (s : store R) (m : nat),
       assignAdd sp s (Var m) (op_neg s (Leaf (ByRef (Var m)))) (Var m)
       = mkDual 0%R 0%R
       /\ (val (s (Var m)) <> 0%R ->
           assignAdd sp s (Var m)
             (op_div s (Num 1%R) (Leaf (ByRef (Var m)))) (Var m)
           = mkDual (val (s (Var m)) + / val (s (Var m)))%R
                    (grad (s (Var m))
                     - grad (s (Var m))
                       / (val (s (Var m)) * val (s (Var m))))%R).
Proof.
  assert (Neg : forall (U : Type) (NU : Number U) (SU : Scalars U)
                       (s : store U) (m : nat),
             assignAdd sp s (Var m) (op_neg s (Leaf (ByRef (Var m)))) (Var m)
             = mkDual (sub (val (s (Var m))) (val (s (Var m))))
                      (sub (grad (s (Var m))) (grad (s (Var m))))).
  { intros U NU SU s m.
    change (assignAddNegativeDual s (Var m) (ByVal (s (Var m))) (Var m)
            = mkDual (sub (val (s (Var m))) (val (s (Var m))))
                     (sub (grad (s (Var m))) (grad (s (Var m))))).
    prim_unfold. rewrite !upd_same. reflexivity. }
  assert (Inv : forall (U : Type) (NU : Number U) (SU : Scalars U)
                       (s : store U) (m : nat) (k : scalar),
             assignAdd sp s (Var m) (op_div s (Num k) (Leaf (ByRef (Var m))))
               (Var m)
             = mkDual
                 (add (val (s (Var m)))
                      (mul (div one (val (s (Var m)))) (to_value k)))
                 (add (grad (s (Var m)))
                      (mul (mul (grad (s (Var m)))
                                (mul (opp (div one (val (s (Var m)))))
                                     (div one (val (s (Var m))))))
                           (to_value k)))).
  { intros U NU SU s m k.
    change (assignAdd_dual
              (assignMul_number
                 (apply InvOp
                    (assign_dual (upd s (Tmp sp) Dual_default) (Tmp sp)
                       (ByRef (Var m)))
                    (Tmp sp))
                 (Tmp sp) (to_value k))
              (Var m) (ByRef (Tmp sp)) (Var m) = 
            mkDual
              (add (val (s (Var m)))
                   (mul (div one (val (s (Var m)))) (to_value k)))
              (add (grad (s (Var m)))
                   (mul (mul (grad (s (Var m)))
                             (mul (opp (div one (val (s (Var m)))))
                                  (div one (val (s (Var m))))))
                        (to_value k)))).
    prim_unfold.
    repeat (rewrite ?upd_same, ?(upd_other _ (Tmp sp) _ (Var m)),
                    ?(upd_other _ (Var m) _ (Tmp sp)) by discriminate;
            cbn [val grad rd]).
    reflexivity. }
  split.
  { intros e. split; [reflexivity|]. split; [reflexivity|].
    now apply frame_eval. }
  split; [reflexivity|].
  split; [reflexivity|].
  split; [apply Neg|].
  split; [reflexivity|].
  split; [reflexivity|].
  split; [reflexivity|].
  split.
  { change (assignMul_number
              (apply InvOp
                 (assign_dual (upd st (Tmp sp) Dual_default) (Tmp sp)
                    (ByRef (Var n)))
                 (Tmp sp))
              (Tmp sp) (to_value c) (Var n) = st (Var n)).
    prim_unfold. rewrite !upd_other by discriminate. reflexivity. }
  split; [apply Inv|].
  intros s m. split.
  - rewrite Neg. Real.R_ops. f_equal; ring.
  - intros D. rewrite Inv. Real.R_ops.
    cbn [to_value Real.RScalars OwnScalars].
    f_equal; field; assumption.
Qed.

Lemma self_aliasing_compound_assignment_witness :
  assignAdd 0 st_R (Var 0) (op_div st_R (Num 1%R) (Leaf (ByRef (Var 0)))) (Var 0)
  = mkDual (1 + / 1)%R (1 - 1 / (1 * 1))%R.
Proof.
  destruct (self_aliasing_compound_assignment (ST := Real.RScalars)
              st_R 0 0 1%R)
    as (_ & _ & _ & _ & _ & _ & _ & _ & _ & H).
  destruct (H st_R 0%nat) as [_ H'].
  apply H'. simpl. lra.
Defined.

(** C5, counterexample: in binary64 the two results are not the
    mathematical ones at every dual.  At [x = (inf, 1)], [x += -x] leaves
    the value [inf - inf = NaN], not [0].  At [x = (2^-700, 0)],
    [x += 1/x] computes the gradient [0 + (0 * (-(2^700) * 2^700)) * 1],
    where the product of the two inverses overflows, and leaves NaN; the
    derivative [g - g / v^2] of [x + 1/x] with [g = 0] is [0]. *)
Lemma self_aliasing_compound_assignment_counterexample :
  assignAdd 0 (fun _ => mkDual infinity 1%float) (Var 0)
    (op_neg (fun _ => mkDual infinity 1%float) (Leaf (ByRef (Var 0)))) (Var 0)
  = mkDual nan 0%float
  /\ grad (assignAdd 0 (fun _ => mkDual 0x1p-700%float 0%float) (Var 0)
             (op_div (fun _ => mkDual 0x1p-700%float 0%float)
                (Num 1%float) (Leaf (ByRef (Var 0))))
             (Var 0))
     = nan
  /\ (0 - 0 / (/ 2 ^ 700 * / 2 ^ 700))%R = 0%R.
Proof.
  split; [vm_compute; reflexivity|].
  split; [vm_compute; reflexivity|].
  unfold Rdiv. ring.
Qed.

(** The function [x => pow(x, 3.0)], returning a dual by value; the
    exponent is a scalar of the value type. *)
Definition cube {T : Type} {NT : Number T} {ST : Scalars T}
    (three : T) (x : loc) : store T -> Dual T * store T :=
  fun st => eval 0 st (PowExpr (Leaf (ByRef x)) (Num (of_value three))).

(** C6 (as amended).  For a plain exponent [p], [assignPow] leaves
    [val' = val^p] and [grad' = grad * (p / val * val')].  Where the power
    is defined and [val <> 0] this is the power rule
    [p * val^(p-1) * grad], and for [val(x) <> 0] the derivative of
    [pow(x, 3.0)] with respect to [x] is [3 * val(x) * val(x)]. *)
Theorem pow_scalar_exponent
    (st : store R) (self : loc) (n : nat) (p : R) :
  assignPow_number st self p self
  = mkDual (Real.Rpow (val (st self)) p)
           (grad (st self) * (p / val (st self) * Real.Rpow (val (st self)) p))%R
  /\ (Real.pow_defined (val (st self)) p ->
      (grad (st self) * (p / val (st self) * Real.Rpow (val (st self)) p))%R
      = (p * Real.Rpow (val (st self)) (p - 1) * grad (st self))%R)
  /\ (val (st (Var n)) <> 0%R ->
      fst (derivative (cube 3%R (Var n)) (Var n) st)
      = (3 * val (st (Var n)) * val (st (Var n)))%R).
Proof.
  split.
  { prim_unfold. rewrite !upd_same. reflexivity. }
  split.
  { intros D. rewrite (Real.Rpow_pred _ _ D). unfold Rdiv. ring. }
  intros D.
  change (fst (derivative (cube 3%R (Var n)) (Var n) st))
    with (grad (assignPow_number
                  (assign_dual (seed st (Var n)) (Tmp 0) (ByRef (Var n)))
                  (Tmp 0) 3%R (Tmp 0))).
  unfold seed, seed_with. prim_unfold.
  repeat (rewrite ?upd_same, ?(upd_other _ (Tmp 0) _ (Var n)),
                  ?(upd_other _ (Var n) _ (Tmp 0)) by discriminate;
          cbn [val grad rd]).
  Real.R_ops. rewrite (Real.Rpow_IZR _ 3). simpl. field. assumption.
Qed.

Lemma pow_scalar_exponent_witness :
  fst (derivative (cube 3%R (Var 1)) (Var 1) st_R) = (3 * 2 * 2)%R.
Proof.
  destruct (pow_scalar_exponent st_R (Var 1) 1 3%R) as (_ & _ & H).
  apply H. simpl. lra.
Defined.

(** C6, counterexample: at [x = 0.0] in binary64, [pow(0, 3) = 0] and
    [3 / 0 = inf], so the derivative is [1 * (inf * 0) = NaN], while
    [3 * val(x) * val(x) = 0]. *)
Lemma pow_at_zero_counterexample :
  fst (derivative (cube 3%float (Var 0)) (Var 0) st_zero) = nan
  /\ (3 * val (st_zero (Var 0)) * val (st_zero (Var 0)))%float = 0%float.
Proof. split; vm_compute; reflexivity. Qed.

(** C7.  The product of two negations is the product of the operands,
    built by the same [operator*] (so that further rewrite rules apply to
    it); every reduction of it is therefore the reduction of [a * b].
    Over the reals, where the operands are defined, its reference value is
    the product of the values of the two negations, which is the product
    of the values of the operands. *)
Theorem negation_product_rewrite
    {T : Type} {NT : Number T} {ST : Scalars T}
    (a b : Expr T) (sp : nat) (st : store T) (self tmp : loc) :
  op_mul st (Unary NegOp a) (Unary NegOp b) = op_mul st a b
  /\ assign sp st self (op_mul st (Unary NegOp a) (Unary NegOp b))
     = assign sp st self (op_mul st a b)
  /\ assign_tmp sp st self (op_mul st (Unary NegOp a) (Unary NegOp b)) tmp
     = assign_tmp sp st self (op_mul st a b) tmp
  /\ eval sp st (op_mul st (Unary NegOp a) (Unary NegOp b))
     = eval sp st (op_mul st a b)
  /\ forall (s : store R) (u v : Expr R),
       Real.Defined s u -> Real.Defined s v ->
       Real.reference s (op_mul s (Unary NegOp u) (Unary NegOp v))
       = Real.d_mul (Real.reference s (Unary NegOp u))
                    (Real.reference s (Unary NegOp v))
       /\ Real.reference s (op_mul s (Unary NegOp u) (Unary NegOp v))
          = Real.d_mul (Real.reference s u) (Real.reference s v).
Proof.
  repeat split.
  - change (op_mul s (Unary NegOp u) (Unary NegOp v)) with (op_mul s u v).
    rewrite Real.op_mul_sound by assumption.
    symmetry. apply Real.d_mul_neg_neg.
  - change (op_mul s (Unary NegOp u) (Unary NegOp v)) with (op_mul s u v).
    now apply Real.op_mul_sound.
Qed.

Lemma negation_product_rewrite_witness :
  Real.reference st_R
    (op_mul st_R (Unary NegOp x1) (Unary NegOp (Unary InvOp x2)))
  = Real.d_mul (Real.reference st_R x1) (Real.reference st_R (Unary InvOp x2)).
Proof.
  destruct (negation_product_rewrite x1 x2 0 st_R (Var 0) (Var 3))
    as (_ & _ & _ & _ & H).
  apply (H st_R x1 (Unary InvOp x2)).
  - exact I.
  - simpl. split; [exact I | lra].
Defined.

(** C10.  [self += c] and [self -= c] for a number [c], in both shapes,
    replace [self.val] and keep [self.grad] and every other dual. *)
Theorem scalar_accumulation_keeps_grad
    {T : Type} {NT : Number T} {ST : Scalars T}
    (sp : nat) (st : store T) (self tmp : loc) (c : scalar) :
  assignAdd sp st self (Num c)
  = upd st self (mkDual (add (val (st self)) (to_value c)) (grad (st self)))
  /\ assignAdd_tmp sp st self (Num c) tmp
     = upd st self (mkDual (add (val (st self)) (to_value c)) (grad (st self)))
  /\ assignSub sp st self (Num c)
     = Some (upd st self
               (mkDual (sub (val (st self)) (to_value c)) (grad (st self))))
  /\ assignSub_tmp sp st self (Num c) tmp
     = Some (upd st self
               (mkDual (sub (val (st self)) (to_value c)) (grad (st self))))
  /\ grad (assignAdd sp st self (Num c) self) = grad (st self)
  /\ option_map (fun s : store T => grad (s self))
       (assignSub sp st self (Num c))
     = Some (grad (st self)).
Proof.
  repeat split.
  - change (grad (set_val st self (add (val (st self)) (to_value c)) self)
            = grad (st self)).
    unfold set_val. now rewrite upd_same.
  - change (Some (grad (set_val st self (sub (val (st self)) (to_value c)) self))
            = Some (grad (st self))).
    unfold set_val. now rewrite upd_same.
Qed.

(** C9.  [Dual()] is [Dual(0.0)]: both members are zero; at a nested dual
    every component is zero. *)
Theorem default_dual_is_zero {T : Type} {NT : Number T} :
  @Dual_default T NT = Dual_of_number zero
  /\ val (@Dual_default T NT) = zero
  /\ grad (@Dual_default T NT) = zero
  /\ forall like : HigherOrder.Value T,
       HigherOrder.zeroed (HigherOrder.construct like zero).
Proof.
  repeat split. intros like. apply HigherOrder.zeroed_assign_number.
Qed.

(** C4.  [derivative<order>] for an order of at least one descends
    [order] times into [.grad]; order one returns [dual.grad].  Order zero
    has no instantiation: at a first-order dual the statement after
    [return dual.val] still requires [derivative<order - 1>(dual.grad)]
    with [dual.grad] a number, and at a nested dual the same happens at the
    innermost level. *)
Theorem derivative_orders {T : Type} {NT : Number T}
    (v g : T) (a b d : HigherOrder.Value T) (n : nat) :
  HigherOrder.derivative 0 (HigherOrder.Nest (HigherOrder.Scalar v)
                                             (HigherOrder.Scalar g)) = None
  /\ ((N.of_nat (HigherOrder.grad_depth d) < HigherOrder.SIZE_MAX)%N ->
      HigherOrder.derivative 0 d = None)
  /\ HigherOrder.derivative 1 (HigherOrder.Nest a b) = Some b
  /\ HigherOrder.derivative (N.of_nat (S n)) d
     = HigherOrder.grad_iter (S n) d.
Proof.
  split; [reflexivity|].
  split; [apply HigherOrder.derivative_order_zero|].
  split; [reflexivity|].
  apply HigherOrder.derivative_peels.
Qed.


Section ExamplesNested.

Local Open Scope float_scope.

(** [x] of type [HigherOrderDual<2>] at [2.0], and [f(x) = x]. *)
Definition st_N : HigherOrder.vars float :=
  fun _ =>
    HigherOrder.Nest
      (HigherOrder.Nest (HigherOrder.Scalar 2) (HigherOrder.Scalar 0))
      (HigherOrder.Nest (HigherOrder.Scalar 0) (HigherOrder.Scalar 0)).





End ExamplesNested.



(* ================================================================== *)
(** ** Further properties *)

(** X1.  A reduction writes its target and nothing else the caller can
    see: every other live dual [a] (a variable of the caller, or a
    temporary of an enclosing reduction) holds after the call what it
    held before ([assignSub]: wherever the call has an instance).  The
    scratch shapes may also write the scratch dual.
    Constructing a dual from an expression ([eval]) writes no live dual
    at all. *)
Theorem reductions_write_only_their_target
    {T : Type} {NT : Number T} {ST : Scalars T}
    (e : Expr T) (sp : nat) (st : store T) (self tmp a : loc) :
  below sp a -> a <> self ->
  (assign sp st self e a = st a
   /\ assignAdd sp st self e a = st a
   /\ (forall s', assignSub sp st self e = Some s' -> s' a = st a)
   /\ assignMul sp st self e a = st a
   /\ assignDiv sp st self e a = st a
   /\ assignPow sp st self e a = st a)
  /\ (a <> tmp ->
      assign_tmp sp st self e tmp a = st a
      /\ assignAdd_tmp sp st self e tmp a = st a
      /\ (forall s', assignSub_tmp sp st self e tmp = Some s' -> s' a = st a)
      /\ assignMul_tmp sp st self e tmp a = st a
      /\ assignDiv_tmp sp st self e tmp a = st a
      /\ assignPow_tmp sp st self e tmp a = st a)
  /\ snd (eval sp st e) a = st a.
Proof.
  intros B N. pose proof (rules_frame e) as [A At Ad Adt Am Amt].
  split; [|split].
  - repeat split;
      auto using frame_assignDiv, frame_assignPow.
    + now apply A.
    + now apply Ad.
    + intros s' E. exact (frame_assignSub e sp st self s' a E B N).
    + now apply Am.
  - intros Nt.
    repeat split;
      auto using frame_assignDiv_tmp, frame_assignPow_tmp.
    + now apply At.
    + now apply Adt.
    + intros s' E. exact (frame_assignSub_tmp e sp st self tmp s' a E B N Nt).
    + now apply Amt.
  - now apply frame_eval.
Qed.

Lemma reductions_write_only_their_target_witness :
  assignMul 0 st_R (Var 0) (Unary SinOp (AddExpr x1 x2)) (Var 1)
  = st_R (Var 1).
Proof.
  destruct (reductions_write_only_their_target
              (Unary SinOp (AddExpr x1 x2)) 0 st_R (Var 0) (Var 3) (Var 1))
    as ((_ & _ & _ & H & _) & _).
  - exact I.
  - discriminate.
  - exact H.
Defined.

(** X2.  The dual an expression reduces to depends on its operands only.
    From two stores that hold the same duals in the operands of [e], and
    whatever they hold elsewhere (in particular in the new dual of [eval],
    whose members the converting constructor does not initialise, in the
    temporaries, and in a target that is not an operand), [eval] returns
    the same dual and [assign] leaves the same dual in its target. *)
Theorem expression_reads_only_its_operands
    {T : Type} {NT : Number T} {ST : Scalars T}
    (e : Expr T) (sp1 sp2 : nat) (st1 st2 : store T) (t1 t2 : loc) :
  Forall (below sp1) (refs e) -> Forall (below sp2) (refs e) ->
  (forall a, In a (refs e) -> st1 a = st2 a) ->
  fst (eval sp1 st1 e) = fst (eval sp2 st2 e)
  /\ (below sp1 t1 -> below sp2 t2 ->
      ~ In t1 (refs e) -> ~ In t2 (refs e) ->
      assign sp1 st1 t1 e t1 = assign sp2 st2 t2 e t2).
Proof.
  intros W1 W2 A. split.
  - now apply eval_reads_operands.
  - intros. now apply assign_reads_operands.
Qed.

Lemma expression_reads_only_its_operands_witness :
  fst (eval 0 st_R (Unary ExpOp (MulExpr x0 x1)))
  = fst (eval 1 (upd st_R (Tmp 0) (mkDual 7%R 7%R))
           (Unary ExpOp (MulExpr x0 x1))).
Proof.
  destruct (expression_reads_only_its_operands
              (Unary ExpOp (MulExpr x0 x1)) 0 1
              st_R (upd st_R (Tmp 0) (mkDual 7%R 7%R)) (Var 2) (Var 2))
    as [H _].
  - repeat constructor.
  - repeat constructor.
  - intros a [<-|[<-|[]]]; reflexivity.
  - exact H.
Defined.

(** X3.  No [val] member ever depends on a [grad] member.  Two runs of
    the same reduction from stores whose duals have the same [val]
    members, with arbitrary [grad] members, leave the same [val] member in
    every dual ([assignSub]: wherever the call has an instance), and
    [eval] returns duals with the same [val].  So seeding a variable never
    changes a computed value. *)
Theorem values_ignore_gradients
    {T : Type} {NT : Number T} {ST : Scalars T}
    (e : Expr T) (sp : nat) (st1 st2 : store T) (self : loc) :
  (forall a, val (st1 a) = val (st2 a)) ->
  val (fst (eval sp st1 e)) = val (fst (eval sp st2 e))
  /\ (forall a, val (assign sp st1 self e a) = val (assign sp st2 self e a))
  /\ (forall a, val (assignAdd sp st1 self e a)
                = val (assignAdd sp st2 self e a))
  /\ (forall s1 s2,
        assignSub sp st1 self e = Some s1 ->
        assignSub sp st2 self e = Some s2 ->
        forall a, val (s1 a) = val (s2 a))
  /\ (forall a, val (assignMul sp st1 self e a)
                = val (assignMul sp st2 self e a))
  /\ (forall a, val (assignDiv sp st1 self e a)
                = val (assignDiv sp st2 self e a)).
Proof.
  intros H. pose proof (rules_vals e) as [A _ Ad _ Am _].
  split; [now apply vals_eval|].
  split; [exact (A sp st1 st2 self H)|].
  split; [exact (Ad sp st1 st2 self H)|].
  split; [exact (fun s1 s2 => vals_assignSub e sp st1 st2 self s1 s2 H)|].
  split; [exact (Am sp st1 st2 self H)|].
  exact (vals_assignDiv e sp st1 st2 self H).
Qed.

Lemma values_ignore_gradients_witness :
  val (fst (eval 0 st_R (MulExpr x0 (Unary SinOp x1))))
  = val (fst (eval 0 (seed st_R (Var 1)) (MulExpr x0 (Unary SinOp x1)))).
Proof.
  destruct (values_ignore_gradients
              (MulExpr x0 (Unary SinOp x1)) 0 st_R (seed st_R (Var 1)) (Var 0))
    as [H _].
  - intros [[|[|n]]|k]; reflexivity.
  - exact H.
Defined.

(** X4.  The comparison operators compare values only: their result is
    the same for any two stores whose duals have the same [val] members,
    whatever the gradients, also when an operand is an expression that has
    to be evaluated first. *)
Theorem comparisons_ignore_gradients
    {T : Type} {NT : Number T} {ST : Scalars T} {CT : Comparable T}
    (l r : Expr T) (sp : nat) (st1 st2 : store T) :
  (forall a, val (st1 a) = val (st2 a)) ->
  op_eq sp st1 l r = op_eq sp st2 l r
  /\ op_ne sp st1 l r = op_ne sp st2 l r
  /\ op_le sp st1 l r = op_le sp st2 l r
  /\ op_ge sp st1 l r = op_ge sp st2 l r
  /\ op_lt sp st1 l r = op_lt sp st2 l r
  /\ op_gt sp st1 l r = op_gt sp st2 l r.
Proof.
  intros H. unfold op_eq, op_ne, op_le, op_ge, op_lt, op_gt.
  rewrite (vals_val_of l sp st1 st2 H), (vals_val_of r sp st1 st2 H).
  repeat split.
Qed.

Lemma comparisons_ignore_gradients_witness :
  op_eq 0 st_R x0 (MulExpr x0 x0)
  = op_eq 0 (seed st_R (Var 1)) x0 (MulExpr x0 x0).
Proof.
  destruct (comparisons_ignore_gradients
              x0 (MulExpr x0 x0) 0 st_R (seed st_R (Var 1)))
    as [H _].
  - intros [[|[|n]]|k]; reflexivity.
  - exact H.
Defined.

(** X5.  Over the reals, the comparison of two expressions that are
    defined decides the corresponding relation between the numbers they
    denote. *)
Theorem comparisons_decide_the_order_of_values
    (l r : Expr R) (sp : nat) (st : store R) :
  Real.wf sp l -> Real.wf sp r -> Real.Defined st l -> Real.Defined st r ->
  (op_eq sp st l r = true <-> Calculus.value st l = Calculus.value st r)
  /\ (op_ne sp st l r = true <-> Calculus.value st l <> Calculus.value st r)
  /\ (op_le sp st l r = true <-> (Calculus.value st l <= Calculus.value st r)%R)
  /\ (op_ge sp st l r = true <-> (Calculus.value st l >= Calculus.value st r)%R)
  /\ (op_lt sp st l r = true <-> (Calculus.value st l < Calculus.value st r)%R)
  /\ (op_gt sp st l r = true <-> (Calculus.value st l > Calculus.value st r)%R).
Proof.
  intros Wl Wr Dl Dr.
  unfold op_eq, op_ne, op_le, op_ge, op_lt, op_gt.
  rewrite (val_of_value l sp st Wl Dl), (val_of_value r sp st Wr Dr).
  cbn [cmp_eq cmp_lt cmp_le RComparable].
  repeat split;
    repeat match goal with
           | |- context [Req_dec_T ?a ?b] => destruct (Req_dec_T a b)
           | |- context [Rlt_dec ?a ?b] => destruct (Rlt_dec a b)
           | |- context [Rle_dec ?a ?b] => destruct (Rle_dec a b)
           end;
    simpl; intros; try congruence; try lra.
Qed.

Lemma comparisons_decide_the_order_of_values_witness :
  op_lt 0 st_R x0 (AddExpr x1 x2) = true
  <-> (Calculus.value st_R x0 < Calculus.value st_R (AddExpr x1 x2))%R.
Proof.
  destruct (comparisons_decide_the_order_of_values x0 (AddExpr x1 x2) 0 st_R)
    as (_ & _ & _ & _ & H & _).
  - repeat constructor.
  - repeat constructor.
  - exact I.
  - simpl. tauto.
  - exact H.
Defined.

(** X6.  Compound assignment over the reals.  For an expression [e] that
    is defined and in which the target does not occur, [self += e],
    [self *= e] and (for a non-zero value of [e]) [self /= e] leave in
    [self] the dual-number sum, product and quotient of the old [self] and
    the reference value of [e].  [self -= e] has an instance exactly when
    [e] is a number, a dual or a negation, and then leaves the difference
    in [self]. *)
Theorem compound_assignment_matches_reference
    (e : Expr R) (sp : nat) (st : store R) (self : loc) :
  Real.wf sp e -> below sp self -> ~ In self (refs e) -> Real.Defined st e ->
  assignAdd sp st self e self
  = Real.d_add (st self) (Real.reference st e)
  /\ ((exists s', assignSub sp st self e = Some s')
      <-> subtractable e = true)
  /\ (forall s', assignSub sp st self e = Some s' ->
        s' self
        = Real.d_add (st self) (Real.d_unary NegOp (Real.reference st e)))
  /\ assignMul sp st self e self
     = Real.d_mul (st self) (Real.reference st e)
  /\ (val (Real.reference st e) <> 0%R ->
      assignDiv sp st self e self
      = Real.d_mul (st self) (Real.d_unary InvOp (Real.reference st e))).
Proof.
  intros W B N D.
  destruct (Real.engine_sound e) as (_ & Ad & Am).
  split; [now apply Ad|].
  split; [apply assignSub_defined|].
  split; [intros s' E; now apply (RealFacts.assignSub_sound e sp st s' self)|].
  split; [now apply Am|].
  intros Z. now apply RealFacts.assignDiv_sound.
Qed.

Lemma compound_assignment_matches_reference_witness :
  exists s',
    assignSub 0 st_R (Var 2) (Unary NegOp (MulExpr x0 (Unary SinOp x1)))
    = Some s'
    /\ s' (Var 2)
       = Real.d_add (st_R (Var 2))
           (Real.d_unary NegOp
              (Real.reference st_R
                 (Unary NegOp (MulExpr x0 (Unary SinOp x1))))).
Proof.
  destruct (compound_assignment_matches_reference
              (Unary NegOp (MulExpr x0 (Unary SinOp x1))) 0 st_R (Var 2))
    as (_ & [_ H1] & H2 & _).
  - repeat constructor.
  - exact I.
  - simpl. intuition discriminate.
  - simpl. tauto.
  - destruct (H1 eq_refl) as [s' E]. exists s'. split; [exact E|].
    apply H2. exact E.
Defined.

(** X7.  The trees built by unary [-], binary [+] and binary [-], with
    their rewrite rules ([-(-e)] is [e], [-(c * x)] is [(-c) * x],
    [e + c] is [c + e], [(-a) + (-b)] is [-(a + b)], [l - r] is
    [l + (-r)]).  With scalars of the value type, over the reals, a tree
    built and reduced in the same store denotes the negation, the sum and
    the difference of its operands, and is defined where the operands
    are.  [-(-x)] is a copy of [x]: a dual by value, holding what [x] held
    when the expression was built.  A scalar is negated in its own type:
    with an [unsigned] scalar, [-(3u * x)] is [4294967293u * x] and
    reduces to [x] scaled by 4294967293. *)
Theorem additive_operators_build_sums
    (st : store R) (l r : Expr R) (x : loc) (sp : nat) :
  Real.reference st (op_neg st l) = Real.d_unary NegOp (Real.reference st l)
  /\ Real.reference st (op_add st l r)
     = Real.d_add (Real.reference st l) (Real.reference st r)
  /\ Real.reference st (op_sub st l r)
     = Real.d_add (Real.reference st l)
         (Real.d_unary NegOp (Real.reference st r))
  /\ (Real.Defined st l -> Real.Defined st r ->
      Real.Defined st (op_neg st l)
      /\ Real.Defined st (op_add st l r)
      /\ Real.Defined st (op_sub st l r))
  /\ op_neg st (Unary NegOp (Leaf (ByRef x)) : Expr R)
     = Leaf (ByVal (st x))
  /\ Mixed.neg_3u_times st x
     = NumberDualMulExpr (Mixed.UInt 4294967293) (ByRef x)
  /\ fst (eval sp st (Mixed.neg_3u_times st x))
     = mkDual (val (st x) * 4294967293)%R (grad (st x) * 4294967293)%R.
Proof.
  split; [apply RealFacts.op_neg_sound|].
  split; [apply RealFacts.op_add_sound|].
  split; [apply RealFacts.op_sub_sound|].
  split.
  { intros Dl Dr.
    auto using RealFacts.Defined_op_neg, RealFacts.Defined_op_add,
               RealFacts.Defined_op_sub. }
  split; [reflexivity|].
  split; [apply Mixed.neg_3u_times_tree|].
  rewrite Mixed.neg_3u_times_tree.
  apply (Mixed.eval_NumberDualMulExpr (Mixed.UInt 4294967293)).
Qed.

Lemma additive_operators_build_sums_witness :
  Real.reference st_R (op_sub st_R x0 (Unary NegOp x1))
  = Real.d_add (Real.reference st_R x0)
      (Real.d_unary NegOp (Real.reference st_R (Unary NegOp x1)))
  /\ op_sub st_R x0 (Unary NegOp x1) = AddExpr x0 (Leaf (ByVal (mkDual 2 0)%R)).
Proof.
  destruct (additive_operators_build_sums
              st_R x0 (Unary NegOp x1) (Var 0) 0) as (_ & _ & H & _).
  split; [exact H | reflexivity].
Defined.

(** X8.  The trees built by [*], [/] and [abs2], with their rewrite rules
    ([c * (d * x)] is [(c * d) * x], [c * (-e)] is [(-c) * e],
    [e * c] is [c * e], [(-a) * (-b)] is [a * b], [(1/a) * (1/b)] is
    [1 / (a * b)], [l / r] is [l * (1/r)]).  With scalars of the value
    type, over the reals, a tree built and reduced in the same store
    denotes the product, the quotient (for a divisor with a non-zero
    value) and the square of its operands, and is defined where the
    operands are.  The inverse of an inverse is a copy of its operand.
    Scalars are multiplied in their own type: with [unsigned] scalars,
    [4000000000u * (2u * x)] is [3705032704u * x]. *)
Theorem multiplicative_operators_build_products
    (st : store R) (l r : Expr R) (x : loc) (sp : nat) :
  Real.Defined st l -> Real.Defined st r ->
  (Real.reference st (op_mul st l r)
   = Real.d_mul (Real.reference st l) (Real.reference st r)
   /\ Real.Defined st (op_mul st l r))
  /\ (val (Real.reference st r) <> 0%R ->
      Real.reference st (op_div st l r)
      = Real.d_mul (Real.reference st l)
          (Real.d_unary InvOp (Real.reference st r))
      /\ Real.Defined st (op_div st l r))
  /\ (Real.reference st (abs2 st l)
      = Real.d_mul (Real.reference st l) (Real.reference st l)
      /\ Real.Defined st (abs2 st l))
  /\ inverse st (Unary InvOp (Leaf (ByRef x)) : Expr R)
     = Leaf (ByVal (st x))
  /\ Mixed.big_times_2u_times st x
     = NumberDualMulExpr (Mixed.UInt 3705032704) (ByRef x)
  /\ fst (eval sp st (Mixed.big_times_2u_times st x))
     = mkDual (val (st x) * 3705032704)%R (grad (st x) * 3705032704)%R.
Proof.
  intros Dl Dr. split; [|split; [|split; [|split; [|split]]]].
  - split; [now apply Real.op_mul_sound | now apply RealFacts.Defined_op_mul].
  - intros Z.
    split; [now apply RealFacts.op_div_sound
           | now apply RealFacts.Defined_op_div].
  - unfold abs2.
    split; [now apply Real.op_mul_sound | now apply RealFacts.Defined_op_mul].
  - reflexivity.
  - apply Mixed.big_times_2u_times_tree.
  - rewrite Mixed.big_times_2u_times_tree.
    apply (Mixed.eval_NumberDualMulExpr (Mixed.UInt 3705032704)).
Qed.

Lemma multiplicative_operators_build_products_witness :
  Real.reference st_R (op_div st_R (Unary InvOp x1) (Unary InvOp x2))
  = Real.d_mul (Real.reference st_R (Unary InvOp x1))
      (Real.d_unary InvOp (Real.reference st_R (Unary InvOp x2)))
  /\ op_div st_R (Unary InvOp x1) (Unary InvOp x2)
     = MulExpr (Unary InvOp x1) (Leaf (ByVal (mkDual 3 0)%R)).
Proof.
  destruct (multiplicative_operators_build_products
              st_R (Unary InvOp x1) (Unary InvOp x2) (Var 0) 0)
    as (_ & H & _).
  - simpl. split; [exact I | lra].
  - simpl. split; [exact I | lra].
  - split; [|reflexivity].
    apply H. simpl. apply Rinv_neq_0_compat. lra.
Defined.

(** X9.  The number returned by [derivative(f, wrt(x), ...)] is the
    derivative.  Let [f] return the expression [e], defined at the
    current values, and let every operand of [e] other than [x] have a
    zero gradient.  Then the result is the derivative, at the value of
    [x], of the real function that maps [t] to the number [e] denotes
    when [x] holds [t]; and the value of [e] computed by the engine is the
    number it denotes. *)
Theorem derivative_is_the_derivative
    (e : Expr R) (sp : nat) (st : store R) (x : loc) :
  Real.wf sp e -> below sp x -> Real.Defined st e ->
  Calculus.constant_besides x st e ->
  derivable_pt_lim (fun t => Calculus.value (set_val st x t) e)
    (val (st x))
    (fst (derivative (fun s => eval sp s e) x st))
  /\ val (fst (eval sp st e)) = Calculus.value st e
  /\ (forall t, Real.Defined (set_val st x t) e ->
       val (fst (eval sp (set_val st x t) e))
       = Calculus.value (set_val st x t) e).
Proof.
  intros W B D C. split; [|split].
  - rewrite (Derivative.derivative_sound e sp st x W B D).
    assert (G : grad (seed st x x) = 1%R).
    { unfold seed, seed_with, set_grad. now rewrite upd_same. }
    assert (V : val (seed st x x) = val (st x)).
    { unfold seed, seed_with, set_grad. now rewrite upd_same. }
    assert (S : same_vals st (seed st x)).
    { intros a. unfold seed, seed_with, set_grad, upd.
      destruct (loc_eqb_spec x a) as [<-|N]; reflexivity. }
    rewrite <- V.
    apply (derivable_pt_lim_ext
             (fun t => Calculus.value (Derivative.moved (seed st x) x t) e)).
    { intros t. apply Calculus.value_same_vals.
      intros a. unfold Derivative.moved, set_val, upd.
      destruct (loc_eqb_spec x a) as [<-|N]; [reflexivity|].
      symmetry. apply S. }
    apply (Derivative.reference_derivative (seed st x) x G e).
    + exact (Calculus.Defined_same_vals st _ e S D).
    + intros o Io No.
      unfold seed, seed_with, set_grad. rewrite rd_upd_other by assumption.
      now apply C.
  - rewrite <- Calculus.val_reference.
    destruct (Real.eval_sound e sp st x (proj1 (Real.engine_sound e)) W B D)
      as [E _].
    now rewrite E.
  - intros t Dt. rewrite <- Calculus.val_reference.
    destruct (Real.eval_sound e sp (set_val st x t) x
                (proj1 (Real.engine_sound e)) W B Dt) as [E _].
    now rewrite E.
Qed.

Lemma derivative_is_the_derivative_witness :
  derivable_pt_lim
    (fun t => Calculus.value (set_val st_R (Var 0) t)
                (AddExpr (MulExpr x0 (Unary SinOp x0)) x1))
    (val (st_R (Var 0)))
    (fst (derivative
            (fun s => eval 0 s (AddExpr (MulExpr x0 (Unary SinOp x0)) x1))
            (Var 0) st_R)).
Proof.
  destruct (derivative_is_the_derivative
              (AddExpr (MulExpr x0 (Unary SinOp x0)) x1) 0 st_R (Var 0))
    as [H _].
  - repeat constructor.
  - exact I.
  - simpl. tauto.
  - intros o [<-|[<-|[<-|[]]]] N; try reflexivity; now destruct N.
  - exact H.
Defined.

(** X10.  Compound assignment of a dual with itself, over the reals.
    [x += x], [x -= x] (the overload of [assignSub] for a dual) and (for a
    non-zero value) [x /= x] leave the sum, the difference and the
    quotient of [x] with itself.  [x *= x] reads
    [x.grad] again after having written it: it leaves the gradient
    [g * v + v * (g * v)], which is the gradient [g * v + v * g] of the
    product exactly when [g * v * (v - 1) = 0]; and [x = x * x] leaves
    the same dual as [x *= x].  [x -= -x] and [x /= inverse(x)] act on a
    copy of [x], made by [negative] and [inverse] before [x] is written:
    they leave the sum of [x] with itself and the product of [x] with
    itself, the latter with the gradient of the product rule. *)
Theorem compound_assignment_with_itself
    (sp : nat) (st : store R) (x : loc) :
  assignAdd sp st x (Leaf (ByRef x)) x = Real.d_add (st x) (st x)
  /\ assignSub sp st x (Leaf (ByRef x))
     = Some (assignSub_dual st x (ByRef x))
  /\ assignSub_dual st x (ByRef x) x = mkDual 0%R 0%R
  /\ assignMul sp st x (Leaf (ByRef x)) x
     = mkDual (val (st x) * val (st x))%R
         (grad (st x) * val (st x)
          + val (st x) * (grad (st x) * val (st x)))%R
  /\ (assignMul sp st x (Leaf (ByRef x)) x = Real.d_mul (st x) (st x)
      <-> (grad (st x) * val (st x) * (val (st x) - 1))%R = 0%R)
  /\ assign sp st x (op_mul st (Leaf (ByRef x)) (Leaf (ByRef x))) x
     = assignMul sp st x (Leaf (ByRef x)) x
  /\ (val (st x) <> 0%R ->
      assignDiv sp st x (Leaf (ByRef x)) x = mkDual 1%R 0%R)
  /\ assignSub sp st x (Unary NegOp (Leaf (ByRef x)))
     = Some (assignAdd_dual st x (ByVal (st x)))
  /\ assignAdd_dual st x (ByVal (st x)) x = Real.d_add (st x) (st x)
  /\ assignDiv sp st x (Unary InvOp (Leaf (ByRef x)))
     = assignMul_dual st x (ByVal (st x))
  /\ assignMul_dual st x (ByVal (st x)) x = Real.d_mul (st x) (st x).
Proof.
  assert (M : assignMul sp st x (Leaf (ByRef x)) x
              = mkDual (val (st x) * val (st x))%R
                  (grad (st x) * val (st x)
                   + val (st x) * (grad (st x) * val (st x)))%R).
  { change (assignMul sp st x (Leaf (ByRef x))) with (assignMul_dual st x (ByRef x)).
    prim_unfold. repeat (rewrite ?upd_same; cbn [val grad rd]).
    Real.R_ops. reflexivity. }
  split; [|split; [reflexivity|split; [|split; [exact M|split; [|split;
    [|split; [|split; [reflexivity|split; [|split; [reflexivity|]]]]]]]]]].
  - change (assignAdd sp st x (Leaf (ByRef x))) with (assignAdd_dual st x (ByRef x)).
    prim_unfold. repeat (rewrite ?upd_same; cbn [val grad rd]).
    Real.R_ops. reflexivity.
  - prim_unfold. repeat (rewrite ?upd_same; cbn [val grad rd]).
    Real.R_ops. f_equal; ring.
  - rewrite M. unfold Real.d_mul. split.
    + intros E. inversion E as [E']. lra.
    + intros E. f_equal. lra.
  - change (assign sp st x (op_mul st (Leaf (ByRef x)) (Leaf (ByRef x))))
      with (assignMul_dual (assign_dual st x (ByRef x)) x (ByRef x)).
    change (assignMul sp st x (Leaf (ByRef x)))
      with (assignMul_dual st x (ByRef x)).
    apply at_self2_assignMul_dual; [|now left].
    prim_unfold. repeat (rewrite ?upd_same; cbn [val grad rd]).
    apply Dual_eta.
  - intros Z.
    change (assignDiv sp st x (Leaf (ByRef x))) with (assignDiv_dual st x (ByRef x)).
    prim_unfold. repeat (rewrite ?upd_same; cbn [val grad rd]).
    Real.R_ops. f_equal; field; assumption.
  - prim_unfold. repeat (rewrite ?upd_same; cbn [val grad rd]).
    Real.R_ops. reflexivity.
  - prim_unfold. repeat (rewrite ?upd_same; cbn [val grad rd]).
    Real.R_ops. reflexivity.
Qed.

Lemma compound_assignment_with_itself_witness :
  assignDiv 0 (fun _ => mkDual 3 2)%R (Var 0)
    (Unary InvOp (Leaf (ByRef (Var 0)))) (Var 0)
  = mkDual (3 * 3)%R (2 * 3 + 3 * 2)%R.
Proof.
  destruct (compound_assignment_with_itself 0 (fun _ => mkDual 3 2)%R (Var 0))
    as (_ & _ & _ & _ & _ & _ & _ & _ & _ & H1 & H2).
  rewrite H1. exact H2.
Defined.

(** X11.  In binary64, [abs(x)] at a variable whose value is [+0] or
    [-0] has the value [0] and the gradient NaN, whatever the gradient of
    [x] is (also when it is zero): [apply(self, AbsOp)] multiplies the
    gradient by [aux / abs(aux)], which is [0 / 0].  In particular the
    derivative of [abs] at zero is reported as NaN. *)
Theorem abs_at_zero_gradient_is_nan
    (sp : nat) (st : store float) (n : nat) :
  (val (st (Var n)) =? 0)%float = true ->
  val (fst (eval sp st (Unary AbsOp (Leaf (ByRef (Var n)))))) = 0%float
  /\ grad (fst (eval sp st (Unary AbsOp (Leaf (ByRef (Var n)))))) = nan
  /\ fst (derivative
            (fun s => eval sp s (Unary AbsOp (Leaf (ByRef (Var n)))))
            (Var n) st) = nan.
Proof.
  intros Z.
  assert (E : forall s : store float,
             fst (eval sp s (Unary AbsOp (Leaf (ByRef (Var n)))))
             = mkDual (PrimFloat.abs (val (s (Var n))))
                 (grad (s (Var n))
                  * (val (s (Var n)) / PrimFloat.abs (val (s (Var n)))))%float).
  { intros s.
    change (fst (eval sp s (Unary AbsOp (Leaf (ByRef (Var n))))))
      with (apply AbsOp (assign_dual s (Tmp sp) (ByRef (Var n))) (Tmp sp)
              (Tmp sp)).
    prim_unfold.
    repeat (rewrite ?upd_same, ?(upd_other _ (Tmp sp) _ (Var n))
              by discriminate;
            cbn [val grad rd]).
    reflexivity. }
  assert (G : forall g : float,
             (g * (val (st (Var n)) / PrimFloat.abs (val (st (Var n)))))%float
             = nan).
  { intros g. rewrite (Binary64Facts.abs_zero _ Z).
    rewrite (Binary64Facts.div_zero_zero _ Z).
    apply Binary64Facts.mul_nan_r. }
  split; [|split].
  - rewrite E. cbn [val]. now apply Binary64Facts.abs_zero.
  - rewrite E. cbn [grad]. apply G.
  - unfold derivative.
    pose proof (E (seed st (Var n))) as E'.
    destruct (eval sp (seed st (Var n)) (Unary AbsOp (Leaf (ByRef (Var n)))))
      as [res s']. cbn [fst] in *. rewrite E'. cbn [grad].
    unfold seed, seed_with, set_grad. rewrite upd_same. cbn [val grad].
    apply G.
Qed.

Lemma abs_at_zero_gradient_is_nan_witness :
  grad (fst (eval 0 st_zero (Unary AbsOp (Leaf (ByRef (Var 0)))))) = nan.
Proof.
  destruct (abs_at_zero_gradient_is_nan 0 st_zero 0) as (_ & H & _).
  - reflexivity.
  - exact H.
Defined.

(** X12.  On a value of type [HigherOrderDual<N>], [derivative<order>]
    has an instantiation exactly for [1 <= order <= N]; it then returns a
    value of type [HigherOrderDual<N - order>].  For [order = 0] and for
    [order > N] there is none. *)
Theorem derivative_orders_of_HigherOrderDual
    {T : Type} {NT : Number T}
    (n : nat) (v : HigherOrder.Value T) (order : N) :
  HigherOrderFacts.is_HigherOrderDual n v ->
  (N.of_nat n < HigherOrder.SIZE_MAX)%N ->
  ((1 <= order <= N.of_nat n)%N ->
   exists d, HigherOrder.derivative order v = Some d
             /\ HigherOrderFacts.is_HigherOrderDual (n - N.to_nat order) d)
  /\ ((order = 0 \/ N.of_nat n < order)%N ->
      HigherOrder.derivative order v = None).
Proof.
  intros H L. split.
  - intros [L1 L2].
    destruct (HigherOrderFacts.grad_iter_HigherOrderDual
                (N.to_nat order) n v H) as (d & E & Hd); [lia|].
    exists d. split; [|exact Hd].
    replace order with (N.of_nat (S (Nat.pred (N.to_nat order)))) by lia.
    rewrite HigherOrder.derivative_peels.
    replace (S (Nat.pred (N.to_nat order))) with (N.to_nat order) by lia.
    exact E.
  - intros [->|L2].
    + apply HigherOrder.derivative_order_zero.
      now rewrite (HigherOrderFacts.grad_depth_HigherOrderDual n v H).
    + apply HigherOrder.derivative_beyond_depth.
      now rewrite (HigherOrderFacts.grad_depth_HigherOrderDual n v H).
Qed.

Lemma derivative_orders_of_HigherOrderDual_witness :
  (exists d, HigherOrder.derivative 2 (st_N 0%nat) = Some d
             /\ HigherOrderFacts.is_HigherOrderDual (2 - N.to_nat 2) d)
  /\ HigherOrder.derivative 3 (st_N 0%nat) = None.
Proof.
  destruct (derivative_orders_of_HigherOrderDual 2 (st_N 0%nat) 2)
    as [H2 _]; [simpl; tauto | reflexivity |].
  destruct (derivative_orders_of_HigherOrderDual 2 (st_N 0%nat) 3)
    as [_ H3]; [simpl; tauto | reflexivity |].
  split; [apply H2; lia | apply H3; right; reflexivity].
Defined.

(** X13.  [seed(wrt(x_0, ..., x_k))] has an instantiation exactly when
    the tuple is not empty, the tuple has one variable or the compiler
    resolves the function named in [std::apply], and every [x_i] is a dual
    nested at least [i + 1] levels deep along [.val].  It then sets, for
    every [i], the member [x_i.val. ... .val.grad] ([i] times [.val]) to
    one (a nested member to the value one with zero gradients), and leaves
    the innermost value of every variable as it was. *)
Theorem seed_defined_when_nested_deep_enough
    {T : Type} {NT : Number T}
    (resolves : bool) (wrt : list nat) (st : HigherOrder.vars T) :
  ((exists st', HigherOrder.seed resolves wrt st = Some st')
   <-> (wrt <> []
        /\ (length wrt = 1 \/ resolves = true)
        /\ forall i x, nth_error wrt i = Some x ->
                       i < HigherOrder.val_depth (st x)))
  /\ forall st', HigherOrder.seed resolves wrt st = Some st' ->
       (forall i x, nth_error wrt i = Some x ->
          exists g, HigherOrder.grad_at i (st x) = Some g
                    /\ HigherOrder.grad_at i (st' x)
                       = Some (HigherOrder.assign_number g one))
       /\ (forall y, HigherOrder.val (st' y) = HigherOrder.val (st y)).
Proof.
  split; [split|].
  - intros [st' E].
    destruct (HigherOrder.seed_tuple_Some _ _ _ _ _ E) as [E' Rs].
    split; [|split; [exact Rs|]].
    + intros ->. discriminate.
    + intros i x Hi.
      pose proof (HigherOrderFacts.seed_from_depth _ _ _ _ _ E' i x Hi). lia.
  - intros (Hne & Rs & H). unfold HigherOrder.seed.
    rewrite (HigherOrder.seed_tuple_resolved _ _ _ _ Rs).
    apply HigherOrder.seed_from_defined; [exact Hne|].
    intros i x Hi. specialize (H i x Hi). lia.
  - intros st' E.
    destruct (HigherOrder.seed_tuple_Some _ _ _ _ _ E) as [E' _]. split.
    + intros i x Hi.
      destruct (HigherOrder.seed_from_grad _ _ _ _ _ E' i x Hi) as (g & G1 & G2).
      rewrite Nat.add_0_r in G1, G2. eauto.
    + exact (HigherOrder.seed_from_val _ _ _ _ _ E').
Qed.

Lemma seed_defined_when_nested_deep_enough_witness :
  (exists st', HigherOrder.seed false [0] st_N = Some st')
  /\ HigherOrder.seed false [0; 1] st_N = None.
Proof.
  destruct (seed_defined_when_nested_deep_enough false [0] st_N) as [[_ H] _].
  split; [|reflexivity].
  apply H. split; [discriminate|]. split; [now left|].
  intros [|[|i]] x Hi; simpl in Hi; inversion Hi. simpl. lia.
Defined.

(** X14.  The side effect of [derivative(f, wrt(x), ...)], for [f]
    returning an expression: when the call returns, [x] has the value it
    had and a zero gradient (a gradient it held before the call is lost),
    and every other live dual is as it was. *)
Theorem derivative_resets_the_seed_only
    {T : Type} {NT : Number T} {ST : Scalars T}
    (e : Expr T) (sp : nat) (st : store T) (x a : loc) :
  below sp x -> below sp a ->
  snd (derivative (fun s => eval sp s e) x st) a
  = if loc_eqb a x then mkDual (val (st x)) zero else st a.
Proof.
  intros Bx Ba. unfold derivative.
  pose proof (frame_eval e sp (seed st x)) as F.
  destruct (eval sp (seed st x) e) as [res st']. cbn [snd] in *.
  unfold unseed, seed_with, set_grad.
  destruct (loc_eqb_spec a x) as [->|N].
  - rewrite upd_same, (F x Bx).
    unfold seed, seed_with, set_grad. now rewrite upd_same.
  - rewrite upd_other by congruence. rewrite (F a Ba).
    unfold seed, seed_with, set_grad. apply upd_other. congruence.
Qed.

Lemma derivative_resets_the_seed_only_witness :
  snd (derivative (fun s => eval 0 s (MulExpr x0 x1)) (Var 0) st_R) (Var 0)
  = mkDual (val (st_R (Var 0))) 0%R.
Proof.
  exact (derivative_resets_the_seed_only
           (MulExpr x0 x1) 0 st_R (Var 0) (Var 0) I I).
Defined.

(** X15.  The gradient of an expression is its derivative along the
    gradients of its operands.  Over the reals, where [e] is defined, let
    every operand move from its value with the speed given by its
    gradient, [val + t * grad]; the gradient of the dual that [e]
    evaluates to is the derivative at [t = 0] of the number [e] denotes.
    (With the gradients of the operands being their derivatives with
    respect to some variable, this is the chain rule.) *)
Theorem gradient_is_the_directional_derivative
    (e : Expr R) (sp : nat) (st : store R) :
  Real.wf sp e -> Real.Defined st e ->
  derivable_pt_lim
    (fun t => Calculus.value_with (Derivative.along st t) e) 0
    (grad (fst (eval sp st e))).
Proof.
  intros W D.
  destruct (Real.eval_sound e sp st (Var 0)
              (proj1 (Real.engine_sound e)) W I D) as [E _].
  rewrite E.
  apply (Derivative.reference_derivative_along st (Derivative.along st) 0).
  - intros o. unfold Derivative.along. ring.
  - exact D.
  - intros o _. apply Derivative.along_derivative.
Qed.

Lemma gradient_is_the_directional_derivative_witness :
  derivable_pt_lim
    (fun t => Calculus.value_with (Derivative.along st_R t)
                (MulExpr x0 (Unary ExpOp x1))) 0
    (grad (fst (eval 0 st_R (MulExpr x0 (Unary ExpOp x1))))).
Proof.
  apply (gradient_is_the_directional_derivative
           (MulExpr x0 (Unary ExpOp x1)) 0 st_R).
  - repeat constructor.
  - simpl. tauto.
Defined.

(** X16.  Over the reals, an expression that is defined and all of whose
    operands have a zero gradient evaluates to a dual with a zero
    gradient. *)
Theorem constant_expression_has_zero_gradient
    (e : Expr R) (sp : nat) (st : store R) :
  Real.wf sp e -> Real.Defined st e ->
  (forall o, In o (Calculus.operands e) -> grad (rd st o) = 0%R) ->
  grad (fst (eval sp st e)) = 0%R.
Proof.
  intros W D C.
  destruct (Real.eval_sound e sp st (Var 0)
              (proj1 (Real.engine_sound e)) W I D) as [E _].
  rewrite E. now apply Derivative.reference_constant.
Qed.

Lemma constant_expression_has_zero_gradient_witness :
  grad (fst (eval 0 st_R (MulExpr x1 (Unary SqrtOp x2)))) = 0%R.
Proof.
  apply (constant_expression_has_zero_gradient
           (MulExpr x1 (Unary SqrtOp x2)) 0 st_R).
  - repeat constructor.
  - simpl. split; [exact I|]. split; [exact I | lra].
  - intros o [<-|[<-|[]]]; reflexivity.
Defined.

(** X17.  In binary64 a constant at a singular point poisons the
    gradient.  For a variable [y] with value [+0] or [-0] and gradient
    [+0] or [-0], [1 / y] and [sqrt(y)] have the gradient NaN ([0 * inf]),
    and so has [x + sqrt(y)] for every dual [x]: its derivative with
    respect to [x] is reported as NaN. *)
Theorem singular_constant_poisons_gradient
    (sp : nat) (st : store float) (n m : nat) :
  (val (st (Var n)) =? 0)%float = true ->
  (grad (st (Var n)) =? 0)%float = true ->
  grad (fst (eval sp st (Unary InvOp (Leaf (ByRef (Var n)))))) = nan
  /\ grad (fst (eval sp st (Unary SqrtOp (Leaf (ByRef (Var n)))))) = nan
  /\ grad (fst (eval sp st
                  (AddExpr (Leaf (ByRef (Var m)))
                           (Unary SqrtOp (Leaf (ByRef (Var n))))))) = nan.
Proof.
  intros Zv Zg.
  assert (E : forall op (s : store float),
             fst (eval sp s (Unary op (Leaf (ByRef (Var n)))))
             = apply op (upd s (Tmp sp) (s (Var n))) (Tmp sp) (Tmp sp)).
  { intros op s.
    assert (F : fst (eval sp s (Unary op (Leaf (ByRef (Var n)))))
                = apply op (assign_dual s (Tmp sp) (ByRef (Var n))) (Tmp sp)
                    (Tmp sp)) by (destruct op; reflexivity).
    rewrite F.
    rewrite (at_self1_apply op
               (assign_dual s (Tmp sp) (ByRef (Var n)))
               (upd s (Tmp sp) (s (Var n))) (Tmp sp) (Tmp sp));
      [reflexivity|].
    rewrite assign_dual_self by discriminate. now rewrite upd_same. }
  assert (S : grad (apply SqrtOp (upd st (Tmp sp) (st (Var n))) (Tmp sp)
                      (Tmp sp)) = nan
              /\ grad (apply InvOp (upd st (Tmp sp) (st (Var n))) (Tmp sp)
                         (Tmp sp)) = nan).
  { prim_unfold. repeat (rewrite ?upd_same; cbn [val grad]).
    destruct (st (Var n)) as [v g]. cbn [val grad] in *.
    destruct (Binary64Facts.eqb_zero_cases v Zv) as [-> | ->],
             (Binary64Facts.eqb_zero_cases g Zg) as [-> | ->];
      split; vm_compute; reflexivity. }
  destruct S as [S1 S2].
  split; [now rewrite E|]. split; [now rewrite E|].
  change (fst (eval sp st
                 (AddExpr (Leaf (ByRef (Var m)))
                          (Unary SqrtOp (Leaf (ByRef (Var n)))))))
    with (assignAdd_dual
            (apply SqrtOp (assign_dual st (Tmp sp) (ByRef (Var n))) (Tmp sp))
            (Tmp sp) (ByRef (Var m)) (Tmp sp)).
  pose proof (E SqrtOp st) as E1.
  change (fst (eval sp st (Unary SqrtOp (Leaf (ByRef (Var n))))))
    with (apply SqrtOp (assign_dual st (Tmp sp) (ByRef (Var n))) (Tmp sp)
            (Tmp sp)) in E1.
  unfold assignAdd_dual, set_grad, set_val.
  repeat (rewrite ?upd_same; cbn [val grad]).
  rewrite E1, S1. apply Binary64Facts.add_nan_l.
Qed.

Lemma singular_constant_poisons_gradient_witness :
  grad (fst (eval 0 st_zero
               (AddExpr (Leaf (ByRef (Var 1)))
                        (Unary SqrtOp (Leaf (ByRef (Var 0))))))) = nan.
Proof.
  destruct (singular_constant_poisons_gradient 0 st_zero 0 1)
    as (_ & _ & H); [reflexivity | reflexivity | exact H].
Defined.
